(** * Verification of the batch-generation pipeline of [data.py]

    The development embeds the partitioner ([get_files],
    [get_files_packed]), the group-constrained shuffler ([group_shuffle]),
    the batch assembly ([extract_batch], [process_sample]) and the batch
    generator ([_gen_batches_origin]) of [src/data.py] and states the
    properties of the specification over that embedding. It goes on with
    the packed generator ([_gen_batches_packed]), the entry points
    ([gen_main], [gen_val]), the augmentation ([DataPP]), the command-line
    defaults ([parse_arguments]) and the labelling of the two datasets
    ([DataVoxCeleb.get_files_origin], [DataSpeech.ordered_ids],
    [DataSpeech.get_files_origin]), with further properties read off the
    code; those are numbered X1, X2, ...

    Conventions.
    - Sizes, counts and step numbers are natural numbers (negative
      command-line values are outside the model); an integer division or
      remainder by zero raises [ZeroDivisionError] as in Python, and a
      difference that Python clamps with [max(0, _)] is the truncated
      subtraction.
    - A Python exception is a value of [exn]; a computation that may raise
      returns a [result].
    - A list mutated in place is modelled by the contents it has after the
      call; where aliasing matters (the generator), lists live in a heap.
    - [random] is a tape of draws that is consumed from left to right.
    - Floating-point numbers are the rationals they stand for, and an
      operation whose result need not be a floating-point number rounds
      it: [fl64] to doubles, [fl32] to the single precision of the sample
      arrays (infinities and NaN are outside the model). The decoder, the
      random crop offset and the random augmentation are parameters of
      the model of the batch assembly.
    - A future is the task that was submitted. The generators are modelled
      twice: for runs in which every future resolves to a batch, and, with
      the suffix [_await], for runs in which a future may raise.
    - [np.random] is a sequence of uniform and of standard normal variates
      that is consumed from left to right; a loop whose end depends on the
      draws is given a number of iterations it may use. The Gaussian
      filter, the power function, the regular expression and the directory
      walk are parameters of the model. *)

From stdpp Require Import base gmap strings list fin_maps sorting.
From Stdlib Require Import QArith Qround Qminmax Qabs.

Local Open Scope nat_scope.

(** ** Exceptions *)

Inductive exn : Type :=
  | AssertionError
  | ZeroDivisionError
  | IndexError
  | KeyError
  | ValueError
  | TypeError.

Inductive result (A : Type) : Type :=
  | Ok (a : A)
  | Raise (e : exn).

Arguments Ok {A} a.
Arguments Raise {A} e.

#[global] Instance result_ret : MRet result := λ A a, Ok a.
#[global] Instance result_bind : MBind result :=
  λ A B f m, match m with Ok a => f a | Raise e => Raise e end.

(** [l[i]] of Python for [0 <= i]: [IndexError] out of range. *)
Definition getitem {A} (l : list A) (i : nat) : result A :=
  match l !! i with Some a => Ok a | None => Raise IndexError end.

(** [l[a:b]] of Python for [0 <= a] and [0 <= b]: bounds are clamped. *)
Definition py_slice {A} (l : list A) (a b : nat) : list A :=
  take (b - a) (drop a l).

(** [range(0, stop, step)] for [0 < step]. *)
Definition py_range_step (stop step : nat) : list nat :=
  (λ t, t * step) <$> seq 0 ((stop + step - 1) / step).

(** [a // b] *)
Definition floordiv (a b : nat) : result nat :=
  if b =? 0 then Raise ZeroDivisionError else Ok (a / b).

(** ** The source of randomness *)

Record rng : Type := Rng { tape : nat → nat; pos : nat }.

Definition randbelow (n : nat) (g : rng) : nat * rng :=
  (tape g (pos g) mod n, Rng (tape g) (S (pos g))).

(** [x[i], x[j] = x[j], x[i]] *)
Definition swap_items {A} (x : list A) (i j : nat) : list A :=
  match x !! i, x !! j with
  | Some xi, Some xj => <[j := xi]> (<[i := xj]> x)
  | _, _ => x
  end.

(** [random.shuffle(x)]: for [i] from [len(x) - 1] down to [1], swap [x[i]]
    with [x[randbelow(i + 1)]]. *)
Fixpoint shuffle_from {A} (i : nat) (x : list A) (g : rng) : list A * rng :=
  match i with
  | 0 => (x, g)
  | S i' =>
      let '(j, g') := randbelow (S i) g in
      shuffle_from i' (swap_items x i j) g'
  end.

Definition random_shuffle {A} (x : list A) (g : rng) : list A * rng :=
  shuffle_from (length x - 1) x g.

(** ** Dataset entries *)

(** An entry of an unpacked dataset is the pair [(file, label)] that
    [get_files_origin] appends. *)
Definition entry : Type := string * nat.

Definition label_of (d : entry) : nat := d.2.

(** ** [DataBase.group_shuffle] *)

(** [while len(dataset) % batch_size > 0: dataset.pop()], for
    [0 < batch_size]; the fuel is the number of iterations allowed. *)
Fixpoint pop_loop {A} (fuel batch_size : nat) (dataset : list A) : list A :=
  match fuel with
  | 0 => dataset
  | S fuel' =>
      if 0 <? length dataset mod batch_size
      then pop_loop fuel' batch_size (removelast dataset)
      else dataset
  end.

(** [{ids[i]: group_size - 1 for i in range(batch_groups)}] *)
Fixpoint init_counts (ids : list string) (group_size : nat) (ts : list nat)
    (counts : gmap string nat) : result (gmap string nat) :=
  match ts with
  | [] => Ok counts
  | t :: ts' =>
      id ← getitem ids t;
      init_counts ids group_size ts' (<[id := group_size - 1]> counts)
  end.

(** [ids.remove(id_)]: the first occurrence goes, [ValueError] if none. *)
Fixpoint list_remove (id_ : string) (ids : list string) : result (list string) :=
  match ids with
  | [] => Raise ValueError
  | x :: ids' =>
      if decide (x = id_) then Ok ids'
      else ids'' ← list_remove id_ ids'; Ok (x :: ids'')
  end.

(** The variables of the scan of one window. *)
Record scan_state : Type := ScanState {
  st_dataset : list entry;
  st_ids : list string;
  st_counts : gmap string nat;
  st_j : nat
}.

(** The body of [for k in range(j, upper)]; [stop] is [i + batch_size].
    The boolean tells whether [break] was reached. *)
Definition scan_step (stop k : nat) (st : scan_state) : result (scan_state * bool) :=
  data ← getitem (st_dataset st) k;
  let id_ := data.1 in
  if bool_decide (id_ ∈ st_ids st) then
    match st_counts st !! id_ with
    | None => Raise KeyError
    | Some c =>
        if 0 <? c then
          let counts' := <[id_ := c - 1]> (st_counts st) in
          ids' ← (if c - 1 <=? 0 then list_remove id_ (st_ids st)
                   else Ok (st_ids st));
          dj ← getitem (st_dataset st) (st_j st);
          let dataset' := <[st_j st := data]> (<[k := dj]> (st_dataset st)) in
          let j' := st_j st + 1 in
          Ok (ScanState dataset' ids' counts' j', stop <=? j')
        else Ok (st, false)
    end
  else Ok (st, false).

(** [for k in ks: ...]; returns the final variables, the positions [k] for
    which the body ran, and how the loop ended. *)
Fixpoint scan_loop (stop : nat) (ks : list nat) (st : scan_state)
    : scan_state * list nat * result () :=
  match ks with
  | [] => (st, [], Ok ())
  | k :: ks' =>
      match scan_step stop k st with
      | Raise e => (st, [k], Raise e)
      | Ok (st', brk) =>
          if brk : bool then (st', [k], Ok ())
          else
            let '(st'', vs, r) := scan_loop stop ks' st' in
            (st'', k :: vs, r)
      end
  end.

(** What is recorded of the scan of one window: the start [i] of the
    window, the positions [k] for which the body of the scan ran, and the
    value of [j] when the scan ended. *)
Record scan_log : Type := ScanLog {
  sl_start : nat;
  sl_visited : list nat;
  sl_j : nat
}.

(** The body of [for i in range(0, upper, batch_size)]. *)
Definition window_pass (batch_size group_size batch_groups upper i : nat)
    (dataset : list entry) : list entry * scan_log * result () :=
  let j := i + batch_groups in
  let ids := fst <$> py_slice dataset i j in
  match init_counts ids group_size (seq 0 batch_groups) ∅ with
  | Raise e => (dataset, ScanLog i [] j, Raise e)
  | Ok counts =>
      let '(st, vs, r) :=
        scan_loop (i + batch_size) (seq j (upper - j))
          (ScanState dataset ids counts j) in
      (st_dataset st, ScanLog i vs (st_j st), r)
  end.

(** The outer loop, with the log of every window it went through. *)
Fixpoint windows_loop (batch_size group_size batch_groups upper : nat)
    (starts : list nat) (dataset : list entry)
    : list entry * list scan_log * result () :=
  match starts with
  | [] => (dataset, [], Ok ())
  | i :: starts' =>
      let '(dataset', log, r) :=
        window_pass batch_size group_size batch_groups upper i dataset in
      match r with
      | Raise e => (dataset', [log], Raise e)
      | Ok _ =>
          let '(dataset'', tr, r') :=
            windows_loop batch_size group_size batch_groups upper starts' dataset' in
          (dataset'', log :: tr, r')
      end
  end.

(** What a call of [group_shuffle] leaves behind: the contents of the list
    it was handed, the state of the random source, the scan trace, and
    whether it returned or raised. *)
Record shuffled : Type := Shuffled {
  sh_dataset : list entry;
  sh_rng : rng;
  sh_trace : list scan_log;
  sh_result : result ()
}.

Definition group_shuffle (g : rng) (dataset : list entry) (batch_size : nat)
    (shuffle : bool) (group_size : nat) : shuffled :=
  let '(d1, g1) := if shuffle then random_shuffle dataset g else (dataset, g) in
  if batch_size =? 0 then Shuffled d1 g1 [] (Raise ZeroDivisionError) else
  let d2 := pop_loop (length d1) batch_size d1 in
  let upper := length d2 in
  if group_size =? 0 then Shuffled d2 g1 [] (Raise ZeroDivisionError) else
  if negb (batch_size mod group_size =? 0)
  then Shuffled d2 g1 [] (Raise AssertionError) else
  let batch_groups := batch_size / group_size in
  let '(d3, tr, r) :=
    windows_loop batch_size group_size batch_groups upper
      (py_range_step upper batch_size) d2 in
  Shuffled d3 g1 tr r.

(** ** The partitioner: [get_files_packed], [get_files] *)

(** An entry of a dataset list: a sample of an unpacked dataset or the path
    of an archive of a packed one. *)
Inductive item : Type :=
  | Sample (d : entry)
  | Archive (path : string).

Definition ref_of (x : item) : string :=
  match x with Sample d => d.1 | Archive p => p end.

(** The attributes of a [DataBase] object that the partitioner and the
    generator read or write; [None] is Python's [None] or an attribute not
    yet assigned. *)
Record DataBase : Type := MkDataBase {
  dataset : string;
  batch_size : nat;
  packed : bool;
  shuffle : bool;
  group_size : nat;
  prefetch : nat;
  num_epochs : option nat;
  max_steps : option nat;
  val_size : option nat;
  val_steps : option nat;
  val_set : option (list item);
  epoch_steps : option nat;
  epoch_size : option nat;
  main_set : option (list item)
}.

(** What the partitioner reads from outside: the names [os.listdir] returns
    for the dataset directory, and the [(file, label)] list a
    [get_files_origin] builds from the directory walk, before it calls
    [group_shuffle]. *)
Record discovery : Type := Discovery {
  os_listdir : list string;
  found : list entry
}.

(** [os.path.join(a, b)] of [posixpath]. *)
Definition path_join (a b : string) : string :=
  if String.prefix "/" b then b
  else if bool_decide (a = ""%string) then b
  else if String.eqb (String.substring (String.length a - 1) 1 a) "/" then (a +:+ b)%string
  else (a +:+ "/" +:+ b)%string.

(** The epoch bookkeeping both branches end with:
    [max_steps = epoch_steps * num_epochs] when [max_steps] is [None], else
    [num_epochs = (max_steps + epoch_steps - 1) // epoch_steps]. *)
Definition resolve_steps (epoch_steps : nat) (num_epochs max_steps : option nat)
    : result (nat * nat) :=
  match max_steps with
  | None =>
      match num_epochs with
      | None => Raise TypeError
      | Some n => Ok (n, epoch_steps * n)
      end
  | Some m =>
      n ← floordiv (m + epoch_steps - 1) epoch_steps;
      Ok (n, m)
  end.

Definition py_assert (b : bool) : result () :=
  if b then Ok () else Raise AssertionError.

Definition get_files_packed (self : DataBase) (env : discovery) : result DataBase :=
  let data_list := (λ i, Archive (path_join (dataset self) i)) <$> os_listdir env in
  '(vsize, vsteps, vset, data_list) ←
    match val_size self with
    | Some vs =>
        vsteps ← floordiv vs (batch_size self);
        _ ← py_assert (vsteps <? length data_list);
        Ok (Some (vsteps * batch_size self), Some vsteps,
            Some (py_slice data_list 0 vsteps),
            drop vsteps data_list)
    | None => Ok (None, val_steps self, val_set self, data_list)
    end;
  let esteps := length data_list in
  let esize := esteps * batch_size self in
  '(nepochs, msteps) ← resolve_steps esteps (num_epochs self) (max_steps self);
  Ok (MkDataBase (dataset self) (batch_size self) (packed self) (shuffle self)
        (group_size self) (prefetch self) (Some nepochs) (Some msteps)
        vsize vsteps vset (Some esteps) (Some esize) (Some data_list)).

(** [get_files_origin] of [DataVoxCeleb] and of [DataSpeech]: the list
    built from the directory walk goes through [group_shuffle], which
    works on it in place, and is returned. *)
Definition get_files_origin (g : rng) (self : DataBase) (env : discovery)
    : result (list entry) :=
  let sh := group_shuffle g (found env) (batch_size self) (shuffle self)
              (group_size self) in
  _ ← sh_result sh; Ok (sh_dataset sh).

Definition get_files (g : rng) (self : DataBase) (env : discovery) : result DataBase :=
  if packed self then get_files_packed self env
  else
    data_list ← get_files_origin g self env;
    let data_list := Sample <$> data_list in
    '(vsize, vsteps, vset, data_list) ←
      match val_size self with
      | Some vs =>
          _ ← py_assert (vs <? length data_list);
          vsteps ← floordiv vs (batch_size self);
          let vs' := vsteps * batch_size self in
          Ok (Some vs', Some vsteps, Some (py_slice data_list 0 vs'),
              drop vs' data_list)
      | None => Ok (None, val_steps self, val_set self, data_list)
      end;
    _ ← py_assert (batch_size self <=? length data_list);
    esteps ← floordiv (length data_list) (batch_size self);
    let esize := esteps * batch_size self in
    '(nepochs, msteps) ← resolve_steps esteps (num_epochs self) (max_steps self);
    Ok (MkDataBase (dataset self) (batch_size self) (packed self) (shuffle self)
          (group_size self) (prefetch self) (Some nepochs) (Some msteps)
          vsize vsteps vset (Some esteps) (Some esize)
          (Some (py_slice data_list 0 esize))).

(** ** Arrays

    A signal sample is a rational; a two-dimensional [ndarray] is the list
    of its rows. *)

Definition shape2 (a : list (list Q)) : nat * nat :=
  (length a, length (hd [] a)).

(** [a.shape[-1]] *)
Definition last_dim (a : list (list Q)) : nat := length (hd [] a).

(** [np.max(a)]: [ValueError] on an array without elements. *)
Definition np_max (a : list (list Q)) : result Q :=
  match concat a with
  | [] => Raise ValueError
  | x :: xs => Ok (foldl Qmax x xs)
  end.

(** [max(abs(a))], the peak magnitude the specification speaks of. *)
Definition peak_magnitude (a : list (list Q)) : Q :=
  foldl Qmax 0%Q (Qabs <$> concat a).


(** [np.pad(a, ((0, 0), (0, d)), 'constant')] *)
Definition np_pad_last (a : list (list Q)) (d : nat) : list (list Q) :=
  (λ row : list Q, row ++ replicate d 0%Q) <$> a.

(** [np.pad(a, (0, d), 'constant')]: a single [(before, after)] pair pads
    every axis of [a], so [d] zero rows are added as well. *)
Definition np_pad_all (a : list (list Q)) (d : nat) : list (list Q) :=
  np_pad_last a d ++ replicate d (replicate (last_dim a + d) 0%Q).

(** [np.stack(inputs)]: [ValueError] for no array or differing shapes. *)
Definition np_stack (inputs : list (list (list Q))) : result (list (list (list Q))) :=
  match inputs with
  | [] => Raise ValueError
  | a :: rest =>
      if forallb (λ b, bool_decide (shape2 b = shape2 a)) rest
      then Ok inputs else Raise ValueError
  end.

(** [np.expand_dims(inputs, -2)] on a three-dimensional array. *)
Definition expand_dims_m2 (inputs : list (list (list Q))) : list (list (list (list Q))) :=
  (λ a : list (list Q), (λ row, [row]) <$> a) <$> inputs.

Definition shape4 (x : list (list (list (list Q)))) : nat * nat * nat * nat :=
  (length x, length (hd [] x), length (hd [] (hd [] x)),
   length (hd [] (hd [] (hd [] x)))).

(** [max(l)] of a list of integers. *)
Definition py_max (l : list nat) : result nat :=
  match l with
  | [] => Raise ValueError
  | x :: xs => Ok (foldl Nat.max x xs)
  end.

(** ** Double precision

    Python's [float] and [np.float64] round the exact result of every
    operation to the nearest double, the one with the even significand of
    two that are equally near. [round_float prec emin] rounds a rational
    to the nearest number of [prec] significant bits with exponents from
    [emin] on (smaller numbers are spaced as those of exponent [emin]
    are); [fl64] is the rounding to doubles. Magnitudes of [2^1024] and
    more, which Python turns into [inf], are outside the model. *)

(** [floor(log2(q))] for a positive rational. *)
Definition ilog2 (q : Q) : Z :=
  let e := (Z.log2 (Qnum q) - Z.log2 (Zpos (Qden q)))%Z in
  if Qle_bool (2 ^ e) q then e else (e - 1)%Z.

(** The integer nearest to [q], the even one of two that are equally
    near. *)
Definition round_half_even (q : Q) : Z :=
  let f := Qfloor q in
  match (q - inject_Z f ?= 1 # 2)%Q with
  | Lt => f
  | Gt => (f + 1)%Z
  | Eq => if Z.even f then f else (f + 1)%Z
  end.

Definition round_float (prec emin : Z) (q : Q) : Q :=
  match Qnum q with
  | 0%Z => 0%Q
  | _ =>
      let a := Qabs q in
      let e := Z.max (ilog2 a) emin in
      let quantum := (2 ^ (e - (prec - 1)))%Q in
      let r := (inject_Z (round_half_even (a / quantum)) * quantum)%Q in
      if (Qnum q <? 0)%Z then (- r)%Q else r
  end.

Definition fl64 : Q → Q := round_float 53 (-1022).

(** The rounding to single precision, the precision of the sample arrays
    that [librosa.load] returns; magnitudes of [2^128] and more are outside
    the model. *)
Definition fl32 : Q → Q := round_float 24 (-126).

(** [a *= c] on an array of single-precision numbers: the factor is
    converted to single precision, and every product is rounded to single
    precision. *)
Definition np_scale (c : Q) (a : list (list Q)) : list (list Q) :=
  (λ row : list Q, (λ x, fl32 (x * fl32 c)) <$> row) <$> a.

(** ** [process_sample] and [extract_batch] *)

Record pp_config : Type := PPConfig {
  pp_rate : Z;
  pp_duration : Q;
  threads : nat
}.

(** [a > b] on rationals. *)
Definition Qgtb (a b : Q) : bool := negb (Qle_bool a b).

(** The normalization of [process_sample]:
    [audio_max = np.max(data)], then [norm_factor = 1 / audio_max] and
    [data *= norm_factor] when [audio_max > 1e-6]. [audio_max] is a
    single-precision number; the factor enters the products as the
    single-precision number nearest to the quotient, and every product
    is rounded to single precision. No single-precision number lies
    between the double [1e-6] and the rational [1/1000000], so that the
    comparison is the one of the source. *)
Definition normalize (data : list (list Q)) : result (list (list Q)) :=
  audio_max ← np_max data;
  if Qgtb audio_max (1 # 1000000)
  then let norm_factor := fl32 (1 / audio_max) in Ok (np_scale norm_factor data)
  else Ok data.

Section Preprocessing.
(** The decoder, the random offset and the augmentation
    ([DataPP.process], random and in floating point) are taken as given. *)
Variable librosa_get_duration : string → Q.
Variable librosa_load : string → option Z → Q → Q → result (list Q * Z).
Variable random_uniform : Q → Q → Q.
Variable DataPP_process : list (list Q) → list (list Q).

Definition process_sample (file : string) (label : nat) (config : pp_config)
    : result (list (list Q) * nat) :=
  let sample_rate := if (0 <? pp_rate config)%Z then Some (pp_rate config) else None in
  let slice_duration := Qabs (pp_duration config) in
  let duration := librosa_get_duration file in
  let offset :=
    if Qgtb (pp_duration config) 0 && Qgtb duration slice_duration
    then random_uniform 0 (duration - slice_duration)
    else 0%Q in
  '(data, rate) ← librosa_load file sample_rate offset slice_duration;
  let data := [data] in
  let samples := last_dim data in
  let slice_samples :=
    Z.to_nat (Qfloor (fl64 (fl64 (slice_duration * inject_Z rate) + (1 # 2)))) in
  data ← normalize data;
  let data := if samples <? slice_samples
              then np_pad_last data (slice_samples - samples) else data in
  let data := DataPP_process data in
  Ok (data, label).

(** The loading loop of [extract_batch]; with several threads the
    futures are awaited in submission order, which gives the same lists. *)
Fixpoint load_all (batch_set : list entry) (config : pp_config)
    : result (list (list (list Q)) * list nat) :=
  match batch_set with
  | [] => Ok ([], [])
  | (file, label) :: rest =>
      '(_input, _label) ← process_sample file label config;
      '(inputs, labels) ← load_all rest config;
      Ok (_input :: inputs, _label :: labels)
  end.

Definition extract_batch (batch_set : list entry) (config : pp_config)
    : result (list (list (list (list Q))) * list nat) :=
  '(inputs, labels) ← load_all batch_set config;
  inputs ←
    (if Qle_bool (pp_duration config) 0 then
       max_samples ← py_max (last_dim <$> inputs);
       Ok ((λ i, np_pad_all i (max_samples - last_dim i)) <$> inputs)
     else Ok inputs);
  inputs ← np_stack inputs;
  Ok (expand_dims_m2 inputs, labels).
End Preprocessing.

(** ** The batch generator [_gen_batches_origin]

    Lists live in a heap; [dataset] and [_dataset] are locations. A future
    is represented by the task that was submitted: its epoch, its step, the
    list the window was cut from and the window. The batch a future
    resolves to is what [extract_batch] makes of the window. The loops of
    this section are those of a run in which every call of
    [extract_batch] returns a batch; [drain_await] and the loops that
    follow it below are those of a run in which a call may raise. *)

Record task : Type := Task {
  t_epoch : nat;
  t_step : nat;
  t_source : nat;
  t_batch_set : list entry
}.

Record gen_state : Type := GenState {
  g_heap : gmap nat (list entry);
  g_rng : rng;
  g_dataset_ : nat;
  g_futures : list task;
  g_submitted : list task;
  g_yielded : list task
}.

(** [while len(futures) >= self.prefetch: yield futures.pop(0).result()],
    every result being a batch. *)
Fixpoint drain (fuel prefetch : nat) (futures yielded : list task)
    : list task * list task * result () :=
  match fuel with
  | 0 => (futures, yielded, Ok ())
  | S fuel' =>
      if prefetch <=? length futures then
        match futures with
        | [] => (futures, yielded, Raise IndexError)
        | f :: futures' => drain fuel' prefetch futures' (yielded ++ [f])
        end
      else (futures, yielded, Ok ())
  end.

(** The body of [for step in range(step_start, step_stop)]. *)
Definition step_body (self : DataBase) (epoch step : nat) (st : gen_state)
    : gen_state * result () :=
  let _dataset := g_heap st !!! g_dataset_ st in
  let offset := step * batch_size self in
  let upper := length _dataset `min` (offset + batch_size self) in
  let batch_set := py_slice _dataset offset upper in
  let t := Task epoch step (g_dataset_ st) batch_set in
  let futures := g_futures st ++ [t] in
  let '(futures', yielded', r) :=
    drain (S (length futures)) (prefetch self) futures (g_yielded st) in
  (GenState (g_heap st) (g_rng st) (g_dataset_ st) futures'
     (g_submitted st ++ [t]) yielded', r).

Fixpoint steps_loop (self : DataBase) (epoch : nat) (steps : list nat)
    (st : gen_state) : gen_state * result () :=
  match steps with
  | [] => (st, Ok ())
  | step :: steps' =>
      match step_body self epoch step st with
      | (st', Ok _) => steps_loop self epoch steps' st'
      | (st', Raise e) => (st', Raise e)
      end
  end.

(** [src.copy()]: a new list with the same entries at a location that is
    not in use. *)
Definition list_copy (h : gmap nat (list entry)) (src : nat)
    : gmap nat (list entry) * nat :=
  let l := fresh (dom h) in (<[l := h !!! src]> h, l).

(** [self.group_shuffle(_dataset, self.batch_size, shuffle, self.group_size)]
    for the list at location [_dataset]: the call works in place, so the
    heap holds at [_dataset] what the call leaves behind. *)
Definition group_shuffle_at (self : DataBase) (shuffle : bool) (_dataset : nat)
    (h : gmap nat (list entry)) (g : rng)
    : gmap nat (list entry) * rng * result () :=
  let sh := group_shuffle g (h !!! _dataset) (batch_size self) shuffle
              (group_size self) in
  (<[_dataset := sh_dataset sh]> h, sh_rng sh, sh_result sh).

(** [_dataset = dataset.copy()] followed by the call of [group_shuffle]
    on [_dataset]. *)
Definition reshuffle (self : DataBase) (dataset : nat) (shuffle : bool)
    (st : gen_state) : gen_state * result () :=
  let '(h1, _dataset) := list_copy (g_heap st) dataset in
  let '(h2, g2, r) := group_shuffle_at self shuffle _dataset h1 (g_rng st) in
  (GenState h2 g2 _dataset (g_futures st) (g_submitted st) (g_yielded st), r).

(** The body of [for epoch in range(start // epoch_steps, num_epochs)];
    [step_start] is [max(0, start - step_offset)]. *)
Definition epoch_body (self : DataBase) (dataset epoch_steps max_steps start : nat)
    (shuffle : bool) (epoch : nat) (st : gen_state) : gen_state * result () :=
  let step_offset := epoch_steps * epoch in
  let step_start := start - step_offset in
  let step_stop := epoch_steps `min` (max_steps - step_offset) in
  let '(st1, r) :=
    if 0 <? epoch then reshuffle self dataset shuffle st else (st, Ok ()) in
  match r with
  | Raise e => (st1, Raise e)
  | Ok _ =>
      steps_loop self epoch (seq step_start (step_stop - step_start)) st1
  end.

Fixpoint epochs_loop (self : DataBase) (dataset epoch_steps max_steps start : nat)
    (shuffle : bool) (epochs : list nat) (st : gen_state) : gen_state * result () :=
  match epochs with
  | [] => (st, Ok ())
  | epoch :: epochs' =>
      match epoch_body self dataset epoch_steps max_steps start shuffle epoch st with
      | (st', Ok _) =>
          epochs_loop self dataset epoch_steps max_steps start shuffle epochs' st'
      | (st', Raise e) => (st', Raise e)
      end
  end.

(** The generator run to exhaustion from heap [σ]: the final state holds
    the heap, the windows submitted and the windows whose batches were
    yielded, in order. *)
Definition gen_batches_origin (self : DataBase) (σ : gmap nat (list entry))
    (g : rng) (dataset epoch_steps num_epochs start : nat) (shuffle : bool)
    : gen_state * result () :=
  let st0 := GenState σ g dataset [] [] [] in
  let max_steps := epoch_steps * num_epochs in
  match floordiv start epoch_steps with
  | Raise e => (st0, Raise e)
  | Ok first =>
      match epochs_loop self dataset epoch_steps max_steps start shuffle
              (seq first (num_epochs - first)) st0 with
      | (st, Raise e) => (st, Raise e)
      | (st, Ok _) =>
          (GenState (g_heap st) (g_rng st) (g_dataset_ st) []
             (g_submitted st) (g_yielded st ++ g_futures st), Ok ())
      end
  end.

(** ** Auxiliary notions used in the statements *)

(** The list after the optional [random.shuffle]. *)
Definition pre_shuffled (g : rng) (dataset : list entry) (shuffle : bool)
    : list entry :=
  if shuffle then (random_shuffle dataset g).1 else dataset.

(** The scan state the iterations keep well formed: every active id has a
    counter, and the write position is inside the list. *)
Definition scan_wf (upper : nat) (st : scan_state) : Prop :=
  length (st_dataset st) = upper ∧
  ∀ x, x ∈ st_ids st → is_Some (st_counts st !! x).


(** The list the partitioner starts from: the joined archive paths of a
    packed dataset, the list [get_files_origin] returns otherwise. *)
Definition discovered_list (g : rng) (self : DataBase) (env : discovery)
    : result (list item) :=
  if packed self
  then Ok ((λ i, Archive (path_join (dataset self) i)) <$> os_listdir env)
  else
    match get_files_origin g self env with
    | Ok data_list => Ok (Sample <$> data_list)
    | Raise e => Raise e
    end.

(** The reading of the divisibility invariant for both modes. *)
Definition partition_divisible (self : DataBase) : Prop :=
  ∀ main val, main_set self = Some main → val_set self = Some val →
    length main mod batch_size self = 0 ∧ length val mod batch_size self = 0.

(** The reading of the configuration checks for both modes: a [val_size]
    that reaches the length of the discovered list makes the partitioner
    fail by assertion. *)
Definition val_size_checked (g : rng) (self : DataBase) (env : discovery) : Prop :=
  ∀ vs data_list, val_size self = Some vs →
    discovered_list g self env = Ok data_list →
    length data_list ≤ vs →
    get_files g self env = Raise AssertionError.

(** The window of step [step] cut from the list [l]:
    [l[offset : min(len(l), offset + batch_size)]]. *)
Definition window_of (self : DataBase) (l : list entry) (step : nat) : list entry :=
  py_slice l (step * batch_size self)
    (length l `min` (step * batch_size self + batch_size self)).

(** The tasks of epoch 0 in a sequence of tasks. *)
Definition epoch0 (ts : list task) : list task :=
  filter (λ t, t_epoch t = 0) ts.

(** What [group_shuffle] makes of a copy of [l]. *)
Definition shuffled_copy (self : DataBase) (g : rng) (l : list entry)
    (shuffle : bool) : list entry :=
  sh_dataset (group_shuffle g l (batch_size self) shuffle (group_size self)).

(** Where the window of a submitted task comes from, for a generator
    handed the list [l] at location [dataset] in the heap [σ]: in epoch 0
    it is cut from the caller's list; in a later epoch it is cut from a list
    at a location that was not in [σ] and that holds what [group_shuffle]
    made of a copy of [l]. *)
Definition task_source_ok (self : DataBase) (σ : gmap nat (list entry))
    (dataset : nat) (l : list entry) (shuffle : bool)
    (h : gmap nat (list entry)) (t : task) : Prop :=
  if decide (t_epoch t = 0) then
    t_source t = dataset ∧ t_batch_set t = window_of self l (t_step t)
  else
    (t_source t ∉ dom σ) ∧
    (∃ g', h !! t_source t = Some (shuffled_copy self g' l shuffle) ∧
           t_batch_set t = window_of self (shuffled_copy self g' l shuffle) (t_step t)).

(** ** Example data *)

Definition rng0 : rng := Rng (λ _, 0) 0.

Definition four_files : list entry :=
  [("a.wav", 0); ("b.wav", 1); ("c.wav", 2); ("d.wav", 0)]%string.

(** A list in which the first components recur; the second components
    tell the entries apart. *)
Definition repeated_ids : list entry :=
  [("x", 0); ("y", 1); ("z", 2); ("w", 3); ("x", 4); ("y", 5)]%string.

(** A packed dataset of five archives with [batch_size = 4] and
    [val_size = 8], and one of three archives with [batch_size = 5] and
    [val_size = 10]. *)
Definition packed_db (batch_size val_size : nat) : DataBase :=
  MkDataBase "data" batch_size true false 4 64 (Some 1) None (Some val_size)
    None None None None None.

Definition five_archives : discovery :=
  Discovery ["0.npz"; "1.npz"; "2.npz"; "3.npz"; "4.npz"]%string [].

Definition three_archives : discovery :=
  Discovery ["0.npz"; "1.npz"; "2.npz"]%string [].

(** An unpacked dataset of the six entries above. *)
Definition unpacked_db (batch_size val_size : nat) : DataBase :=
  MkDataBase "data" batch_size false false 1 64 (Some 1) None (Some val_size)
    None None None None None.

Definition six_files : discovery :=
  Discovery []
    [("a.wav", 0); ("b.wav", 0); ("c.wav", 1); ("d.wav", 1); ("e.wav", 2);
     ("f.wav", 2)]%string.


(** The object [get_files] leaves for [unpacked_db 2 3] on [six_files]. *)
Definition six_files_partitioned : DataBase :=
  MkDataBase "data" 2 false false 1 64 (Some 1) (Some 2) (Some 2) (Some 1)
    (Some (Sample <$> take 2 (found six_files)))
    (Some 2) (Some 4)
    (Some (Sample <$> drop 2 (found six_files))).

(** A heap with the caller's list at location 0, and a generator object
    for windows of two entries. *)
Definition caller_heap : gmap nat (list entry) := {[ 0 := repeated_ids ]}.

Definition gen_db : DataBase :=
  MkDataBase "data" 2 false true 2 2 (Some 2) None None None None (Some 3) (Some 6)
    None.

(** A decoder that reads, from the given signal of each file, the samples
    from [offset] seconds on for [duration] seconds, at the requested rate
    or, when none is requested, at the native rate of the file: as
    [librosa.load] it returns [int(duration * rate)] samples at most, and
    none for a duration of zero. [decode_as] takes [22050] for the native
    rate of every file. With them come a duration probe, a random offset
    and an augmentation that leaves the signal alone (what
    [DataPP.process] does with [pp_smooth], [pp_noise] and [pp_amplitude]
    all zero). *)
Definition decode_clip (signal : string → list Q) (native : string → Z)
    : string → option Z → Q → Q → result (list Q * Z) :=
  λ file sample_rate offset duration,
    let rate := default (native file) sample_rate in
    let first := Z.to_nat (Qfloor (offset * inject_Z rate)) in
    let count := Z.to_nat (Qfloor (duration * inject_Z rate)) in
    Ok (take count (drop first (signal file)), rate).

Definition decode_as (signal : string → list Q)
    : string → option Z → Q → Q → result (list Q * Z) :=
  decode_clip signal (λ _, 22050%Z).

Definition no_offset : Q → Q → Q := λ a _, a.

Definition no_augmentation : list (list Q) → list (list Q) := λ data, data.

(** Two clips of two and of three samples, recorded at 2000 and at 3000
    samples per second. *)
Definition two_clips (file : string) : list Q :=
  if String.eqb file "short.wav" then [1 # 2; 1 # 4]%Q
  else [1 # 2; 1 # 4; 1 # 8]%Q.

Definition native_rates (file : string) : Z :=
  if String.eqb file "short.wav" then 2000%Z else 3000%Z.

(** A clip whose largest sample is [1/2] and whose smallest is [-1], and a
    clip with negative samples only. *)
Definition deep_clip (file : string) : list Q := [1 # 2; -(1)]%Q.
Definition low_clip (file : string) : list Q := [-(1 # 2); -(1 # 4)]%Q.

(** * Further functions and example data *)

(** Objects without [val_size]: a packed one with [max_steps] configured
    and an unpacked one with [num_epochs] configured. *)
Definition packed_db_no_val : DataBase :=
  MkDataBase "data" 4 true false 4 64 None (Some 7) None None None None None None.

Definition unpacked_db_no_val : DataBase :=
  MkDataBase "data" 2 false false 1 64 (Some 3) None None None None None None None.

Definition no_archives : discovery := Discovery [] [].

(** The object [get_files] leaves for [unpacked_db_no_val] on
    [six_files]. *)
Definition six_files_unsplit : DataBase :=
  MkDataBase "data" 2 false false 1 64 (Some 3) (Some 9) None None None
    (Some 3) (Some 6) (Some (Sample <$> found six_files)).

(** ** What the unpacked generator is expected to deliver

    The random source after one more call of [group_shuffle] on a copy of
    [l], the list the windows of an epoch are cut from (the caller's list
    in epoch 0, the result of one more [group_shuffle] of a copy in each
    later epoch, the first of them drawing from the initial random source),
    and the sequence of (epoch, step, window) for the global steps from
    [start] to [epoch_steps * num_epochs]. *)
Definition reshuffle_rng (self : DataBase) (l : list entry) (shuffle : bool)
    (g : rng) : rng :=
  sh_rng (group_shuffle g l (batch_size self) shuffle (group_size self)).

Definition epoch_list (self : DataBase) (l : list entry) (shuffle : bool)
    (g : rng) (first epoch : nat) : list entry :=
  if epoch =? 0 then l
  else shuffled_copy self
         (Nat.iter (epoch - first `max` 1) (reshuffle_rng self l shuffle) g)
         l shuffle.

Definition schedule (self : DataBase) (l : list entry) (shuffle : bool) (g : rng)
    (epoch_steps num_epochs start : nat) : list (nat * nat * list entry) :=
  (λ s, (s / epoch_steps, s mod epoch_steps,
         window_of self
           (epoch_list self l shuffle g (start / epoch_steps) (s / epoch_steps))
           (s mod epoch_steps)))
  <$> seq start (epoch_steps * num_epochs - start).

Definition task_triple (t : task) : nat * nat * list entry :=
  (t_epoch t, t_step t, t_batch_set t).

(** The generator object with [prefetch = 0]. *)
Definition gen_db_no_prefetch : DataBase :=
  MkDataBase "data" 2 false true 2 0 (Some 2) None None None None (Some 3) (Some 6)
    None.

(** ** The packed generator [_gen_batches_packed]

    A future stands for the archive that was submitted, with its epoch and
    its step; the batch it resolves to is what [extract_batch_packed] loads
    from the archive. The list of archives is only read. Here too every
    archive is taken to load; the loops for archives that may fail to load
    follow below. *)
Record ptask : Type := PTask {
  p_epoch : nat;
  p_step : nat;
  p_archive : string
}.

Definition ptask_triple (t : ptask) : nat * nat * string :=
  (p_epoch t, p_step t, p_archive t).

(** [while len(futures) >= self.prefetch: yield futures.pop(0).result()],
    every result being a batch. *)
Fixpoint drain_packed (fuel prefetch : nat) (futures yielded : list ptask)
    : list ptask * list ptask * result () :=
  match fuel with
  | 0 => (futures, yielded, Ok ())
  | S fuel' =>
      if prefetch <=? length futures then
        match futures with
        | [] => (futures, yielded, Raise IndexError)
        | f :: futures' => drain_packed fuel' prefetch futures' (yielded ++ [f])
        end
      else (futures, yielded, Ok ())
  end.

(** The body of [for step in range(step_start, step_stop)]:
    [batch_set = _dataset[step]], submit, drain. *)
Definition packed_step_body (self : DataBase) (dataset : list string)
    (epoch step : nat) (futures yielded : list ptask)
    : list ptask * list ptask * result () :=
  match getitem dataset step with
  | Raise e => (futures, yielded, Raise e)
  | Ok batch_set =>
      let futures := futures ++ [PTask epoch step batch_set] in
      drain_packed (S (length futures)) (prefetch self) futures yielded
  end.

Fixpoint packed_steps_loop (self : DataBase) (dataset : list string)
    (epoch : nat) (steps : list nat) (futures yielded : list ptask)
    : list ptask * list ptask * result () :=
  match steps with
  | [] => (futures, yielded, Ok ())
  | step :: steps' =>
      match packed_step_body self dataset epoch step futures yielded with
      | (futures', yielded', Ok _) =>
          packed_steps_loop self dataset epoch steps' futures' yielded'
      | (futures', yielded', Raise e) => (futures', yielded', Raise e)
      end
  end.

Fixpoint packed_epochs_loop (self : DataBase) (dataset : list string)
    (epoch_steps max_steps start : nat) (epochs : list nat)
    (futures yielded : list ptask) : list ptask * list ptask * result () :=
  match epochs with
  | [] => (futures, yielded, Ok ())
  | epoch :: epochs' =>
      let step_offset := epoch_steps * epoch in
      let step_start := start - step_offset in
      let step_stop := epoch_steps `min` (max_steps - step_offset) in
      match packed_steps_loop self dataset epoch
              (seq step_start (step_stop - step_start)) futures yielded with
      | (futures', yielded', Ok _) =>
          packed_epochs_loop self dataset epoch_steps max_steps start epochs'
            futures' yielded'
      | (futures', yielded', Raise e) => (futures', yielded', Raise e)
      end
  end.

(** The generator run to exhaustion: what it yielded, in order, and how it
    ended. *)
Definition gen_batches_packed (self : DataBase) (dataset : list string)
    (epoch_steps num_epochs start : nat) : list ptask * result () :=
  let max_steps := epoch_steps * num_epochs in
  match floordiv start epoch_steps with
  | Raise e => ([], Raise e)
  | Ok first =>
      match packed_epochs_loop self dataset epoch_steps max_steps start
              (seq first (num_epochs - first)) [] [] with
      | (futures, yielded, Raise e) => (yielded, Raise e)
      | (futures, yielded, Ok _) => (yielded ++ futures, Ok ())
      end
  end.

Definition three_paths : list string :=
  ["data/0.npz"; "data/1.npz"; "data/2.npz"]%string.

(** The arguments [process_sample] passes to the decoder: the sample rate,
    and the offset of the crop. *)
Definition load_rate (config : pp_config) : option Z :=
  if (0 <? pp_rate config)%Z then Some (pp_rate config) else None.

Definition load_offset (get_duration : string → Q) (uniform : Q → Q → Q)
    (file : string) (config : pp_config) : Q :=
  if Qgtb (pp_duration config) 0 && Qgtb (get_duration file) (Qabs (pp_duration config))
  then uniform 0%Q (get_duration file - Qabs (pp_duration config))%Q
  else 0%Q.

(** [int(slice_duration * rate + 0.5)], in double precision. *)
Definition slice_samples_of (config : pp_config) (rate : Z) : nat :=
  Z.to_nat (Qfloor (fl64 (fl64 (Qabs (pp_duration config) * inject_Z rate) + (1 # 2)))).

(** ** The entry points [_gen_batches], [gen_main] and [gen_val]

    What a generator run to exhaustion leaves: the state of the unpacked
    generator or the archives of the packed one, and how the run ended. *)
Inductive generated : Type :=
  | Batches (st : gen_state) (r : result ())
  | PackedBatches (yielded : list ptask) (r : result ()).

Definition gen_result (x : generated) : result () :=
  match x with Batches _ r | PackedBatches _ r => r end.

(** The number of batches that were yielded. *)
Definition gen_count (x : generated) : nat :=
  match x with
  | Batches st _ => length (g_yielded st)
  | PackedBatches yielded _ => length yielded
  end.

(** The [(file, label)] entries of a list of an unpacked object. *)
Definition entries_of (l : list item) : list entry :=
  omap (λ x, match x with Sample d => Some d | Archive _ => None end) l.

(** [_gen_batches], for a run in which every future resolves to a batch.
    The list [dataset] of a packed object is a list of archive paths; the
    list of an unpacked object is a list of entries, which lives in the
    heap at [dataset_at] (the partitioner made it by slicing, so no other
    name refers to it). *)
Definition gen_batches (self : DataBase) (σ : gmap nat (list entry)) (g : rng)
    (dataset : list item) (dataset_at : nat) (epoch_steps num_epochs start : nat)
    (shuffle : bool) : generated :=
  if packed self then
    let '(yielded, r) :=
      gen_batches_packed self (ref_of <$> dataset) epoch_steps num_epochs start in
    PackedBatches yielded r
  else
    let '(st, r) :=
      gen_batches_origin self (<[dataset_at := entries_of dataset]> σ) g dataset_at
        epoch_steps num_epochs start shuffle in
    Batches st r.

(** [gen_main] and [gen_val]; [None] when an attribute the call reads is
    not set, which is the case of an object that did not go through
    [get_files] and, for [gen_val], of one made without [val_size]. *)
Definition gen_main (self : DataBase) (σ : gmap nat (list entry)) (g : rng)
    (main_set_at : nat) (start : nat) : option generated :=
  l ← main_set self; es ← epoch_steps self; n ← num_epochs self;
  Some (gen_batches self σ g l main_set_at es n start (shuffle self)).

Definition gen_val (self : DataBase) (σ : gmap nat (list entry)) (g : rng)
    (val_set_at : nat) (start : nat) : option generated :=
  l ← val_set self; es ← val_steps self;
  Some (gen_batches self σ g l val_set_at es 1 start false).

(** The objects [get_files] leaves for [unpacked_db 2 1] on [six_files]
    and for [packed_db 4 8] on [five_archives]. *)
Definition six_files_small_val : DataBase :=
  MkDataBase "data" 2 false false 1 64 (Some 1) (Some 3) (Some 0) (Some 0)
    (Some []) (Some 3) (Some 6) (Some (Sample <$> found six_files)).

Definition five_archives_partitioned : DataBase :=
  MkDataBase "data" 4 true false 4 64 (Some 1) (Some 3) (Some 8) (Some 2)
    (Some [Archive "data/0.npz"; Archive "data/1.npz"]) (Some 3) (Some 12)
    (Some [Archive "data/2.npz"; Archive "data/3.npz"; Archive "data/4.npz"]).

(** ** The augmentation [DataPP]

    [np.random] is a sequence of draws that is consumed from left to
    right: draw [k] gives the uniform variate [np_unit k] when it is asked
    for a uniform number and the standard normal variate [np_gauss k] when
    it is asked for a normal one. numpy draws uniform variates from
    [[0, 1)]; a statement that needs the range says so. A computation
    that draws returns [None] when the iterations it was allowed are used
    up, and otherwise an exception or a value with the state of the
    source. *)
Record np_random : Type := NpRandom {
  np_unit : nat → Q;
  np_gauss : nat → Q;
  np_pos : nat
}.

Definition np_advance (s : np_random) : np_random :=
  NpRandom (np_unit s) (np_gauss s) (S (np_pos s)).

Definition np (A : Type) : Type := np_random → option (result (A * np_random)).

#[global] Instance np_ret : MRet np := λ A a s, Some (Ok (a, s)).
#[global] Instance np_bind : MBind np := λ A B f m s,
  match m s with
  | None => None
  | Some (Raise e) => Some (Raise e)
  | Some (Ok (a, s')) => f a s'
  end.

Definition np_raise {A} (e : exn) : np A := λ _, Some (Raise e).

(** The iterations allowed are used up. *)
Definition np_exhausted {A} : np A := λ _, None.

(** [a < b] on rationals. *)
Definition Qltb (a b : Q) : bool := negb (Qle_bool b a).

(** [np.random.uniform(low, high)], which is
    [low + (high - low) * random_sample()]: exact for the bounds [0] and
    [1] of [active_prob], where the variate itself, a double, is the
    result; the one other call hands its result to the power function,
    which is taken as given. *)
Definition np_random_uniform (low high : Q) : np Q := λ s,
  Some (Ok ((low + (high - low) * np_unit s (np_pos s))%Q, np_advance s)).

(** The value of [np.random.normal(loc, scale)] for the standard normal
    variate [g]: [loc + scale * g] in doubles. *)
Definition normal_variate (loc scale g : Q) : Q :=
  fl64 (loc + fl64 (scale * g)).

(** [np.random.normal(loc, scale)]: [ValueError] for a negative scale. *)
Definition np_random_normal (loc scale : Q) : np Q := λ s,
  if Qltb scale 0 then Some (Raise ValueError)
  else Some (Ok (normal_variate loc scale (np_gauss s (np_pos s)), np_advance s)).

(** [np.random.normal(loc, scale, shape)] for a two-dimensional shape: the
    scale is checked once and the array is filled in row-major order. *)
Fixpoint np_normal_row (loc scale : Q) (cols : nat) : np (list Q) :=
  match cols with
  | 0 => mret []
  | S cols' =>
      x ← np_random_normal loc scale;
      xs ← np_normal_row loc scale cols';
      mret (x :: xs)
  end.

Fixpoint np_normal_rows (loc scale : Q) (rows cols : nat) : np (list (list Q)) :=
  match rows with
  | 0 => mret []
  | S rows' =>
      r ← np_normal_row loc scale cols;
      rs ← np_normal_rows loc scale rows' cols;
      mret (r :: rs)
  end.

Definition np_normal_array (loc scale : Q) (rows cols : nat) : np (list (list Q)) :=
  if Qltb scale 0 then np_raise ValueError
  else np_normal_rows loc scale rows cols.

(** [a += b] for the single-precision [a] and the double-precision [b] of
    [process]: every sum is formed in doubles and stored in single
    precision. The noise has the shape of the data when the filter keeps
    the shape, as the one of scipy does; arrays of different shapes are
    [ValueError] (the stretching of an axis of length one that numpy would
    try is outside the model). *)
Definition np_add (a b : list (list Q)) : result (list (list Q)) :=
  if bool_decide (length <$> a = length <$> b)
  then Ok (zip_with (zip_with (λ x y, fl32 (fl64 (x + y)))) a b)
  else Raise ValueError.

(** The attributes of [config] that [DataPP.process] reads. *)
Record pp_augment : Type := PPAugment {
  pp_smooth : Q;
  pp_noise : Q;
  pp_amplitude : Z
}.

(** [DataPP.active_prob] *)
Definition active_prob (prob : Q) : np bool :=
  u ← np_random_uniform 0 1; mret (Qltb u prob).

(** The loop of [DataPP.truncate_normal]:
    [while scale > max_scale: scale = np.abs(np.random.normal(0.0, std))]. *)
Fixpoint truncate_loop (fuel : nat) (std max_scale scale : Q) : np Q :=
  if Qgtb scale max_scale then
    match fuel with
    | 0 => np_exhausted
    | S fuel' =>
        x ← np_random_normal 0 std;
        truncate_loop fuel' std max_scale (Qabs x)
    end
  else mret scale.

(** [DataPP.truncate_normal(std, mean, max_rate)], in doubles:
    [max_scale + 1.0] is [max_scale] itself for a [max_scale] of [2^53] or
    more in magnitude with an even significand, and the loop is not
    entered then. *)
Definition truncate_normal (fuel : nat) (std mean max_rate : Q) : np Q :=
  let max_scale := fl64 (std * max_rate) in
  scale ← truncate_loop fuel std max_scale (fl64 (max_scale + 1));
  mret (fl64 (scale + mean)).

Section Augmentation.
(** [ndimage.gaussian_filter1d(data, sigma, truncate=...)] and
    [0.1 ** x] are taken as given. *)
Variable gaussian_filter1d : list (list Q) → Q → Q → list (list Q).
Variable power_of_tenth : Q → Q.

(** The loop [while cls.active_prob(noise_prob): ...] of [process]. *)
Fixpoint noise_loop (fuel : nat) (noise_prob : Q) (data : list (list Q))
    : np (list (list Q)) :=
  let noise_std := fl64 (1 # 100) in
  let noise_smooth_prob := fl64 (4 # 5) in
  let noise_smooth_std := (3 # 2)%Q in
  active ← active_prob noise_prob;
  if active : bool then
    match fuel with
    | 0 => np_exhausted
    | S fuel' =>
        noise_scale ← truncate_normal fuel noise_std 0 4;
        noise ← np_normal_array 0 noise_scale (length data) (last_dim data);
        smooth ← active_prob noise_smooth_prob;
        noise ←
          (if smooth : bool then
             smooth_scale ← truncate_normal fuel noise_smooth_std 0 4;
             mret (gaussian_filter1d noise smooth_scale 2)
           else mret noise);
        match np_add data noise with
        | Raise e => np_raise e
        | Ok data' => noise_loop fuel' noise_prob data'
        end
    end
  else mret data.

(** [DataPP.process(data, config)] *)
Definition process (fuel : nat) (data : list (list Q)) (config : pp_augment)
    : np (list (list Q)) :=
  let smooth_prob := pp_smooth config in
  let smooth_std := (3 # 4)%Q in
  smooth ← active_prob smooth_prob;
  data ←
    (if smooth : bool then
       smooth_scale ← truncate_normal fuel smooth_std 0 4;
       mret (gaussian_filter1d data smooth_scale 2)
     else mret data);
  data ← noise_loop fuel (pp_noise config) data;
  let amplitude := (inject_Z (pp_amplitude config) / 10)%Q in
  if Qgtb amplitude 0 then
    x ← np_random_uniform 0 amplitude;
    mret (np_scale (power_of_tenth x) data)
  else mret data.
End Augmentation.

(** ** Command-line defaults: [parse_arguments]

    The attributes of the [args] namespace that [parse_arguments] reads or
    sets; [None] is an option that was not given on the command line. *)
Record args : Type := Args {
  arg_test : bool;
  arg_batch_size : option nat;
  arg_pp_duration : option Q;
  arg_pp_smooth : option Q;
  arg_pp_noise : option Q;
  arg_pp_amplitude : option Z
}.

(** [argdefault(name, value)] and [argchoose(name, cond, tv, fv)], on the
    attribute itself. *)
Definition argdefault {A} (current : option A) (value : A) : option A :=
  match current with
  | None => Some value
  | Some _ => current
  end.

Definition argchoose {A} (current : option A) (cond : bool) (tv fv : A) : option A :=
  argdefault current (if cond then tv else fv).

(** [DataBase.parse_arguments] *)
Definition parse_arguments (a : args) : args :=
  Args (arg_test a)
    (argchoose (arg_batch_size a) (arg_test a) 36 72)
    (argchoose (arg_pp_duration a) (arg_test a) 2 1)%Q
    (argchoose (arg_pp_smooth a) (arg_test a) 0 0)%Q
    (argchoose (arg_pp_noise a) (arg_test a) 0 (fl64 (7 # 10)))%Q
    (argchoose (arg_pp_amplitude a) (arg_test a) 0 0)%Z.

(** [DataSpeech.parse_arguments] *)
Definition DataSpeech_parse_arguments (a : args) : args :=
  Args (arg_test a)
    (argchoose (arg_batch_size a) (arg_test a) 16 32)
    (argchoose (arg_pp_duration a) (arg_test a) (-(4)) (-(2)))%Q
    (argchoose (arg_pp_smooth a) (arg_test a) 0 0)%Q
    (argchoose (arg_pp_noise a) (arg_test a) 0 (fl64 (7 # 10)))%Q
    (argchoose (arg_pp_amplitude a) (arg_test a) 0 0)%Z.

(** The augmentation parameters [DataPP.process] finds in the parsed
    arguments. *)
Definition augment_config (a : args) : option pp_augment :=
  smooth ← arg_pp_smooth a; noise ← arg_pp_noise a; amplitude ← arg_pp_amplitude a;
  Some (PPAugment smooth noise amplitude).

(** Arguments of a test run with nothing but the flag given. *)
Definition test_args : args := Args true None None None None None.

(** A computation is steady when it only moves the position of the source
    of draws forward. *)
Definition np_steady {A} (m : np A) : Prop :=
  ∀ s a s', m s = Some (Ok (a, s')) →
    np_unit s' = np_unit s ∧ np_gauss s' = np_gauss s ∧ np_pos s ≤ np_pos s'.

(** Two sources of draws: uniform variates [0] with normal variates
    [5, 4, 3, ...], and uniform variates [1/2, 1/2, 1, 1, ...] with normal
    variates [1]; a filter and a power function for the examples. *)
Definition draws0 : np_random :=
  NpRandom (λ _, 0%Q) (λ k, inject_Z (5 - Z.of_nat k)) 0.

Definition draws_half : np_random :=
  NpRandom (λ k, if k <? 2 then 1 # 2 else 1)%Q (λ _, 1%Q) 0.

Definition no_filter : list (list Q) → Q → Q → list (list Q) := λ data _ _, data.

Definition unit_power : Q → Q := λ _, 1%Q.

(** ** [DataSpeech.ordered_ids] *)

(** An id that ends with a NUL character: numpy stores strings padded
    with NUL characters and drops those at the end of a string it hands
    back, so that such an id does not come back from [np.unique] as it
    went in. *)
Fixpoint ends_with_nul (x : string) : bool :=
  match x with
  | EmptyString => false
  | String c EmptyString => Ascii.eqb c Ascii.zero
  | String _ rest => ends_with_nul rest
  end.

(** [np.unique(ids)] for ids none of which ends with a NUL character: the
    distinct ids in ascending order (strings compare character by
    character, by character code). The ids of [DataSpeech] are parts of
    file names, which hold no NUL character. *)
Definition np_unique (ids : list string) : list string :=
  merge_sort String.le (remove_dups ids).

(** [{d: i for i, d in enumerate(unique_ids)}]: a later pair replaces an
    earlier one with the same key. *)
Definition enumerate_map (unique_ids : list string) : gmap string nat :=
  foldl (λ m p, <[p.2 := p.1]> m) ∅ (zip (seq 0 (length unique_ids)) unique_ids).

(** [mapping[x]]: [KeyError] for a key that is not in the dict. *)
Definition dict_getitem (mapping : gmap string nat) (x : string) : result nat :=
  match mapping !! x with
  | Some i => Ok i
  | None => Raise KeyError
  end.

(** [list(map(f, ids))] for an [f] that may raise. *)
Fixpoint map_result {A B} (f : A → result B) (l : list A) : result (list B) :=
  match l with
  | [] => Ok []
  | x :: l' => y ← f x; ys ← map_result f l'; Ok (y :: ys)
  end.

Definition ordered_ids (ids : list string) : result (list nat) :=
  let unique_ids := np_unique ids in
  let mapping := enumerate_map unique_ids in
  map_result (dict_getitem mapping) ids.

(** The number the dict holds for an id. *)
Definition rank_of (ids : list string) (x : string) : nat :=
  default 0 (enumerate_map (np_unique ids) !! x).

(** The labelling of [DataSpeech.get_files_origin], from the files found
    and, for each of them, the pair [(person, speech)] the regular
    expression extracts from its name
    ([re.findall(regex, f)[0][1:3]]): the number of labels and the list
    [(file, label)] before it goes through [group_shuffle]. Unpacking
    [zip( *matches)] into two names raises [ValueError] when there is no
    file. *)
Definition DataSpeech_data_list (files : list string)
    (matches : list (string * string)) : result (nat * list entry) :=
  match matches with
  | [] => Raise ValueError
  | _ =>
      person_ids ← ordered_ids (matches.*1);
      speech_ids ← ordered_ids (matches.*2);
      largest ← py_max speech_ids;
      data_list ←
        map_result (λ i, f ← getitem files i; l ← getitem speech_ids i; Ok (f, l))
          (seq 0 (length files));
      Ok (largest + 1, data_list)
  end.

(** Three recordings of two persons and two utterances. *)
Definition speech_files : list string :=
  ["ann-hello.wav"; "bob-hello.wav"; "ann-bye.wav"].

Definition speech_matches : list (string * string) :=
  [("ann", "hello"); ("bob", "hello"); ("ann", "bye")].

(** ** [DataVoxCeleb.get_files_origin]

    What the walk reads from the file system: the names in the dataset
    directory, which paths are directories, and the audio files
    [listdir_files] finds under a directory. *)
Record voxceleb_tree : Type := VoxTree {
  vox_listdir : list string;
  vox_isdir : string → bool;
  vox_files : string → list string
}.

(** The speaker directories: the joined names that are directories. *)
Definition dataset_ids (dataset : string) (tree : voxceleb_tree) : list string :=
  filter (λ i, vox_isdir tree i = true) (path_join dataset <$> vox_listdir tree).

(** [num_labels] and the list [(file, label)] before it goes through
    [group_shuffle]: the files of directory [i] get the label [i]. *)
Definition DataVoxCeleb_data_list (dataset : string) (tree : voxceleb_tree)
    : nat * list entry :=
  let ids := dataset_ids dataset tree in
  let num_labels := length ids in
  (num_labels, concat (imap (λ i d, (λ f, (f, i)) <$> vox_files tree d) ids)).

(** Two speakers and a stray file in the dataset directory. *)
Definition two_speakers : voxceleb_tree :=
  VoxTree ["id1"; "readme.txt"; "id2"]
    (λ p, negb (String.eqb p "data/readme.txt"))
    (λ d, if String.eqb d "data/id1" then ["data/id1/a.wav"; "data/id1/b.wav"]
          else if String.eqb d "data/id2" then ["data/id2/c.wav"; "data/id2/d.wav"]
          else []).

Definition voxceleb_db : DataBase :=
  MkDataBase "data" 2 false true 2 64 (Some 1) None None None None None None None.

(** ** Futures that raise

    [future.result()] returns what the call returned or raises what the
    call raised, and the generator passes the exception on to its caller
    at the [yield] that asks for the result. The loops above are those of
    a run in which every future resolves to a batch. In the loops below
    [await t] is what became of the call of [extract_batch] on the window
    of task [t], and [load t] what became of the call of
    [extract_batch_packed] on the archive of [t]: [Ok ()] for a batch,
    [Raise e] for the exception [e]. A future whose result was asked for
    is no longer among the futures of the state. *)

(** [while len(futures) >= self.prefetch: yield futures.pop(0).result()] *)
Fixpoint drain_await {T} (result_of : T → result ()) (fuel prefetch : nat)
    (futures yielded : list T) : list T * list T * result () :=
  match fuel with
  | 0 => (futures, yielded, Ok ())
  | S fuel' =>
      if prefetch <=? length futures then
        match futures with
        | [] => (futures, yielded, Raise IndexError)
        | f :: futures' =>
            match result_of f with
            | Ok _ => drain_await result_of fuel' prefetch futures' (yielded ++ [f])
            | Raise e => (futures', yielded, Raise e)
            end
        end
      else (futures, yielded, Ok ())
  end.

(** [for future in futures: yield future.result()] *)
Fixpoint flush_await {T} (result_of : T → result ()) (futures yielded : list T)
    : list T * list T * result () :=
  match futures with
  | [] => ([], yielded, Ok ())
  | f :: futures' =>
      match result_of f with
      | Ok _ => flush_await result_of futures' (yielded ++ [f])
      | Raise e => (futures', yielded, Raise e)
      end
  end.

Section Futures.
Variable await : task → result ().
Variable load : ptask → result ().

Definition step_body_await (self : DataBase) (epoch step : nat) (st : gen_state)
    : gen_state * result () :=
  let _dataset := g_heap st !!! g_dataset_ st in
  let offset := step * batch_size self in
  let upper := length _dataset `min` (offset + batch_size self) in
  let batch_set := py_slice _dataset offset upper in
  let t := Task epoch step (g_dataset_ st) batch_set in
  let futures := g_futures st ++ [t] in
  let '(futures', yielded', r) :=
    drain_await await (S (length futures)) (prefetch self) futures (g_yielded st) in
  (GenState (g_heap st) (g_rng st) (g_dataset_ st) futures'
     (g_submitted st ++ [t]) yielded', r).

Fixpoint steps_loop_await (self : DataBase) (epoch : nat) (steps : list nat)
    (st : gen_state) : gen_state * result () :=
  match steps with
  | [] => (st, Ok ())
  | step :: steps' =>
      match step_body_await self epoch step st with
      | (st', Ok _) => steps_loop_await self epoch steps' st'
      | (st', Raise e) => (st', Raise e)
      end
  end.

Definition epoch_body_await (self : DataBase)
    (dataset epoch_steps max_steps start : nat) (shuffle : bool) (epoch : nat)
    (st : gen_state) : gen_state * result () :=
  let step_offset := epoch_steps * epoch in
  let step_start := start - step_offset in
  let step_stop := epoch_steps `min` (max_steps - step_offset) in
  let '(st1, r) :=
    if 0 <? epoch then reshuffle self dataset shuffle st else (st, Ok ()) in
  match r with
  | Raise e => (st1, Raise e)
  | Ok _ =>
      steps_loop_await self epoch (seq step_start (step_stop - step_start)) st1
  end.

Fixpoint epochs_loop_await (self : DataBase)
    (dataset epoch_steps max_steps start : nat) (shuffle : bool)
    (epochs : list nat) (st : gen_state) : gen_state * result () :=
  match epochs with
  | [] => (st, Ok ())
  | epoch :: epochs' =>
      match epoch_body_await self dataset epoch_steps max_steps start shuffle
              epoch st with
      | (st', Ok _) =>
          epochs_loop_await self dataset epoch_steps max_steps start shuffle
            epochs' st'
      | (st', Raise e) => (st', Raise e)
      end
  end.

(** [_gen_batches_origin] run until it is exhausted or raises. *)
Definition gen_batches_origin_await (self : DataBase) (σ : gmap nat (list entry))
    (g : rng) (dataset epoch_steps num_epochs start : nat) (shuffle : bool)
    : gen_state * result () :=
  let st0 := GenState σ g dataset [] [] [] in
  let max_steps := epoch_steps * num_epochs in
  match floordiv start epoch_steps with
  | Raise e => (st0, Raise e)
  | Ok first =>
      match epochs_loop_await self dataset epoch_steps max_steps start shuffle
              (seq first (num_epochs - first)) st0 with
      | (st, Raise e) => (st, Raise e)
      | (st, Ok _) =>
          let '(futures, yielded, r) :=
            flush_await await (g_futures st) (g_yielded st) in
          (GenState (g_heap st) (g_rng st) (g_dataset_ st) futures
             (g_submitted st) yielded, r)
      end
  end.

Definition packed_step_body_await (self : DataBase) (dataset : list string)
    (epoch step : nat) (futures yielded : list ptask)
    : list ptask * list ptask * result () :=
  match getitem dataset step with
  | Raise e => (futures, yielded, Raise e)
  | Ok batch_set =>
      let futures := futures ++ [PTask epoch step batch_set] in
      drain_await load (S (length futures)) (prefetch self) futures yielded
  end.

Fixpoint packed_steps_loop_await (self : DataBase) (dataset : list string)
    (epoch : nat) (steps : list nat) (futures yielded : list ptask)
    : list ptask * list ptask * result () :=
  match steps with
  | [] => (futures, yielded, Ok ())
  | step :: steps' =>
      match packed_step_body_await self dataset epoch step futures yielded with
      | (futures', yielded', Ok _) =>
          packed_steps_loop_await self dataset epoch steps' futures' yielded'
      | (futures', yielded', Raise e) => (futures', yielded', Raise e)
      end
  end.

Fixpoint packed_epochs_loop_await (self : DataBase) (dataset : list string)
    (epoch_steps max_steps start : nat) (epochs : list nat)
    (futures yielded : list ptask) : list ptask * list ptask * result () :=
  match epochs with
  | [] => (futures, yielded, Ok ())
  | epoch :: epochs' =>
      let step_offset := epoch_steps * epoch in
      let step_start := start - step_offset in
      let step_stop := epoch_steps `min` (max_steps - step_offset) in
      match packed_steps_loop_await self dataset epoch
              (seq step_start (step_stop - step_start)) futures yielded with
      | (futures', yielded', Ok _) =>
          packed_epochs_loop_await self dataset epoch_steps max_steps start epochs'
            futures' yielded'
      | (futures', yielded', Raise e) => (futures', yielded', Raise e)
      end
  end.

(** [_gen_batches_packed] run until it is exhausted or raises: what it
    yielded, in order, and how it ended. *)
Definition gen_batches_packed_await (self : DataBase) (dataset : list string)
    (epoch_steps num_epochs start : nat) : list ptask * result () :=
  let max_steps := epoch_steps * num_epochs in
  match floordiv start epoch_steps with
  | Raise e => ([], Raise e)
  | Ok first =>
      match packed_epochs_loop_await self dataset epoch_steps max_steps start
              (seq first (num_epochs - first)) [] [] with
      | (futures, yielded, Raise e) => (yielded, Raise e)
      | (futures, yielded, Ok _) =>
          let '(_, yielded', r) := flush_await load futures yielded in
          (yielded', r)
      end
  end.

(** [_gen_batches], [gen_main] and [gen_val] with futures that may
    raise. *)
Definition gen_batches_await (self : DataBase) (σ : gmap nat (list entry)) (g : rng)
    (dataset : list item) (dataset_at : nat) (epoch_steps num_epochs start : nat)
    (shuffle : bool) : generated :=
  if packed self then
    let '(yielded, r) :=
      gen_batches_packed_await self (ref_of <$> dataset) epoch_steps num_epochs
        start in
    PackedBatches yielded r
  else
    let '(st, r) :=
      gen_batches_origin_await self (<[dataset_at := entries_of dataset]> σ) g
        dataset_at epoch_steps num_epochs start shuffle in
    Batches st r.

Definition gen_main_await (self : DataBase) (σ : gmap nat (list entry)) (g : rng)
    (main_set_at : nat) (start : nat) : option generated :=
  l ← main_set self; es ← epoch_steps self; n ← num_epochs self;
  Some (gen_batches_await self σ g l main_set_at es n start (shuffle self)).

Definition gen_val_await (self : DataBase) (σ : gmap nat (list entry)) (g : rng)
    (val_set_at : nat) (start : nat) : option generated :=
  l ← val_set self; es ← val_steps self;
  Some (gen_batches_await self σ g l val_set_at es 1 start false).
End Futures.

(** Outcomes for the examples: every call comes to a batch; the calls of
    the first two epochs do; no call does; every archive but [data/9.npz] can be read. *)
Definition all_resolve {T} : T → result () := λ _, Ok ().

Definition two_epochs_resolve (t : task) : result () :=
  if t_epoch t <? 2 then Ok () else Raise ValueError.

Definition none_resolves (t : task) : result () := Raise ValueError.

Definition archives_but_one (t : ptask) : result () :=
  if String.eqb (p_archive t) "data/9.npz" then Raise ValueError else Ok ().

(** * Properties *)

(** The roundings are evaluated where a statement is about given numbers,
    and are left alone elsewhere. *)
#[global] Opaque round_float.

(** The roundings at some known values: the doubles and the
    single-precision number nearest to [1/10], a number that is its own
    rounding, the ties at [2^53 + 1] and [2^53 + 3], which go to the even
    neighbour, and the smallest positive double, below half of which a
    number rounds to zero. *)
Example rounding_values :
  (fl64 (1 # 10) == 3602879701896397 # 36028797018963968)%Q ∧
  (fl32 (1 # 10) == 13421773 # 134217728)%Q ∧
  (fl64 (fl64 (1 # 10)) == fl64 (1 # 10))%Q ∧
  (fl64 (-(3 # 4)) == -(3 # 4))%Q ∧
  (fl64 (inject_Z (2 ^ 53 + 1)) == inject_Z (2 ^ 53))%Q ∧
  (fl64 (inject_Z (2 ^ 53 + 3)) == inject_Z (2 ^ 53 + 4))%Q ∧
  (fl64 (1 # 2 ^ 1074) == 1 # 2 ^ 1074)%Q ∧
  (fl64 (1 # 2 ^ 1076) == 0)%Q.
Proof. repeat split; vm_compute; reflexivity. Qed.

(** ** Lists *)

Lemma removelast_take {A} (l : list A) : removelast l = take (length l - 1) l.
Proof.
  induction l as [|a [|b l] IH]; [done..|].
  change (removelast (a :: b :: l)) with (a :: removelast (b :: l)).
  rewrite IH. simpl. by rewrite Nat.sub_0_r.
Qed.

Lemma pop_loop_take {A} (batch_size fuel : nat) (l : list A) :
  0 < batch_size → length l ≤ fuel →
  pop_loop fuel batch_size l = take (length l / batch_size * batch_size) l.
Proof.
  intros Hb. revert l. induction fuel as [|fuel IH]; intros l Hl.
  - destruct l; [by rewrite take_nil | simpl in Hl; lia].
  - simpl. pose proof (Nat.div_mod_eq (length l) batch_size) as Hdm.
    destruct (Nat.ltb_spec 0 (length l mod batch_size)) as [Hpos|Hz].
    + rewrite IH, removelast_take.
      2:{ rewrite removelast_take, length_take. lia. }
      replace (length (take (length l - 1) l)) with (length l - 1)
        by (rewrite length_take; lia).
      assert (Hq : (length l - 1) / batch_size = length l / batch_size).
      { pose proof (Nat.mod_upper_bound (length l) batch_size).
        symmetry. apply (Nat.div_unique _ _ _ (length l mod batch_size - 1)); lia. }
      rewrite Hq, take_take. f_equal. nia.
    + rewrite take_ge; [done|]. nia.
Qed.

Lemma insert_swap_perm {A} (l : list A) (i j : nat) (a b : A) :
  l !! i = Some a → l !! j = Some b → <[j := a]> (<[i := b]> l) ≡ₚ l.
Proof.
  intros Hi Hj. destruct (decide (i = j)) as [->|Hne].
  - rewrite list_insert_insert_eq. simplify_eq. by rewrite list_insert_id.
  - assert (Hlen : ∀ (x : A) k (l' : list A), l' !! k = Some x →
              ∀ y, x :: <[k := y]> l' ≡ₚ y :: l').
    { intros x k l' Hk y. rewrite insert_take_drop by (by eapply lookup_lt_Some).
      rewrite <- (take_drop_middle l' k x Hk) at 3.
      rewrite <- !Permutation_middle. apply perm_swap. }
    revert i j Hne Hi Hj. induction l as [|x l IH]; intros [|i] [|j] Hne Hi Hj;
      simplify_eq/=; try done.
    + by apply Hlen.
    + rewrite (Hlen _ _ _ Hi). done.
    + f_equiv. apply IH; [congruence|done..].
Qed.

Lemma swap_items_perm {A} (x : list A) (i j : nat) : swap_items x i j ≡ₚ x.
Proof.
  unfold swap_items. destruct (x !! i) eqn:Hi; [|done].
  destruct (x !! j) eqn:Hj; [|done]. by apply insert_swap_perm.
Qed.

Lemma shuffle_from_perm {A} (i : nat) (x : list A) (g : rng) :
  (shuffle_from i x g).1 ≡ₚ x.
Proof.
  revert x g. induction i as [|i IH]; intros x g; [done|].
  cbn [shuffle_from]. unfold randbelow. cbn beta iota.
  rewrite IH. apply swap_items_perm.
Qed.

Lemma random_shuffle_perm {A} (x : list A) (g : rng) :
  (random_shuffle x g).1 ≡ₚ x.
Proof. apply shuffle_from_perm. Qed.

(** ** The scan of one window *)

Lemma getitem_Ok {A} (l : list A) (i : nat) (a : A) :
  getitem l i = Ok a ↔ l !! i = Some a.
Proof. unfold getitem. destruct (l !! i); split; congruence. Qed.

Lemma getitem_lt {A} (l : list A) (i : nat) :
  i < length l → ∃ a, getitem l i = Ok a ∧ l !! i = Some a.
Proof.
  intros Hi. destruct (lookup_lt_is_Some_2 l i Hi) as [a Ha].
  exists a. by rewrite getitem_Ok.
Qed.

Lemma list_remove_elem (x : string) (ids : list string) :
  x ∈ ids → ∃ ids', list_remove x ids = Ok ids'.
Proof.
  induction ids as [|y ids IH]; intros Hx; [by apply elem_of_nil in Hx|].
  simpl. destruct (decide (y = x)) as [|Hne]; [by eexists|].
  apply elem_of_cons in Hx as [->|Hx]; [done|].
  destruct (IH Hx) as [ids' ->]. by eexists.
Qed.

Lemma list_remove_subseteq (x : string) (ids ids' : list string) :
  list_remove x ids = Ok ids' → ids' ⊆ ids.
Proof.
  revert ids'. induction ids as [|y ids IH]; intros ids'; cbn [list_remove].
  - done.
  - destruct (decide (y = x)).
    + intros [= <-]. by apply list_subseteq_cons.
    + destruct (list_remove x ids) as [ids''|]; cbn; [|done].
      intros [= <-]. by apply list_subseteq_skip, IH.
Qed.

(** What one iteration of the scan does: nothing, or the swap. *)
Lemma scan_step_inv (stop k : nat) (st st' : scan_state) (brk : bool) :
  scan_step stop k st = Ok (st', brk) →
  (st' = st ∧ brk = false) ∨
  (∃ data dj c,
      st_dataset st !! k = Some data ∧
      st_dataset st !! st_j st = Some dj ∧
      data.1 ∈ st_ids st ∧
      st_counts st !! data.1 = Some c ∧ 0 < c ∧
      st_dataset st' = <[st_j st := data]> (<[k := dj]> (st_dataset st)) ∧
      st_ids st' ⊆ st_ids st ∧
      st_counts st' = <[data.1 := c - 1]> (st_counts st) ∧
      st_j st' = st_j st + 1 ∧
      brk = (stop <=? st_j st + 1)).
Proof.
  unfold scan_step. intros H.
  destruct (getitem (st_dataset st) k) as [data|] eqn:Hk; simplify_eq/=.
  apply getitem_Ok in Hk.
  destruct (bool_decide (data.1 ∈ st_ids st)) eqn:Hin; simplify_eq/=; [|by left].
  apply bool_decide_eq_true in Hin.
  destruct (st_counts st !! data.1) as [c|] eqn:Hc; simplify_eq/=.
  destruct (Nat.ltb_spec 0 c) as [Hpos|]; simplify_eq/=; [|by left].
  destruct (if c - 1 <=? 0 then list_remove data.1 (st_ids st) else Ok (st_ids st))
    as [ids'|] eqn:Hids; simplify_eq/=.
  destruct (getitem (st_dataset st) (st_j st)) as [dj|] eqn:Hj; simplify_eq/=.
  apply getitem_Ok in Hj.
  right. exists data, dj, c. repeat split; try done.
  destruct (c - 1 <=? 0); simplify_eq; [by eapply list_remove_subseteq|done].
Qed.

Lemma scan_step_perm (stop k : nat) (st st' : scan_state) (brk : bool) :
  scan_step stop k st = Ok (st', brk) → st_dataset st' ≡ₚ st_dataset st.
Proof.
  intros [[-> _]|(data & dj & c & Hk & Hj & _ & _ & _ & -> & _)]%scan_step_inv;
    [done|]. by apply insert_swap_perm.
Qed.

Lemma scan_step_total (stop upper k : nat) (st : scan_state) :
  scan_wf upper st → st_j st ≤ k → k < upper →
  ∃ st' brk, scan_step stop k st = Ok (st', brk) ∧
             scan_wf upper st' ∧ st_j st' ≤ S k.
Proof.
  intros [Hlen Hids] Hj Hk. unfold scan_step.
  destruct (getitem_lt (st_dataset st) k) as (data & -> & Hdk); [lia|].
  cbn [mbind result_bind].
  destruct (bool_decide (data.1 ∈ st_ids st)) eqn:Hin.
  2:{ exists st, false. split; [done|]. split; [done|lia]. }
  apply bool_decide_eq_true in Hin.
  destruct (Hids _ Hin) as [c Hc]. rewrite Hc. cbn beta iota.
  destruct (Nat.ltb_spec 0 c) as [Hpos|].
  2:{ exists st, false. split; [done|]. split; [done|lia]. }
  destruct (getitem_lt (st_dataset st) (st_j st)) as (dj & Hgj & Hdj); [lia|].
  assert (∃ ids', (if c - 1 <=? 0 then list_remove data.1 (st_ids st)
                   else Ok (st_ids st)) = Ok ids' ∧ ids' ⊆ st_ids st)
    as (ids' & -> & Hsub).
  { destruct (c - 1 <=? 0); [|by eexists].
    destruct (list_remove_elem _ _ Hin) as [ids' Hr]. exists ids'.
    split; [done|]. by eapply list_remove_subseteq. }
  cbn. rewrite Hgj. cbn. eexists _, _. split; [done|]. split; [split|]; cbn.
  - by rewrite !length_insert.
  - intros x Hx. destruct (decide (data.1 = x)) as [->|Hne].
    + rewrite lookup_insert_eq. by eexists.
    + rewrite lookup_insert_ne by done. apply Hids, Hsub, Hx.
  - lia.
Qed.

(** The rule of the code: the entry at [k] is swapped to position [j], and
    [j] advances, exactly when the file of the entry is an active id whose
    counter is positive. *)
Lemma scan_step_swaps_iff (stop upper k : nat) (st : scan_state) (data : entry) :
  scan_wf upper st → st_j st ≤ k → k < upper →
  st_dataset st !! k = Some data →
  ∃ st' brk, scan_step stop k st = Ok (st', brk) ∧
    ((data.1 ∈ st_ids st ∧ ∃ c, st_counts st !! data.1 = Some c ∧ 0 < c)
       ↔ st_j st' = st_j st + 1) ∧
    (st_j st' = st_j st + 1 → st_dataset st' !! st_j st = Some data).
Proof.
  intros [Hlen Hids] Hj Hk Hdk. unfold scan_step, getitem. rewrite Hdk.
  cbn [mbind result_bind].
  destruct (bool_decide (data.1 ∈ st_ids st)) eqn:Hin.
  2:{ apply bool_decide_eq_false in Hin. exists st, false. split; [done|].
      split; [|lia]. split; [by intros [? _]|lia]. }
  apply bool_decide_eq_true in Hin.
  destruct (Hids _ Hin) as [c Hc]. rewrite Hc. cbn beta iota.
  destruct (Nat.ltb_spec 0 c) as [Hpos|Hz].
  2:{ exists st, false. split; [done|]. split; [|lia].
      split; [|lia]. intros [_ (c' & ? & ?)]. simplify_eq. lia. }
  assert (∃ ids', (if c - 1 <=? 0 then list_remove data.1 (st_ids st)
                   else Ok (st_ids st)) = Ok ids') as [ids' ->].
  { destruct (c - 1 <=? 0); [|by eexists]. by apply list_remove_elem. }
  destruct (lookup_lt_is_Some_2 (st_dataset st) (st_j st)) as [dj Hdj]; [lia|].
  rewrite Hdj. cbn. eexists _, _. split; [done|]. cbn. split.
  - split; [done|]. intros _. split; [done|]. by exists c.
  - intros _. apply list_lookup_insert_eq. rewrite length_insert. lia.
Qed.

(** The loop keeps the entries, visits an initial segment of its range, and
    visits all of it unless the window was filled. *)
Lemma scan_loop_perm (stop : nat) (ks : list nat) (st : scan_state) :
  st_dataset (scan_loop stop ks st).1.1 ≡ₚ st_dataset st.
Proof.
  revert st. induction ks as [|k ks IH]; intros st; [by cbn|].
  cbn [scan_loop]. destruct (scan_step stop k st) as [[st' brk]|] eqn:Hs; [|by cbn].
  apply scan_step_perm in Hs. destruct brk; [by cbn|].
  specialize (IH st'). destruct (scan_loop stop ks st') as [[st'' vs] r].
  cbn in *. by rewrite IH.
Qed.

Lemma scan_loop_visits (stop : nat) (ks : list nat) (st : scan_state) :
  (scan_loop stop ks st).1.2 `prefix_of` ks ∧
  ((scan_loop stop ks st).2 = Ok () →
   st_j (scan_loop stop ks st).1.1 < stop →
   (scan_loop stop ks st).1.2 = ks).
Proof.
  revert st. induction ks as [|k ks IH]; intros st; [by cbn|].
  cbn [scan_loop]. destruct (scan_step stop k st) as [[st' brk]|] eqn:Hs.
  2:{ cbn. split; [|done]. by apply prefix_cons, prefix_nil. }
  destruct brk.
  - cbn. split; [by apply prefix_cons, prefix_nil|]. intros _ Hlt.
    apply scan_step_inv in Hs as [[_ ?]|(?&?&?&_&_&_&_&_&_&_&_&Hj&Hb)]; [done|].
    symmetry in Hb. apply Nat.leb_le in Hb. lia.
  - specialize (IH st'). destruct (scan_loop stop ks st') as [[st'' vs] r].
    cbn in *. destruct IH as [IH1 IH2]. split; [by apply prefix_cons|].
    intros Hr Hlt. by rewrite IH2.
Qed.

Lemma scan_loop_total (stop upper a n : nat) (st : scan_state) :
  scan_wf upper st → st_j st ≤ a → a + n ≤ upper →
  (scan_loop stop (seq a n) st).2 = Ok ().
Proof.
  revert a st. induction n as [|n IH]; intros a st Hwf Hj Hn; [by cbn|].
  cbn [seq scan_loop].
  destruct (scan_step_total stop upper a st) as (st' & brk & -> & Hwf' & Hj');
    [done|done|lia|].
  destruct brk; [done|].
  specialize (IH (S a) st' Hwf' Hj' ltac:(lia)).
  destruct (scan_loop stop (seq (S a) n) st') as [[st'' vs] r]. done.
Qed.

(** ** The windows *)

Lemma init_counts_total (ids : list string) (group_size : nat) (ts : list nat)
    (m : gmap string nat) :
  (∀ t, t ∈ ts → t < length ids) →
  ∃ m', init_counts ids group_size ts m = Ok m' ∧
        (∀ x, is_Some (m !! x) → is_Some (m' !! x)) ∧
        (∀ t x, t ∈ ts → ids !! t = Some x → is_Some (m' !! x)).
Proof.
  revert m. induction ts as [|t ts IH]; intros m Hts.
  - exists m. split; [done|]. split; [done|]. intros t x Ht. by apply elem_of_nil in Ht.
  - cbn [init_counts].
    destruct (getitem_lt ids t) as (x & -> & Hx); [apply Hts; left|].
    cbn [mbind result_bind].
    destruct (IH (<[x := group_size - 1]> m)) as (m' & -> & Hmono & Hnew).
    { intros t' Ht'. apply Hts. by right. }
    exists m'. split; [done|]. split.
    + intros y Hy. apply Hmono. destruct (decide (x = y)) as [->|].
      * rewrite lookup_insert_eq. by eexists.
      * by rewrite lookup_insert_ne.
    + intros t' y [->|Ht']%elem_of_cons Hy; [|by eapply Hnew].
      simplify_eq. apply Hmono. rewrite lookup_insert_eq. by eexists.
Qed.

Lemma window_pass_perm (batch_size group_size batch_groups upper i : nat)
    (dataset : list entry) :
  (window_pass batch_size group_size batch_groups upper i dataset).1.1 ≡ₚ dataset.
Proof.
  unfold window_pass.
  destruct (init_counts _ _ _ _) as [counts|]; [|done].
  pose proof (scan_loop_perm (i + batch_size)
    (seq (i + batch_groups) (upper - (i + batch_groups)))
    (ScanState dataset (fst <$> py_slice dataset i (i + batch_groups)) counts
       (i + batch_groups))) as H.
  destruct (scan_loop _ _ _) as [[st vs] r]. done.
Qed.

Lemma window_pass_visits (batch_size group_size batch_groups upper i : nat)
    (dataset : list entry) :
  let log := (window_pass batch_size group_size batch_groups upper i dataset).1.2 in
  let ks := seq (i + batch_groups) (upper - (i + batch_groups)) in
  sl_start log = i ∧
  sl_visited log `prefix_of` ks ∧
  ((window_pass batch_size group_size batch_groups upper i dataset).2 = Ok () →
   sl_j log < i + batch_size → sl_visited log = ks).
Proof.
  unfold window_pass. cbn zeta.
  destruct (init_counts _ _ _ _) as [counts|]; [|cbn; by split; [|split; [apply prefix_nil|]]].
  pose proof (scan_loop_visits (i + batch_size)
    (seq (i + batch_groups) (upper - (i + batch_groups)))
    (ScanState dataset (fst <$> py_slice dataset i (i + batch_groups)) counts
       (i + batch_groups))) as [H1 H2].
  destruct (scan_loop _ _ _) as [[st vs] r]. done.
Qed.

Lemma window_pass_total (batch_size group_size batch_groups upper i : nat)
    (dataset : list entry) :
  length dataset = upper → i + batch_groups ≤ upper →
  (window_pass batch_size group_size batch_groups upper i dataset).2 = Ok ().
Proof.
  intros Hlen Hi. unfold window_pass.
  set (ids := fst <$> py_slice dataset i (i + batch_groups)).
  assert (Hids : length ids = batch_groups).
  { unfold ids, py_slice. rewrite length_fmap, length_take, length_drop.
    unfold entry in *. lia. }
  destruct (init_counts_total ids group_size (seq 0 batch_groups) ∅)
    as (counts & -> & _ & Hnew).
  { intros t Ht%elem_of_seq. lia. }
  pose proof (scan_loop_total (i + batch_size) upper (i + batch_groups)
    (upper - (i + batch_groups)) (ScanState dataset ids counts (i + batch_groups))) as H.
  destruct (scan_loop _ _ _) as [[st vs] r]. cbn in *. apply H; [|done|lia].
  split; [done|]. cbn. intros x (t & Ht)%list_elem_of_lookup_1.
  apply (Hnew t); [|done]. apply elem_of_seq. apply lookup_lt_Some in Ht. lia.
Qed.

Lemma windows_loop_perm (batch_size group_size batch_groups upper : nat)
    (starts : list nat) (dataset : list entry) :
  (windows_loop batch_size group_size batch_groups upper starts dataset).1.1
    ≡ₚ dataset.
Proof.
  revert dataset. induction starts as [|i starts IH]; intros dataset; [by cbn|].
  cbn [windows_loop].
  pose proof (window_pass_perm batch_size group_size batch_groups upper i dataset) as H.
  destruct (window_pass _ _ _ _ _ _) as [[d' vs] r]. cbn in H.
  destruct r; [|done]. specialize (IH d').
  destruct (windows_loop _ _ _ _ _ _) as [[d'' tr] r']. cbn in *. by rewrite IH.
Qed.


Lemma windows_loop_total (batch_size group_size batch_groups upper : nat)
    (starts : list nat) (dataset : list entry) :
  length dataset = upper →
  (∀ i, i ∈ starts → i + batch_groups ≤ upper) →
  let out := windows_loop batch_size group_size batch_groups upper starts dataset in
  out.2 = Ok () ∧ sl_start <$> out.1.2 = starts.
Proof.
  revert dataset. induction starts as [|i starts IH]; intros dataset Hlen Hst; [by cbn|].
  cbn [windows_loop].
  pose proof (window_pass_perm batch_size group_size batch_groups upper i dataset) as Hp.
  pose proof (window_pass_total batch_size group_size batch_groups upper i dataset
    Hlen (Hst i ltac:(left))) as Ht.
  pose proof (window_pass_visits batch_size group_size batch_groups upper i dataset)
    as (Hi & _).
  destruct (window_pass _ _ _ _ _ _) as [[d' log] r]. cbn in Hp, Ht, Hi. subst r.
  specialize (IH d'). destruct (windows_loop _ _ _ _ _ _) as [[d'' tr] r'].
  cbn in *. destruct IH as [-> ->].
  - by rewrite Hp.
  - intros i' Hi'. apply Hst. by right.
  - by rewrite Hi.
Qed.

Lemma py_range_step_multiple (q step : nat) :
  0 < step → py_range_step (q * step) step = (λ t, t * step) <$> seq 0 q.
Proof.
  intros Hs. unfold py_range_step. f_equal. f_equal.
  symmetry. apply (Nat.div_unique _ _ _ (step - 1)); lia.
Qed.

(** ** [group_shuffle] as a whole *)

Lemma pre_shuffled_perm (g : rng) (dataset : list entry) (shuffle : bool) :
  pre_shuffled g dataset shuffle ≡ₚ dataset.
Proof. destruct shuffle; [apply random_shuffle_perm|done]. Qed.

(** With a positive [batch_size] the call reaches the window loop or the
    assertion, on the list trimmed to a multiple of [batch_size]. *)
Lemma group_shuffle_unfold (g : rng) (dataset : list entry)
    (batch_size : nat) (shuffle : bool) (group_size : nat) :
  0 < batch_size →
  let d2 := take (length dataset / batch_size * batch_size)
              (pre_shuffled g dataset shuffle) in
  let sh := group_shuffle g dataset batch_size shuffle group_size in
  length d2 = length dataset / batch_size * batch_size ∧
  ((group_size = 0 ∧ sh_dataset sh = d2 ∧ sh_trace sh = [] ∧
    sh_result sh = Raise ZeroDivisionError) ∨
   (0 < group_size ∧ batch_size mod group_size ≠ 0 ∧ sh_dataset sh = d2 ∧
    sh_trace sh = [] ∧ sh_result sh = Raise AssertionError) ∨
   (0 < group_size ∧ batch_size mod group_size = 0 ∧
    (sh_dataset sh, sh_trace sh, sh_result sh) =
      windows_loop batch_size group_size (batch_size / group_size) (length d2)
        (py_range_step (length d2) batch_size) d2)).
Proof.
  intros Hb d2 sh.
  assert (Hlen : length (pre_shuffled g dataset shuffle) = length dataset)
    by (by rewrite pre_shuffled_perm).
  assert (Hd2 : length d2 = length dataset / batch_size * batch_size).
  { unfold d2. rewrite length_take, Hlen.
    pose proof (Nat.div_mod_eq (length dataset) batch_size). nia. }
  split; [done|].
  assert (Hsh : sh =
    let d1 := pre_shuffled g dataset shuffle in
    let g1 := if shuffle then (random_shuffle dataset g).2 else g in
    if group_size =? 0 then Shuffled d2 g1 [] (Raise ZeroDivisionError) else
    if negb (batch_size mod group_size =? 0)
    then Shuffled d2 g1 [] (Raise AssertionError) else
    let '(d3, tr, r) :=
      windows_loop batch_size group_size (batch_size / group_size) (length d2)
        (py_range_step (length d2) batch_size) d2 in
    Shuffled d3 g1 tr r).
  { clear Hd2. subst sh d2. unfold group_shuffle, pre_shuffled in *.
    destruct shuffle; [destruct (random_shuffle dataset g) as [d1 g1]|];
      cbn [fst snd] in *; (destruct (Nat.eqb_spec batch_size 0); [lia|]);
      rewrite pop_loop_take by (done || lia); by rewrite ?Hlen. }
  rewrite Hsh. cbn zeta.
  destruct (Nat.eqb_spec group_size 0) as [->|Hg]; [by left|]. right.
  destruct (Nat.eqb_spec (batch_size mod group_size) 0) as [Hm|Hm]; cbn [negb].
  - right. split; [lia|]. split; [done|].
    by destruct (windows_loop _ _ _ _ _ _) as [[d3 tr] r].
  - left. split; [lia|]. done.
Qed.

Lemma group_shuffle_zero_batch (g : rng) (dataset : list entry) (shuffle : bool)
    (group_size : nat) :
  sh_result (group_shuffle g dataset 0 shuffle group_size) = Raise ZeroDivisionError.
Proof.
  unfold group_shuffle.
  by destruct shuffle; [destruct (random_shuffle dataset g)|].
Qed.

(** The final list is a rearrangement of the trimmed list. *)
Lemma group_shuffle_perm (g : rng) (dataset : list entry)
    (batch_size : nat) (shuffle : bool) (group_size : nat) :
  0 < batch_size →
  sh_dataset (group_shuffle g dataset batch_size shuffle group_size) ≡ₚ
    take (length dataset / batch_size * batch_size) (pre_shuffled g dataset shuffle).
Proof.
  intros Hb.
  destruct (group_shuffle_unfold g dataset batch_size shuffle group_size Hb)
    as [_ [(_ & -> & _)|[(_ & _ & -> & _)|(_ & _ & H)]]]; [done..|].
  pose proof (windows_loop_perm batch_size group_size (batch_size / group_size)
    (length (take (length dataset / batch_size * batch_size)
               (pre_shuffled g dataset shuffle)))
    (py_range_step (length (take (length dataset / batch_size * batch_size)
               (pre_shuffled g dataset shuffle))) batch_size)
    (take (length dataset / batch_size * batch_size)
               (pre_shuffled g dataset shuffle))) as Hp.
  rewrite <- H in Hp. done.
Qed.

(** In a valid configuration the call returns: no index, key or value
    goes missing during the scans. *)
Lemma group_shuffle_total (g : rng) (dataset : list entry)
    (batch_size : nat) (shuffle : bool) (group_size : nat) :
  0 < batch_size → 0 < group_size → batch_size mod group_size = 0 →
  sh_result (group_shuffle g dataset batch_size shuffle group_size) = Ok ().
Proof.
  intros Hb Hg Hm.
  destruct (group_shuffle_unfold g dataset batch_size shuffle group_size Hb)
    as [Hlen [(? & _)|[(_ & ? & _)|(_ & _ & H)]]]; [lia|done|].
  set (d2 := take _ _) in *.
  destruct (windows_loop_total batch_size group_size (batch_size / group_size)
    (length d2) (py_range_step (length d2) batch_size) d2) as [Hr _]; [done| |].
  - rewrite Hlen, py_range_step_multiple by done.
    intros i (t & -> & Ht%elem_of_seq)%list_elem_of_fmap.
    assert (batch_size / group_size ≤ batch_size).
    { apply Nat.Div0.div_le_upper_bound. nia. }
    nia.
  - by rewrite <- H in Hr.
Qed.

Lemma group_shuffle_length (g : rng) (dataset : list entry)
    (batch_size : nat) (shuffle : bool) (group_size : nat) :
  0 < batch_size →
  length (sh_dataset (group_shuffle g dataset batch_size shuffle group_size))
    = length dataset / batch_size * batch_size.
Proof.
  intros Hb.
  rewrite (group_shuffle_perm g dataset batch_size shuffle group_size Hb).
  rewrite length_take, (Permutation_length (pre_shuffled_perm _ _ _)).
  pose proof (Nat.div_mod_eq (length dataset) batch_size). nia.
Qed.

Lemma group_shuffle_dropped (g : rng) (dataset : list entry)
    (batch_size : nat) (shuffle : bool) (group_size : nat) :
  0 < batch_size →
  sh_dataset (group_shuffle g dataset batch_size shuffle group_size) ++
    drop (length dataset / batch_size * batch_size) (pre_shuffled g dataset shuffle)
  ≡ₚ dataset.
Proof.
  intros Hb.
  rewrite (group_shuffle_perm g dataset batch_size shuffle group_size Hb).
  by rewrite take_drop, pre_shuffled_perm.
Qed.

(** ** Lists of distinct files *)

Lemma scan_loop_no_match (stop : nat) (ks : list nat) (st : scan_state) :
  (∀ k, k ∈ ks → ∃ d : entry, st_dataset st !! k = Some d ∧ d.1 ∉ st_ids st) →
  scan_loop stop ks st = (st, ks, Ok ()).
Proof.
  induction ks as [|k ks IH]; intros H; [done|].
  cbn [scan_loop]. destruct (H k ltac:(left)) as (d & Hd & Hnot).
  unfold scan_step, getitem. rewrite Hd. cbn [mbind result_bind].
  rewrite bool_decide_eq_false_2 by done.
  rewrite IH; [done|]. intros k' Hk'. apply H. by right.
Qed.

Lemma window_pass_distinct (batch_size group_size batch_groups upper i : nat)
    (dataset : list entry) :
  NoDup (dataset.*1) → length dataset = upper → i + batch_groups ≤ upper →
  (window_pass batch_size group_size batch_groups upper i dataset).1.1 = dataset.
Proof.
  intros Hnd Hlen Hi. unfold window_pass.
  set (ids := (py_slice dataset i (i + batch_groups)).*1).
  destruct (init_counts ids group_size (seq 0 batch_groups) ∅) as [counts|]; [|done].
  rewrite scan_loop_no_match; [done|]. cbn [st_dataset st_ids].
  intros k [Hk1 Hk2]%elem_of_seq.
  destruct (lookup_lt_is_Some_2 dataset k) as [d Hd]; [unfold entry in *; lia|].
  exists d. split; [done|]. intros (t & Ht)%list_elem_of_lookup_1.
  unfold ids, py_slice in Ht. rewrite list_lookup_fmap in Ht.
  destruct (take _ _ !! t) as [d'|] eqn:Hd'; [|done]. cbn in Ht.
  apply lookup_take_Some in Hd' as [Hd' Ht']. rewrite lookup_drop in Hd'.
  assert (i + t = k); [|lia]. unfold entry in *.
  apply (NoDup_lookup (dataset.*1) _ _ d.1 Hnd).
  - rewrite list_lookup_fmap, Hd'. cbn. congruence.
  - by rewrite list_lookup_fmap, Hd.
Qed.

Lemma windows_loop_distinct (batch_size group_size batch_groups upper : nat)
    (starts : list nat) (dataset : list entry) :
  NoDup (dataset.*1) → length dataset = upper →
  (∀ i, i ∈ starts → i + batch_groups ≤ upper) →
  (windows_loop batch_size group_size batch_groups upper starts dataset).1.1 = dataset.
Proof.
  intros Hnd Hlen. induction starts as [|i starts IH]; intros Hst; [done|].
  cbn [windows_loop].
  pose proof (window_pass_distinct batch_size group_size batch_groups upper i dataset
    Hnd Hlen (Hst i ltac:(left))) as Hw.
  destruct (window_pass _ _ _ _ _ _) as [[d' vs] r]. cbn in Hw. subst d'.
  destruct r; [|done].
  assert (IH' := IH (λ i' Hi', Hst i' ltac:(by right))).
  destruct (windows_loop _ _ _ _ _ _) as [[d'' tr] r']. done.
Qed.

(** X2. On a list of entries with pairwise distinct files, as a directory walk
    produces, no scan ever finds a match: [group_shuffle] only shuffles and
    trims. *)
Lemma group_shuffle_distinct_files (g : rng) (dataset : list entry)
    (batch_size : nat) (shuffle : bool) (group_size : nat) :
  NoDup (dataset.*1) → 0 < batch_size →
  sh_dataset (group_shuffle g dataset batch_size shuffle group_size) =
    take (length dataset / batch_size * batch_size) (pre_shuffled g dataset shuffle).
Proof.
  intros Hnd Hb.
  destruct (group_shuffle_unfold g dataset batch_size shuffle group_size Hb)
    as [Hlen [(_ & -> & _)|[(_ & _ & -> & _)|(Hg & Hm & H)]]]; [done..|].
  set (d2 := take _ _) in *.
  pose proof (windows_loop_distinct batch_size group_size (batch_size / group_size)
    (length d2) (py_range_step (length d2) batch_size) d2) as Hw.
  rewrite <- H in Hw. apply Hw; [|done|].
  - assert (Hnd' : NoDup ((pre_shuffled g dataset shuffle).*1)).
    { by rewrite pre_shuffled_perm. }
    rewrite <- (take_drop (length dataset / batch_size * batch_size)
                  (pre_shuffled g dataset shuffle)), fmap_app in Hnd'.
    by apply NoDup_app in Hnd' as [? _].
  - rewrite Hlen, py_range_step_multiple by done.
    intros i (t & -> & Ht%elem_of_seq)%list_elem_of_fmap.
    assert (batch_size / group_size ≤ batch_size).
    { apply Nat.Div0.div_le_upper_bound. nia. }
    nia.
Qed.

(** ** Statements about [group_shuffle] *)

(** C10: with a positive [batch_size], [group_shuffle] leaves a list of
    length [(n // batch_size) * batch_size] whose entries, together with the
    trailing entries dropped after the optional shuffle, are the entries of
    the input, none lost and none duplicated; without the shuffle the list
    is a permutation of the first [m] entries of the input; and in a valid
    configuration the call returns. *)
Theorem group_shuffle_preserves_entries (g : rng) (dataset : list entry)
    (batch_size : nat) (shuffle : bool) (group_size : nat) :
  0 < batch_size →
  let sh := group_shuffle g dataset batch_size shuffle group_size in
  let m := length dataset / batch_size * batch_size in
  length (sh_dataset sh) = m ∧
  sh_dataset sh ++ drop m (pre_shuffled g dataset shuffle) ≡ₚ dataset ∧
  (shuffle = false → sh_dataset sh ≡ₚ take m dataset) ∧
  (0 < group_size → batch_size mod group_size = 0 → sh_result sh = Ok ()).
Proof.
  intros Hb sh m. repeat split.
  - by apply group_shuffle_length.
  - by apply group_shuffle_dropped.
  - intros ->. by apply (group_shuffle_perm g dataset batch_size false group_size).
  - intros Hg Hm. by apply group_shuffle_total.
Qed.

Lemma group_shuffle_preserves_entries_witness :
  let sh := group_shuffle rng0 repeated_ids 4 true 2 in
  length (sh_dataset sh) = 4 ∧
  sh_dataset sh ++ drop 4 (pre_shuffled rng0 repeated_ids true) ≡ₚ repeated_ids ∧
  (true = false → sh_dataset sh ≡ₚ take 4 repeated_ids) ∧
  (0 < 2 → 4 mod 2 = 0 → sh_result sh = Ok ()).
Proof.
  apply (group_shuffle_preserves_entries rng0 repeated_ids 4 true 2). lia.
Defined.




(** C1, at the failing input: the scan compares [data[0]], the file of the
    entry, not its label. The entry at position 3 carries the label of the
    representative at position 0, which has [group_size - 1 = 1] slot left,
    and position 2 is the next open position of the window; yet the list
    comes back unchanged. *)
Theorem group_shuffle_matches_file_not_label :
  let sh := group_shuffle rng0 four_files 4 false 2 in
  sh_result sh = Ok () ∧
  label_of <$> four_files !! 3 = label_of <$> four_files !! 0 ∧
  sh_dataset sh = four_files ∧
  sh_dataset sh !! 2 ≠ four_files !! 3.
Proof. vm_compute. repeat split; congruence. Qed.

(** ** The partitioner *)

Lemma resolve_steps_no_assert (epoch_steps : nat) (num_epochs max_steps : option nat) :
  resolve_steps epoch_steps num_epochs max_steps ≠ Raise AssertionError.
Proof.
  unfold resolve_steps, floordiv.
  destruct max_steps; [destruct (_ =? 0)|destruct num_epochs]; done.
Qed.

(** [get_files] on a packed dataset with [val_size] set. *)
Lemma get_files_packed_unfold (g : rng) (self : DataBase) (env : discovery) (vs : nat) :
  packed self = true → val_size self = Some vs → 0 < batch_size self →
  let data_list := (λ i, Archive (path_join (dataset self) i)) <$> os_listdir env in
  let vsteps := vs / batch_size self in
  let rest := drop vsteps data_list in
  get_files g self env =
    if vsteps <? length data_list then
      match resolve_steps (length rest) (num_epochs self) (max_steps self) with
      | Ok (nepochs, msteps) =>
          Ok (MkDataBase (dataset self) (batch_size self) (packed self) (shuffle self)
                (group_size self) (prefetch self) (Some nepochs) (Some msteps)
                (Some (vsteps * batch_size self)) (Some vsteps)
                (Some (take vsteps data_list))
                (Some (length rest)) (Some (length rest * batch_size self))
                (Some rest))
      | Raise e => Raise e
      end
    else Raise AssertionError.
Proof.
  intros Hp Hv Hb. cbn zeta. unfold get_files, get_files_packed, floordiv, py_slice.
  rewrite Hp, Hv. destruct (Nat.eqb_spec (batch_size self) 0); [lia|].
  cbn [mbind result_bind]. destruct (_ <? _); cbn [py_assert mbind result_bind]; [|done].
  rewrite Nat.sub_0_r, drop_0.
  destruct (resolve_steps _ _ _) as [[nepochs msteps]|]; done.
Qed.

(** [get_files] on an unpacked dataset with [val_size] set, once
    [get_files_origin] has returned [data_list]. *)
Lemma get_files_unpacked_unfold (g : rng) (self : DataBase) (env : discovery)
    (vs : nat) (dl : list entry) :
  packed self = false → val_size self = Some vs → 0 < batch_size self →
  get_files_origin g self env = Ok dl →
  let data_list := Sample <$> dl in
  let vsteps := vs / batch_size self in
  let vs' := vsteps * batch_size self in
  let rest := drop vs' data_list in
  let esteps := length rest / batch_size self in
  get_files g self env =
    if vs <? length data_list then
      if batch_size self <=? length rest then
        match resolve_steps esteps (num_epochs self) (max_steps self) with
        | Ok (nepochs, msteps) =>
            Ok (MkDataBase (dataset self) (batch_size self) (packed self) (shuffle self)
                  (group_size self) (prefetch self) (Some nepochs) (Some msteps)
                  (Some vs') (Some vsteps) (Some (take vs' data_list))
                  (Some esteps) (Some (esteps * batch_size self))
                  (Some (take (esteps * batch_size self) rest)))
        | Raise e => Raise e
        end
      else Raise AssertionError
    else Raise AssertionError.
Proof.
  intros Hp Hv Hb Ho. cbn zeta. unfold get_files, floordiv, py_slice.
  rewrite Hp, Hv, Ho. destruct (Nat.eqb_spec (batch_size self) 0); [lia|].
  cbn [mbind result_bind]. destruct (_ <? _); cbn [py_assert mbind result_bind]; [|done].
  rewrite !Nat.sub_0_r, !drop_0.
  destruct (_ <=? _); cbn [py_assert mbind result_bind]; [|done].
  destruct (resolve_steps _ _ _) as [[nepochs msteps]|]; done.
Qed.

Lemma get_files_origin_inv (g : rng) (self : DataBase) (env : discovery)
    (dl : list entry) :
  get_files_origin g self env = Ok dl →
  0 < batch_size self ∧
  dl = sh_dataset (group_shuffle g (found env) (batch_size self) (shuffle self)
                     (group_size self)) ∧
  length dl = length (found env) / batch_size self * batch_size self.
Proof.
  unfold get_files_origin. intros H.
  assert (Hb : 0 < batch_size self).
  { destruct (batch_size self) eqn:E; [|lia].
    by rewrite group_shuffle_zero_batch in H. }
  destruct (sh_result _); [|done]. cbn in H. injection H as <-.
  split; [done|]. split; [done|].
  by apply group_shuffle_length.
Qed.

Lemma get_files_batch_size_pos (g : rng) (self self' : DataBase) (env : discovery)
    (vs : nat) :
  val_size self = Some vs → get_files g self env = Ok self' → 0 < batch_size self.
Proof.
  intros Hv H. unfold get_files in H. destruct (packed self).
  - unfold get_files_packed, floordiv in H. rewrite Hv in H.
    destruct (Nat.eqb_spec (batch_size self) 0); [done|lia].
  - destruct (get_files_origin g self env) as [dl|] eqn:Ho; [|done].
    by apply get_files_origin_inv in Ho as [? _].
Qed.

(** What a successful [get_files] has assigned, packed mode. *)
Lemma get_files_packed_inv (g : rng) (self self' : DataBase) (env : discovery)
    (vs : nat) :
  packed self = true → val_size self = Some vs →
  get_files g self env = Ok self' →
  let data_list := (λ i, Archive (path_join (dataset self) i)) <$> os_listdir env in
  let vsteps := vs / batch_size self in
  vsteps < length data_list ∧
  val_set self' = Some (take vsteps data_list) ∧
  main_set self' = Some (drop vsteps data_list) ∧
  val_size self' = Some (vsteps * batch_size self) ∧
  val_steps self' = Some vsteps ∧
  epoch_steps self' = Some (length data_list - vsteps) ∧
  epoch_size self' = Some ((length data_list - vsteps) * batch_size self) ∧
  batch_size self' = batch_size self.
Proof.
  intros Hp Hv H. pose proof (get_files_batch_size_pos _ _ _ _ _ Hv H) as Hb.
  rewrite (get_files_packed_unfold g self env vs Hp Hv Hb) in H. cbn zeta in *.
  destruct (Nat.ltb_spec (vs / batch_size self)
    (length ((λ i, Archive (path_join (dataset self) i)) <$> os_listdir env)))
    as [Hlt|]; [|done].
  destruct (resolve_steps _ _ _) as [[nepochs msteps]|]; [|done].
  injection H as <-. cbn. rewrite length_drop. done.
Qed.

(** What a successful [get_files] has assigned, unpacked mode. *)
Lemma get_files_unpacked_inv (g : rng) (self self' : DataBase) (env : discovery)
    (vs : nat) :
  packed self = false → val_size self = Some vs →
  get_files g self env = Ok self' →
  ∃ dl, get_files_origin g self env = Ok dl ∧
    let data_list := Sample <$> dl in
    let vs' := vs / batch_size self * batch_size self in
    let esteps := (length data_list - vs') / batch_size self in
    vs < length data_list ∧
    batch_size self ≤ length data_list - vs' ∧
    val_set self' = Some (take vs' data_list) ∧
    main_set self' = Some (take (esteps * batch_size self) (drop vs' data_list)) ∧
    val_size self' = Some vs' ∧
    val_steps self' = Some (vs / batch_size self) ∧
    epoch_steps self' = Some esteps ∧
    epoch_size self' = Some (esteps * batch_size self) ∧
    batch_size self' = batch_size self.
Proof.
  intros Hp Hv H. pose proof (get_files_batch_size_pos _ _ _ _ _ Hv H) as Hb.
  destruct (get_files_origin g self env) as [dl|] eqn:Ho.
  2:{ unfold get_files in H. by rewrite Hp, Ho in H. }
  exists dl. split; [done|].
  rewrite (get_files_unpacked_unfold g self env vs dl Hp Hv Hb Ho) in H.
  cbn zeta in *. rewrite length_drop in H.
  destruct (Nat.ltb_spec vs (length (Sample <$> dl))) as [Hlt|]; [|done].
  destruct (Nat.leb_spec (batch_size self)
    (length (Sample <$> dl) - vs / batch_size self * batch_size self))
    as [Hle|]; [|done].
  destruct (resolve_steps _ _ _) as [[nepochs msteps]|]; [|done].
  injection H as <-. cbn. done.
Qed.

(** C4, as the code has it: after a successful partitioning with
    [val_size] set, an unpacked dataset has [len(main_set)] and
    [len(val_set)] divisible by [batch_size]; a packed dataset has
    [len(val_set) = val_size // batch_size] archives and the rest of the
    archives in [main_set], and it is the recorded [val_size] and
    [epoch_size] that are multiples of [batch_size]. *)
Theorem partition_divisibility_by_mode (g : rng) (self self' : DataBase)
    (env : discovery) (vs : nat) :
  val_size self = Some vs →
  get_files g self env = Ok self' →
  ∃ main val,
    main_set self' = Some main ∧ val_set self' = Some val ∧
    (packed self = false →
       length main mod batch_size self = 0 ∧ length val mod batch_size self = 0) ∧
    (packed self = true →
       length val = vs / batch_size self ∧
       length main = length (os_listdir env) - vs / batch_size self ∧
       val_size self' = Some (length val * batch_size self) ∧
       epoch_size self' = Some (length main * batch_size self)).
Proof.
  intros Hv H. pose proof (get_files_batch_size_pos _ _ _ _ _ Hv H) as Hb.
  destruct (packed self) eqn:Hp.
  - destruct (get_files_packed_inv g self self' env vs Hp Hv H)
      as (Hlt & -> & -> & -> & _ & _ & -> & _).
    eexists _, _. split; [done|]. split; [done|]. split; [done|]. intros _.
    rewrite length_take, length_drop, length_fmap in *.
    rewrite Nat.min_l by (by apply Nat.lt_le_incl). done.
  - destruct (get_files_unpacked_inv g self self' env vs Hp Hv H)
      as (dl & _ & Hlt & Hle & -> & -> & _).
    eexists _, _. split; [done|]. split; [done|]. split; [|done]. intros _.
    rewrite !length_take, length_drop.
    set (n := length (Sample <$> dl)) in *.
    pose proof (Nat.div_mod_eq vs (batch_size self)).
    pose proof (Nat.div_mod_eq (n - vs / batch_size self * batch_size self)
                  (batch_size self)).
    split.
    + rewrite Nat.min_l by nia. apply Nat.Div0.mod_mul.
    + rewrite Nat.min_l by nia. apply Nat.Div0.mod_mul.
Qed.

Lemma partition_divisibility_by_mode_witness :
  ∃ main val,
    main_set six_files_partitioned
      = Some main ∧
    val_set six_files_partitioned
      = Some val ∧
    (packed (unpacked_db 2 3) = false →
       length main mod batch_size (unpacked_db 2 3) = 0 ∧
       length val mod batch_size (unpacked_db 2 3) = 0) ∧
    (packed (unpacked_db 2 3) = true →
       length val = 3 / batch_size (unpacked_db 2 3) ∧
       length main = length (os_listdir six_files) - 3 / batch_size (unpacked_db 2 3) ∧
       val_size six_files_partitioned
         = Some (length val * batch_size (unpacked_db 2 3)) ∧
       epoch_size six_files_partitioned
         = Some (length main * batch_size (unpacked_db 2 3))).
Proof.
  apply (partition_divisibility_by_mode rng0 (unpacked_db 2 3) _ six_files 3).
  - reflexivity.
  - vm_compute. reflexivity.
Defined.

(** C4, counterexample: a packed dataset of five archives with
    [batch_size = 4] and [val_size = 8] is partitioned into two and three
    archives. *)
Lemma partition_divisibility_counterexample :
  ∃ self', get_files rng0 (packed_db 4 8) five_archives = Ok self' ∧
           ¬ partition_divisible self'.
Proof.
  eexists. split; [vm_compute; reflexivity|].
  intros H. destruct (H _ _ eq_refl eq_refl) as [H1 _]. vm_compute in H1. done.
Qed.

(** C3: after a successful partitioning with [val_size] set, [val_set]
    followed by [main_set] is the list the partitioner started from, so the
    references of the two sets together are the references of that list;
    and when the references of that list are pairwise distinct, as file
    paths of a directory walk are, no reference is in both sets. *)
Theorem partition_complete (g : rng) (self self' : DataBase) (env : discovery)
    (vs : nat) :
  val_size self = Some vs →
  get_files g self env = Ok self' →
  ∃ data_list main val,
    discovered_list g self env = Ok data_list ∧
    main_set self' = Some main ∧ val_set self' = Some val ∧
    val ++ main = data_list ∧
    (∀ r, r ∈ ref_of <$> data_list ↔ r ∈ ref_of <$> val ∨ r ∈ ref_of <$> main) ∧
    (NoDup (ref_of <$> data_list) →
     ∀ r, r ∈ ref_of <$> val → r ∉ ref_of <$> main).
Proof.
  intros Hv H.
  assert (∃ data_list main val,
    discovered_list g self env = Ok data_list ∧
    main_set self' = Some main ∧ val_set self' = Some val ∧
    val ++ main = data_list) as (data_list & main & val & Hd & Hm & Hval & Happ).
  { destruct (packed self) eqn:Hp.
    - destruct (get_files_packed_inv g self self' env vs Hp Hv H)
        as (_ & -> & -> & _).
      eexists _, _, _. unfold discovered_list. rewrite Hp.
      split; [done|]. split; [done|]. split; [done|]. apply take_drop.
    - destruct (get_files_unpacked_inv g self self' env vs Hp Hv H)
        as (dl & Ho & Hlt & Hle & -> & -> & _).
      eexists _, _, _. unfold discovered_list. rewrite Hp, Ho.
      split; [done|]. split; [done|]. split; [done|].
      apply get_files_origin_inv in Ho as (Hb & _ & Hlen).
      rewrite (take_ge (drop _ _)); [apply take_drop|].
      rewrite length_drop, length_fmap, Hlen.
      set (q := length (found env) / batch_size self).
      set (p := vs / batch_size self).
      replace (q * batch_size self - p * batch_size self)
        with ((q - p) * batch_size self) by nia.
      rewrite Nat.div_mul by lia. done. }
  exists data_list, main, val. repeat (split; [done|]). subst data_list. split.
  - intros r. by rewrite fmap_app, elem_of_app.
  - rewrite fmap_app. intros [_ [Hdisj _]]%NoDup_app. exact Hdisj.
Qed.

Lemma partition_complete_witness :
  ∃ data_list main val,
    discovered_list rng0 (unpacked_db 2 3) six_files = Ok data_list ∧
    main_set six_files_partitioned = Some main ∧
    val_set six_files_partitioned = Some val ∧
    val ++ main = data_list ∧
    (∀ r, r ∈ ref_of <$> data_list ↔ r ∈ ref_of <$> val ∨ r ∈ ref_of <$> main) ∧
    (NoDup (ref_of <$> data_list) →
     ∀ r, r ∈ ref_of <$> val → r ∉ ref_of <$> main).
Proof.
  apply (partition_complete rng0 (unpacked_db 2 3) _ six_files 3).
  - reflexivity.
  - vm_compute. reflexivity.
Defined.

(** The list [get_files_origin] returns has pairwise distinct files when
    the directory walk found pairwise distinct files. *)
Lemma get_files_origin_NoDup (g : rng) (self : DataBase) (env : discovery)
    (dl : list entry) :
  get_files_origin g self env = Ok dl →
  NoDup ((found env).*1) → NoDup (ref_of <$> (Sample <$> dl)).
Proof.
  intros (Hb & -> & _)%get_files_origin_inv Hnd.
  rewrite <- list_fmap_compose.
  pose proof (group_shuffle_dropped g (found env) (batch_size self)
    (shuffle self) (group_size self) Hb) as Hperm.
  rewrite <- Hperm, fmap_app in Hnd. by apply NoDup_app in Hnd as [? _].
Qed.

(** C7, as the code has it. [group_shuffle] fails by assertion exactly when
    [batch_size % group_size != 0] and returns otherwise. On an unpacked
    dataset the partitioner fails by assertion when [group_shuffle] does;
    once the list is there it fails by assertion exactly when
    [val_size >= len(data_list)] if [val_size] is set, and exactly when
    [batch_size > len(data_list)] if it is not: with [val_size] set and
    below the length of the list, the remaining list has [batch_size]
    entries at least, since the list holds whole batches. On a packed
    dataset the partitioner fails by assertion exactly when [val_size] is
    set and [val_size // batch_size >= len(data_list)]: [val_size] itself
    and [batch_size] are not compared with the length of the list. *)
Theorem configuration_errors (g : rng) (self : DataBase) (env : discovery) :
  0 < batch_size self → 0 < group_size self →
  (∀ g' (l : list entry) (sh : bool),
     (sh_result (group_shuffle g' l (batch_size self) sh (group_size self))
        = Raise AssertionError ↔ batch_size self mod group_size self ≠ 0) ∧
     (sh_result (group_shuffle g' l (batch_size self) sh (group_size self))
        = Ok () ↔ batch_size self mod group_size self = 0)) ∧
  (packed self = false →
     (batch_size self mod group_size self ≠ 0 →
        get_files g self env = Raise AssertionError) ∧
     (∀ dl, get_files_origin g self env = Ok dl →
        (get_files g self env = Raise AssertionError ↔
           match val_size self with
           | Some vs => length dl ≤ vs
           | None => length dl < batch_size self
           end) ∧
        (∀ vs, val_size self = Some vs → vs < length dl →
           batch_size self ≤ length dl - vs / batch_size self * batch_size self))) ∧
  (packed self = true →
     (get_files g self env = Raise AssertionError ↔
        ∃ vs, val_size self = Some vs ∧
              length (os_listdir env) ≤ vs / batch_size self)).
Proof.
  intros Hb Hg.
  assert (Hgs : ∀ g' (l : list entry) (sh : bool),
     (sh_result (group_shuffle g' l (batch_size self) sh (group_size self))
        = Raise AssertionError ↔ batch_size self mod group_size self ≠ 0) ∧
     (sh_result (group_shuffle g' l (batch_size self) sh (group_size self))
        = Ok () ↔ batch_size self mod group_size self = 0)).
  { intros g' l sh.
    destruct (decide (batch_size self mod group_size self = 0)) as [Hm|Hm].
    - rewrite (group_shuffle_total g' l _ sh _ Hb Hg Hm). split; split; done.
    - destruct (group_shuffle_unfold g' l (batch_size self) sh (group_size self) Hb)
        as [_ [(? & _)|[(_ & _ & _ & _ & ->)|(_ & ? & _)]]]; [lia| |done].
      split; split; done. }
  split; [exact Hgs|]. split.
  - intros Hp. split.
    + intros Hm. unfold get_files, get_files_origin. rewrite Hp.
      destruct (Hgs g (found env) (shuffle self)) as [[_ ->] _]; done.
    + intros dl Ho.
      assert (Hwhole : ∀ vs, vs < length dl →
        batch_size self ≤ length dl - vs / batch_size self * batch_size self).
      { intros vs Hlt. pose proof Ho as Ho'.
        apply get_files_origin_inv in Ho' as (_ & _ & Hlen).
        pose proof (Nat.div_mod_eq vs (batch_size self)) as Hdm.
        pose proof (Nat.mod_upper_bound vs (batch_size self) ltac:(lia)) as Hub.
        set (k := length (found env) / batch_size self) in *.
        set (j := vs / batch_size self) in *.
        assert (j < k) by nia. nia. }
      split; [|intros vs _; apply Hwhole].
      destruct (val_size self) as [vs|] eqn:Hv.
      * rewrite (get_files_unpacked_unfold g self env vs dl Hp Hv Hb Ho). cbn zeta.
        rewrite length_drop, length_fmap.
        destruct (Nat.ltb_spec vs (length dl)) as [Hlt|Hge]; [|done].
        destruct (Nat.leb_spec (batch_size self)
          (length dl - vs / batch_size self * batch_size self)) as [Hle|Hgt].
        2:{ specialize (Hwhole vs Hlt). lia. }
        pose proof (resolve_steps_no_assert
          ((length dl - vs / batch_size self * batch_size self) / batch_size self)
          (num_epochs self) (max_steps self)) as Hr.
        destruct (resolve_steps _ _ _) as [[nepochs msteps]|e].
        -- split; [done|lia].
        -- split; [congruence|lia].
      * unfold get_files. rewrite Hp, Ho, Hv. cbn [mbind result_bind].
        rewrite length_fmap.
        destruct (Nat.leb_spec (batch_size self) (length dl)) as [Hle|Hgt].
        2:{ done. }
        cbn [py_assert mbind result_bind]. unfold floordiv.
        destruct (Nat.eqb_spec (batch_size self) 0) as [|_]; [lia|].
        cbn [mbind result_bind].
        pose proof (resolve_steps_no_assert (length dl / batch_size self)
          (num_epochs self) (max_steps self)) as Hr.
        destruct (resolve_steps _ _ _) as [[nepochs msteps]|e]; cbn.
        -- split; [done|lia].
        -- split; [congruence|lia].
  - intros Hp. destruct (val_size self) as [vs|] eqn:Hv.
    + rewrite (get_files_packed_unfold g self env vs Hp Hv Hb). cbn zeta.
      rewrite length_drop, length_fmap.
      destruct (Nat.ltb_spec (vs / batch_size self) (length (os_listdir env)))
        as [Hlt|Hge].
      * pose proof (resolve_steps_no_assert
          (length (os_listdir env) - vs / batch_size self)
          (num_epochs self) (max_steps self)) as Hr.
        destruct (resolve_steps _ _ _) as [[nepochs msteps]|e];
          (split; [congruence|intros (vs' & [= <-] & ?); lia]).
      * split; [intros _; by exists vs|done].
    + unfold get_files, get_files_packed. rewrite Hp, Hv. cbn [mbind result_bind].
      pose proof (resolve_steps_no_assert
        (length ((λ i, Archive (path_join (dataset self) i)) <$> os_listdir env))
        (num_epochs self) (max_steps self)) as Hr.
      destruct (resolve_steps _ _ _) as [[nepochs msteps]|e]; cbn.
      * split; [done|by intros (? & ? & _)].
      * split; [congruence|by intros (? & ? & _)].
Qed.

Lemma configuration_errors_witness :
  (∀ g' (l : list entry) (sh : bool),
     (sh_result (group_shuffle g' l 5 sh 4) = Raise AssertionError ↔ 5 mod 4 ≠ 0) ∧
     (sh_result (group_shuffle g' l 5 sh 4) = Ok () ↔ 5 mod 4 = 0)) ∧
  (packed (packed_db 5 10) = false →
     (5 mod 4 ≠ 0 →
        get_files rng0 (packed_db 5 10) three_archives = Raise AssertionError) ∧
     (∀ dl, get_files_origin rng0 (packed_db 5 10) three_archives = Ok dl →
        (get_files rng0 (packed_db 5 10) three_archives = Raise AssertionError ↔
           match val_size (packed_db 5 10) with
           | Some vs => length dl ≤ vs
           | None => length dl < 5
           end) ∧
        (∀ vs, val_size (packed_db 5 10) = Some vs → vs < length dl →
           5 ≤ length dl - vs / 5 * 5))) ∧
  (packed (packed_db 5 10) = true →
     (get_files rng0 (packed_db 5 10) three_archives = Raise AssertionError ↔
        ∃ vs, val_size (packed_db 5 10) = Some vs ∧
              length (os_listdir three_archives) ≤ vs / 5)).
Proof.
  apply (configuration_errors rng0 (packed_db 5 10) three_archives).
  - cbn. lia.
  - cbn. lia.
Defined.

(** C7, counterexample: a packed dataset of three archives with
    [batch_size = 5] and [val_size = 10] is partitioned without any
    assertion, although [val_size] exceeds the length of the list. *)
Lemma configuration_errors_counterexample :
  ¬ val_size_checked rng0 (packed_db 5 10) three_archives.
Proof.
  intros H. specialize (H 10 _ eq_refl eq_refl). vm_compute in H.
  assert (Hf : @Ok DataBase
    (MkDataBase "data" 5 true false 4 64 (Some 1) (Some 1) (Some 10) (Some 2)
       (Some [Archive "data/0.npz"; Archive "data/1.npz"]) (Some 1) (Some 5)
       (Some [Archive "data/2.npz"])) = Raise AssertionError); [|done].
  apply H. repeat constructor.
Qed.

(** ** The generator *)

Lemma drain_spec (fuel prefetch : nat) (futures yielded : list task) :
  let out := drain fuel prefetch futures yielded in
  out.1.2 ++ out.1.1 = yielded ++ futures ∧
  (0 < prefetch → out.2 = Ok ()).
Proof.
  revert futures yielded. induction fuel as [|fuel IH]; intros futures yielded;
    [by cbn|].
  cbn [drain]. destruct (Nat.leb_spec prefetch (length futures)) as [Hle|]; [|by cbn].
  destruct futures as [|f futures].
  - cbn. split; [done|]. cbn in Hle. lia.
  - destruct (IH futures (yielded ++ [f])) as [H1 H2]. split; [|done].
    by rewrite H1, <- app_assoc.
Qed.

(** The fuel [step_body] gives the loop is enough: when the loop ends
    without raising, fewer than [prefetch] futures are in flight. *)
Lemma drain_exit (fuel prefetch : nat) (futures yielded : list task) :
  length futures < fuel →
  let out := drain fuel prefetch futures yielded in
  out.2 = Ok () → length out.1.1 < prefetch.
Proof.
  revert futures yielded. induction fuel as [|fuel IH]; intros futures yielded Hf;
    [lia|].
  cbn [drain]. destruct (Nat.leb_spec prefetch (length futures)) as [Hle|Hlt];
    [|by cbn].
  destruct futures as [|f futures]; [done|].
  apply IH. cbn in Hf. lia.
Qed.

Lemma step_body_spec (self : DataBase) (epoch step : nat) (st : gen_state) :
  let out := step_body self epoch step st in
  let t := Task epoch step (g_dataset_ st)
             (window_of self (g_heap st !!! g_dataset_ st) step) in
  g_heap out.1 = g_heap st ∧ g_rng out.1 = g_rng st ∧
  g_dataset_ out.1 = g_dataset_ st ∧
  g_submitted out.1 = g_submitted st ++ [t] ∧
  g_yielded out.1 ++ g_futures out.1 = (g_yielded st ++ g_futures st) ++ [t] ∧
  (0 < prefetch self → out.2 = Ok ()).
Proof.
  unfold step_body. cbn zeta.
  pose proof (drain_spec
    (S (length (g_futures st ++
        [Task epoch step (g_dataset_ st)
           (py_slice (g_heap st !!! g_dataset_ st) (step * batch_size self)
              (length (g_heap st !!! g_dataset_ st)
                 `min` (step * batch_size self + batch_size self)))])))
    (prefetch self)
    (g_futures st ++
        [Task epoch step (g_dataset_ st)
           (py_slice (g_heap st !!! g_dataset_ st) (step * batch_size self)
              (length (g_heap st !!! g_dataset_ st)
                 `min` (step * batch_size self + batch_size self)))])
    (g_yielded st)) as [H1 H2].
  destruct (drain _ _ _ _) as [[futures' yielded'] r]. cbn in *.
  repeat split; try done. by rewrite H1, app_assoc.
Qed.

(** The steps of one epoch: the heap, the random source and [_dataset] are
    not touched; the tasks of an initial segment of the steps are appended,
    of all steps when [prefetch] is positive. *)
Lemma steps_loop_spec (self : DataBase) (epoch : nat) (steps : list nat)
    (st : gen_state) :
  let out := steps_loop self epoch steps st in
  g_heap out.1 = g_heap st ∧ g_rng out.1 = g_rng st ∧
  g_dataset_ out.1 = g_dataset_ st ∧
  (∃ ran, ran `prefix_of` steps ∧
     (0 < prefetch self → ran = steps ∧ out.2 = Ok ()) ∧
     g_submitted out.1 = g_submitted st ++
       ((λ step, Task epoch step (g_dataset_ st)
                   (window_of self (g_heap st !!! g_dataset_ st) step)) <$> ran) ∧
     g_yielded out.1 ++ g_futures out.1 = (g_yielded st ++ g_futures st) ++
       ((λ step, Task epoch step (g_dataset_ st)
                   (window_of self (g_heap st !!! g_dataset_ st) step)) <$> ran)).
Proof.
  revert st. induction steps as [|step steps IH]; intros st.
  { cbn. repeat split; try done. exists []. by rewrite !app_nil_r. }
  cbn [steps_loop].
  pose proof (step_body_spec self epoch step st) as (Hh & Hg & Hd & Hs & Hq & Hr).
  destruct (step_body self epoch step st) as [st' [[]|e]]; cbn in Hh, Hg, Hd, Hs, Hq, Hr.
  - destruct (IH st') as (Hh' & Hg' & Hd' & ran & Hpre & Hall & Hs' & Hq').
    rewrite Hh', Hg', Hd', Hh, Hg, Hd. repeat split; try done.
    exists (step :: ran). split; [by apply prefix_cons|]. split.
    + intros Hp. destruct (Hall Hp) as [-> ?]. done.
    + rewrite Hs', Hq', Hs, Hq, Hh, Hd, fmap_cons. cbn.
      by rewrite <- !app_assoc.
  - cbn. repeat split; try done. exists [step].
    split; [by apply prefix_cons, prefix_nil|]. split.
    + intros Hp. by specialize (Hr Hp).
    + by rewrite Hs, Hq.
Qed.

Lemma reshuffle_spec (self : DataBase) (dataset : nat) (shuffle : bool)
    (st : gen_state) :
  let out := reshuffle self dataset shuffle st in
  let l := fresh (dom (g_heap st)) in
  g_heap st !! l = None ∧
  g_dataset_ out.1 = l ∧
  g_heap out.1 = <[l := sh_dataset (group_shuffle (g_rng st) (g_heap st !!! dataset)
                         (batch_size self) shuffle (group_size self))]> (g_heap st) ∧
  g_submitted out.1 = g_submitted st ∧
  g_yielded out.1 = g_yielded st ∧ g_futures out.1 = g_futures st.
Proof.
  unfold reshuffle, list_copy, group_shuffle_at. cbn.
  rewrite lookup_total_insert_eq, insert_insert_eq.
  repeat split; try done. apply not_elem_of_dom, is_fresh.
Qed.

(** One epoch appends tasks of that epoch only and keeps the order of the
    queue; epoch 0 leaves the heap alone and, with a positive [prefetch],
    submits every step from [start] to the end of the epoch. *)
Lemma epoch_body_spec (self : DataBase) (dataset epoch_steps max_steps start : nat)
    (shuffle : bool) (epoch : nat) (st : gen_state) :
  let out := epoch_body self dataset epoch_steps max_steps start shuffle epoch st in
  ∃ extra,
    g_submitted out.1 = g_submitted st ++ extra ∧
    g_yielded out.1 ++ g_futures out.1 = (g_yielded st ++ g_futures st) ++ extra ∧
    (∀ t, t ∈ extra → t_epoch t = epoch) ∧
    (epoch = 0 →
       g_heap out.1 = g_heap st ∧ g_dataset_ out.1 = g_dataset_ st ∧
       (0 < prefetch self →
          out.2 = Ok () ∧
          extra = (λ step, Task 0 step (g_dataset_ st)
                             (window_of self (g_heap st !!! g_dataset_ st) step))
                  <$> seq start (epoch_steps `min` max_steps - start))).
Proof.
  unfold epoch_body. cbn zeta. destruct epoch as [|e].
  - cbn [Nat.ltb Nat.leb]. rewrite Nat.mul_0_r, !Nat.sub_0_r.
    pose proof (steps_loop_spec self 0
      (seq start (epoch_steps `min` max_steps - start)) st)
      as (Hh & Hg & Hd & ran & Hpre & Hall & Hs & Hq).
    exists ((λ step, Task 0 step (g_dataset_ st)
               (window_of self (g_heap st !!! g_dataset_ st) step)) <$> ran).
    repeat split; try done.
    + intros t (step & -> & _)%list_elem_of_fmap. done.
    + by apply Hall.
    + destruct (Hall H0) as [-> _]. done.
  - replace (0 <? S e) with true by done.
    pose proof (reshuffle_spec self dataset shuffle st)
      as (Hfresh & Hd & Hh & Hs & Hy & Hf).
    destruct (reshuffle self dataset shuffle st) as [st1 [[]|err]];
      cbn [fst snd] in *.
    + pose proof (steps_loop_spec self (S e)
        (seq (start - epoch_steps * S e)
           (epoch_steps `min` (max_steps - epoch_steps * S e)
              - (start - epoch_steps * S e))) st1)
        as (_ & _ & _ & ran & _ & _ & Hs' & Hq').
      eexists. rewrite Hs', Hq', Hs, Hy, Hf. repeat split; try done.
      intros t (step & -> & _)%list_elem_of_fmap. done.
    + exists []. rewrite !app_nil_r, Hs, Hy, Hf. repeat split; try done.
      by intros t ?%elem_of_nil.
Qed.

Lemma epochs_loop_spec (self : DataBase) (dataset epoch_steps max_steps start : nat)
    (shuffle : bool) (epochs : list nat) (st : gen_state) :
  let out := epochs_loop self dataset epoch_steps max_steps start shuffle epochs st in
  ∃ extra,
    g_submitted out.1 = g_submitted st ++ extra ∧
    g_yielded out.1 ++ g_futures out.1 = (g_yielded st ++ g_futures st) ++ extra ∧
    (∀ t, t ∈ extra → t_epoch t ∈ epochs).
Proof.
  revert st. induction epochs as [|e epochs IH]; intros st.
  { cbn. exists []. rewrite !app_nil_r. repeat split; try done.
    by intros t ?%elem_of_nil. }
  cbn [epochs_loop].
  pose proof (epoch_body_spec self dataset epoch_steps max_steps start shuffle e st)
    as (extra & Hs & Hq & He & _).
  destruct (epoch_body _ _ _ _ _ _ _ _) as [st' [[]|err]]; cbn [fst snd] in *.
  - destruct (IH st') as (extra' & Hs' & Hq' & He').
    exists (extra ++ extra'). rewrite Hs', Hq', Hs, Hq, !app_assoc.
    repeat split; try done.
    intros t [Ht|Ht]%elem_of_app; [rewrite (He _ Ht); left|right; by apply He'].
  - exists extra. repeat split; try done. intros t Ht. rewrite (He _ Ht). left.
Qed.

(** The order of delivery: a run that ends normally has yielded the
    batches of all submitted windows, in the order of submission. *)
Lemma gen_batches_origin_fifo (self : DataBase) (σ : gmap nat (list entry))
    (g : rng) (dataset epoch_steps num_epochs start : nat) (shuffle : bool) :
  let run := gen_batches_origin self σ g dataset epoch_steps num_epochs start shuffle in
  run.2 = Ok () → g_yielded run.1 = g_submitted run.1 ∧ g_futures run.1 = [].
Proof.
  unfold gen_batches_origin. cbn zeta.
  destruct (floordiv start epoch_steps) as [first|]; [|done].
  pose proof (epochs_loop_spec self dataset epoch_steps (epoch_steps * num_epochs)
    start shuffle (seq first (num_epochs - first)) (GenState σ g dataset [] [] []))
    as (extra & Hs & Hq & _).
  destruct (epochs_loop _ _ _ _ _ _ _ _) as [st [[]|e]]; [|done].
  cbn in *. intros _. by rewrite Hs, Hq.
Qed.

(** The windows a run started at [k < epoch_steps] submits: those of the
    steps [k, k + 1, ...] of epoch 0, cut from the caller's list, followed
    by tasks of later epochs. *)
Lemma gen_batches_origin_epoch0 (self : DataBase) (σ : gmap nat (list entry))
    (g : rng) (dataset epoch_steps num_epochs k : nat) (shuffle : bool) :
  0 < prefetch self → k < epoch_steps →
  let run := gen_batches_origin self σ g dataset epoch_steps num_epochs k shuffle in
  ∃ extra,
    g_submitted run.1 =
      ((λ step, Task 0 step dataset (window_of self (σ !!! dataset) step))
         <$> seq k (epoch_steps `min` (epoch_steps * num_epochs) - k)) ++ extra ∧
    (∀ t, t ∈ extra → 0 < t_epoch t).
Proof.
  intros Hp Hk. unfold gen_batches_origin, floordiv. cbn zeta.
  destruct (Nat.eqb_spec epoch_steps 0) as [|Hes]; [lia|].
  rewrite Nat.div_small, Nat.sub_0_r by done.
  destruct num_epochs as [|n].
  { cbn. exists []. rewrite Nat.mul_0_r, Nat.min_0_r. split; [done|].
    by intros t ?%elem_of_nil. }
  cbn [seq epochs_loop].
  pose proof (epoch_body_spec self dataset epoch_steps (epoch_steps * S n) k shuffle
    0 (GenState σ g dataset [] [] [])) as (extra0 & Hs0 & _ & _ & H0).
  destruct (H0 eq_refl) as (Hh0 & Hd0 & Hall). destruct (Hall Hp) as [Hr0 ->].
  clear H0 Hall.
  destruct (epoch_body _ _ _ _ _ _ _ _) as [st1 r1]. cbn [fst snd] in *. subst r1.
  pose proof (epochs_loop_spec self dataset epoch_steps (epoch_steps * S n) k shuffle
    (seq 1 n) st1) as (extra & Hs & _ & He).
  exists extra. split.
  - destruct (epochs_loop _ _ _ _ _ _ _ _) as [st [[]|e]]; cbn [fst snd] in *;
      by rewrite Hs, Hs0.
  - intros t Ht. apply He, elem_of_seq in Ht. lia.
Qed.

Lemma epoch0_all (ts : list task) :
  (∀ t, t ∈ ts → t_epoch t = 0) → epoch0 ts = ts.
Proof.
  unfold epoch0. induction ts as [|t ts IH]; intros H; [done|].
  rewrite filter_cons_True by (apply H; left).
  f_equal. apply IH. intros t' Ht'. apply H. by right.
Qed.

Lemma epoch0_none (ts : list task) :
  (∀ t, t ∈ ts → 0 < t_epoch t) → epoch0 ts = [].
Proof.
  unfold epoch0. induction ts as [|t ts IH]; intros H; [done|].
  rewrite filter_cons_False by (specialize (H t ltac:(left)); lia).
  apply IH. intros t' Ht'. apply H. by right.
Qed.

Lemma epoch0_app_later (front extra : list task) :
  (∀ t, t ∈ front → t_epoch t = 0) → (∀ t, t ∈ extra → 0 < t_epoch t) →
  epoch0 (front ++ extra) = front.
Proof.
  intros Hf He. unfold epoch0. rewrite filter_app.
  fold (epoch0 front) (epoch0 extra).
  by rewrite epoch0_all, epoch0_none, app_nil_r.
Qed.

(** C8: with a positive [prefetch], for [k < epoch_steps] the windows of
    epoch 0 selected by the generator started at step [k] are those
    selected by the generator started at step 0 after its first [k] windows
    are discarded, whatever the random source of either run does; and a run
    that ends normally yields the batches of its windows in that order. *)
Theorem resume_equivalence_epoch0 (self : DataBase) (σ : gmap nat (list entry))
    (g g' : rng) (dataset epoch_steps num_epochs k : nat) (shuffle : bool) :
  0 < prefetch self → k < epoch_steps →
  let run_k := gen_batches_origin self σ g dataset epoch_steps num_epochs k shuffle in
  let run_0 := gen_batches_origin self σ g' dataset epoch_steps num_epochs 0 shuffle in
  epoch0 (g_submitted run_k.1) = epoch0 (drop k (g_submitted run_0.1)) ∧
  (run_k.2 = Ok () → g_yielded run_k.1 = g_submitted run_k.1) ∧
  (run_0.2 = Ok () → g_yielded run_0.1 = g_submitted run_0.1).
Proof.
  intros Hp Hk run_k run_0. split; [|split].
  - subst run_k run_0.
    destruct (gen_batches_origin_epoch0 self σ g dataset epoch_steps num_epochs k
      shuffle Hp Hk) as (extra_k & -> & Hek).
    destruct (gen_batches_origin_epoch0 self σ g' dataset epoch_steps num_epochs 0
      shuffle Hp ltac:(lia)) as (extra_0 & -> & He0).
    set (n := epoch_steps `min` (epoch_steps * num_epochs)).
    set (mk := λ step, Task 0 step dataset (window_of self (σ !!! dataset) step)).
    rewrite Nat.sub_0_r.
    assert (Hfront : ∀ (steps : list nat) t, t ∈ mk <$> steps → t_epoch t = 0).
    { intros steps t (step & -> & _)%list_elem_of_fmap. done. }
    rewrite epoch0_app_later by eauto.
    destruct (decide (k ≤ n)) as [Hle|Hgt].
    + rewrite drop_app_le by (rewrite length_fmap, length_seq; lia).
      rewrite <- fmap_drop, epoch0_app_later by eauto.
      f_equal. replace n with (k + (n - k)) at 2 by lia.
      by rewrite seq_app, drop_app_length' by (by rewrite length_seq).
    + replace (n - k) with 0 by lia. cbn [seq fmap list_fmap].
      rewrite drop_app_ge by (rewrite length_fmap, length_seq; lia).
      rewrite epoch0_none; [done|].
      intros t Ht. apply list_elem_of_lookup_1 in Ht as [i Hi]. apply He0.
      rewrite lookup_drop in Hi. by eapply list_elem_of_lookup_2.
  - intros Hr. by apply gen_batches_origin_fifo.
  - intros Hr. by apply gen_batches_origin_fifo.
Qed.

Lemma resume_equivalence_epoch0_witness :
  let run_k := gen_batches_origin gen_db caller_heap rng0 0 3 2 1 true in
  let run_0 := gen_batches_origin gen_db caller_heap rng0 0 3 2 0 true in
  epoch0 (g_submitted run_k.1) = epoch0 (drop 1 (g_submitted run_0.1)) ∧
  (run_k.2 = Ok () → g_yielded run_k.1 = g_submitted run_k.1) ∧
  (run_0.2 = Ok () → g_yielded run_0.1 = g_submitted run_0.1).
Proof.
  apply (resume_equivalence_epoch0 gen_db caller_heap rng0 rng0 0 3 2 1 true).
  - cbn. lia.
  - lia.
Defined.

Lemma task_source_ok_mono (self : DataBase) (σ : gmap nat (list entry))
    (dataset : nat) (l : list entry) (shuffle : bool)
    (h h' : gmap nat (list entry)) (t : task) :
  h ⊆ h' → task_source_ok self σ dataset l shuffle h t →
  task_source_ok self σ dataset l shuffle h' t.
Proof.
  intros Hsub. unfold task_source_ok. destruct (decide (t_epoch t = 0)); [done|].
  intros [Hfresh (g' & Hl & Hw)]. split; [done|]. exists g'. split; [|done].
  by eapply lookup_weaken.
Qed.

(** One epoch only adds lists to the heap, and every task it submits has
    its window from the right list. *)
Lemma epoch_body_frame (self : DataBase) (σ : gmap nat (list entry))
    (dataset : nat) (l : list entry) (epoch_steps max_steps start : nat)
    (shuffle : bool) (epoch : nat) (st : gen_state) :
  σ !! dataset = Some l → σ ⊆ g_heap st →
  (epoch = 0 → g_dataset_ st = dataset) →
  (∀ t, t ∈ g_submitted st → task_source_ok self σ dataset l shuffle (g_heap st) t) →
  let out := epoch_body self dataset epoch_steps max_steps start shuffle epoch st in
  g_heap st ⊆ g_heap out.1 ∧
  (∀ t, t ∈ g_submitted out.1 →
        task_source_ok self σ dataset l shuffle (g_heap out.1) t).
Proof.
  intros Hl Hsub Hd Hts.
  assert (Hheap : g_heap st !!! dataset = l).
  { apply lookup_total_correct. by eapply lookup_weaken. }
  unfold epoch_body. cbn zeta. destruct epoch as [|e].
  - cbn [Nat.ltb Nat.leb].
    pose proof (steps_loop_spec self 0
      (seq (start - epoch_steps * 0)
         (epoch_steps `min` (max_steps - epoch_steps * 0) - (start - epoch_steps * 0)))
      st) as (Hh & _ & _ & ran & _ & _ & Hs & _).
    rewrite Hh, Hs. split; [done|].
    intros t [Ht|(step & -> & _)%list_elem_of_fmap]%elem_of_app; [by apply Hts|].
    unfold task_source_ok. cbn. rewrite (Hd eq_refl), Hheap. done.
  - replace (0 <? S e) with true by done.
    pose proof (reshuffle_spec self dataset shuffle st)
      as (Hfresh & Hd1 & Hh1 & Hs1 & _ & _).
    rewrite Hheap in Hh1.
    assert (Hgrow : g_heap st ⊆ g_heap (reshuffle self dataset shuffle st).1).
    { rewrite Hh1. by apply insert_subseteq. }
    destruct (reshuffle self dataset shuffle st) as [st1 [[]|err]];
      cbn [fst snd] in *.
    + pose proof (steps_loop_spec self (S e)
        (seq (start - epoch_steps * S e)
           (epoch_steps `min` (max_steps - epoch_steps * S e)
              - (start - epoch_steps * S e))) st1)
        as (Hh & _ & _ & ran & _ & _ & Hs & _).
      rewrite Hh, Hs. split; [done|].
      intros t [Ht|(step & -> & _)%list_elem_of_fmap]%elem_of_app.
      * eapply task_source_ok_mono; [done|]. apply Hts. by rewrite <- Hs1.
      * unfold task_source_ok. cbn. split.
        -- rewrite Hd1. apply not_elem_of_dom. by eapply lookup_weaken_None.
        -- exists (g_rng st). rewrite Hd1, Hh1.
           by rewrite lookup_total_insert_eq, lookup_insert_eq.
    + split; [done|]. intros t Ht.
      eapply task_source_ok_mono; [done|]. apply Hts. by rewrite <- Hs1.
Qed.

Lemma epochs_loop_frame (self : DataBase) (σ : gmap nat (list entry))
    (dataset : nat) (l : list entry) (epoch_steps max_steps start : nat)
    (shuffle : bool) (first count : nat) (st : gen_state) :
  σ !! dataset = Some l → σ ⊆ g_heap st →
  (first = 0 → g_dataset_ st = dataset) →
  (∀ t, t ∈ g_submitted st → task_source_ok self σ dataset l shuffle (g_heap st) t) →
  let out := epochs_loop self dataset epoch_steps max_steps start shuffle
               (seq first count) st in
  σ ⊆ g_heap out.1 ∧
  (∀ t, t ∈ g_submitted out.1 →
        task_source_ok self σ dataset l shuffle (g_heap out.1) t).
Proof.
  intros Hl. revert first st. induction count as [|count IH];
    intros first st Hsub Hd Hts; [by cbn|].
  cbn [seq epochs_loop].
  pose proof (epoch_body_frame self σ dataset l epoch_steps max_steps start shuffle
    first st Hl Hsub Hd Hts) as [Hgrow Hts'].
  destruct (epoch_body _ _ _ _ _ _ _ _) as [st' [[]|err]]; cbn [fst snd] in *.
  - apply IH; [by etrans|lia|done].
  - split; [by etrans|done].
Qed.

(** C9: the generator never writes to a list that was in the heap when it
    was called, so the caller's list keeps its entries and their order;
    the windows of epoch 0 are cut from the caller's list, and the windows
    of every later epoch are cut from a list at a new location that holds
    what [group_shuffle] made of a copy of the caller's list. *)
Theorem generator_frame (self : DataBase) (σ : gmap nat (list entry)) (g : rng)
    (dataset : nat) (l : list entry) (epoch_steps num_epochs start : nat)
    (shuffle : bool) :
  σ !! dataset = Some l →
  let run := gen_batches_origin self σ g dataset epoch_steps num_epochs start shuffle in
  σ ⊆ g_heap run.1 ∧
  g_heap run.1 !! dataset = Some l ∧
  (∀ t, t ∈ g_submitted run.1 →
        task_source_ok self σ dataset l shuffle (g_heap run.1) t).
Proof.
  intros Hl run.
  assert (σ ⊆ g_heap run.1 ∧
    (∀ t, t ∈ g_submitted run.1 →
        task_source_ok self σ dataset l shuffle (g_heap run.1) t)) as [Hsub Hts].
  { subst run. unfold gen_batches_origin. cbn zeta.
    destruct (floordiv start epoch_steps) as [first|e].
    2:{ cbn. split; [done|]. by intros t ?%elem_of_nil. }
    pose proof (epochs_loop_frame self σ dataset l epoch_steps
      (epoch_steps * num_epochs) start shuffle first (num_epochs - first)
      (GenState σ g dataset [] [] []) Hl) as H.
    cbn in H. specialize (H ltac:(done) ltac:(done)).
    destruct H as [Hsub Hts]; [by intros t ?%elem_of_nil|].
    by destruct (epochs_loop _ _ _ _ _ _ _ _) as [st [[]|e]]. }
  split; [done|]. split; [|done]. by eapply lookup_weaken.
Qed.

Lemma generator_frame_witness :
  let run := gen_batches_origin gen_db caller_heap rng0 0 3 2 1 true in
  caller_heap ⊆ g_heap run.1 ∧
  g_heap run.1 !! 0 = Some repeated_ids ∧
  (∀ t, t ∈ g_submitted run.1 →
        task_source_ok gen_db caller_heap 0 repeated_ids true (g_heap run.1) t).
Proof.
  apply (generator_frame gen_db caller_heap rng0 0 repeated_ids 3 2 1 true).
  reflexivity.
Defined.

(** ** Batch assembly *)

(** C6, at the failing inputs: the normalization divides by [np.max(data)],
    the largest sample, not by the largest magnitude. A clip with samples
    [1/2] and [-1] has peak magnitude [1] and comes back from
    [process_sample] (augmentation switched off) with peak magnitude [2];
    a clip with samples [-1/2] and [-1/4] has peak magnitude [1/2], above
    the threshold, and comes back unscaled. *)
Theorem normalization_uses_largest_sample :
  let config := PPConfig 16000 (1 # 8000) 1 in
  let run signal :=
    process_sample (λ _, 1 # 8000)%Q (decode_as signal) no_offset no_augmentation
      "clip.wav" 7 config in
  (∃ out, run deep_clip = Ok (out, 7) ∧
          (1 # 1000000 < peak_magnitude [deep_clip "clip.wav"])%Q ∧
          (peak_magnitude out == 2)%Q ∧ ¬ (peak_magnitude out == 1)%Q) ∧
  (∃ out, run low_clip = Ok (out, 7) ∧
          (1 # 1000000 < peak_magnitude [low_clip "clip.wav"])%Q ∧
          out = [low_clip "clip.wav"] ∧ ¬ (peak_magnitude out == 1)%Q).
Proof.
  split; eexists; (split; [vm_compute; reflexivity|]); repeat split; try done.
Qed.

(** What the loading loop returns: one array per entry of the window, and
    the labels of the window in order. *)
Lemma load_all_labels get_duration load uniform augment
    (batch_set : list entry) (config : pp_config) inputs labels :
  load_all get_duration load uniform augment batch_set config = Ok (inputs, labels) →
  length inputs = length batch_set ∧ labels = batch_set.*2.
Proof.
  revert inputs labels. induction batch_set as [|[file label] rest IH];
    intros inputs labels H.
  - cbn in H. by injection H as <- <-.
  - cbn [load_all] in H.
    destruct (process_sample _ _ _ _ file label config) as [[i l]|] eqn:Hp; [|done].
    cbn [mbind result_bind] in H.
    destruct (load_all _ _ _ _ rest config) as [[ins labs]|]; [|done].
    cbn in H. injection H as <- <-.
    destruct (IH _ _ eq_refl) as [Hlen ->]. cbn. rewrite Hlen.
    unfold process_sample in Hp.
    destruct (load _ _ _ _) as [[data rate]|]; [|done]. cbn [mbind result_bind] in Hp.
    destruct (normalize _); [|done]. cbn in Hp. by injection Hp as _ <-.
Qed.

Lemma np_pad_all_0 (a : list (list Q)) : np_pad_all a 0 = a.
Proof.
  unfold np_pad_all, np_pad_last. cbn. rewrite app_nil_r.
  induction a as [|row a IH]; [done|]. cbn. by rewrite app_nil_r, IH.
Qed.

Lemma py_max_const (n : nat) (l : list nat) :
  l ≠ [] → Forall (λ x, x = n) l → py_max l = Ok n.
Proof.
  destruct l as [|x l]; [done|]. intros _ [-> Hl]%Forall_cons. cbn. f_equal.
  induction Hl as [|y l -> _ IH]; [done|]. cbn. by rewrite Nat.max_id.
Qed.

Lemma pad_uniform_id (n : nat) (inputs : list (list (list Q))) :
  Forall (λ a : list (list Q), ∃ row, a = [row] ∧ length row = n) inputs →
  (λ i, np_pad_all i (n - last_dim i)) <$> inputs = inputs.
Proof.
  induction 1 as [|a l (row & -> & Hrow) _ IH]; [done|].
  cbn [fmap list_fmap]. unfold last_dim at 1. cbn [hd].
  by rewrite Hrow, Nat.sub_diag, np_pad_all_0, IH.
Qed.

(** Where the output contract holds: when every sample of a non-empty
    window comes back as one channel of the same length [n], the batch has
    shape [[batch_size, 1, 1, n]] and carries the labels of the window. *)
Lemma extract_batch_uniform get_duration load uniform augment
    (batch_set : list entry) (config : pp_config) inputs labels (n : nat) :
  load_all get_duration load uniform augment batch_set config = Ok (inputs, labels) →
  batch_set ≠ [] →
  Forall (λ a : list (list Q), ∃ row, a = [row] ∧ length row = n) inputs →
  ∃ x, extract_batch get_duration load uniform augment batch_set config
         = Ok (x, batch_set.*2) ∧
       shape4 x = (length batch_set, 1, 1, n).
Proof.
  intros Hload Hne Hall. destruct (load_all_labels _ _ _ _ _ _ _ _ Hload) as [Hlen ->].
  unfold extract_batch. rewrite Hload. cbn [mbind result_bind].
  assert (Hin : inputs ≠ []) by (destruct inputs, batch_set; done).
  assert (Hpad : (if Qle_bool (pp_duration config) 0
                  then max_samples ← py_max (last_dim <$> inputs);
                       Ok ((λ i, np_pad_all i (max_samples - last_dim i)) <$> inputs)
                  else Ok inputs) = Ok inputs).
  { destruct (Qle_bool _ _); [|done].
    rewrite (py_max_const n).
    - cbn [mbind result_bind]. f_equal. by apply pad_uniform_id.
    - by destruct inputs.
    - apply Forall_fmap. eapply Forall_impl; [done|].
      intros a (row & -> & Hrow). done. }
  rewrite Hpad. cbn [mbind result_bind].
  destruct inputs as [|a rest]; [done|].
  apply Forall_cons in Hall as [(row & -> & Hrow) Hrest].
  assert (Hstack : np_stack ([row] :: rest) = Ok ([row] :: rest)).
  { unfold np_stack.
    assert (forallb (λ b : list (list Q), bool_decide (shape2 b = shape2 [row])) rest
            = true) as ->; [|done].
    apply forallb_forall. intros b Hb%list_elem_of_In.
    rewrite Forall_forall in Hrest. destruct (Hrest b Hb) as (row' & -> & Hrow').
    apply bool_decide_eq_true. unfold shape2. cbn. congruence. }
  rewrite Hstack. cbn [mbind result_bind]. eexists. split; [done|].
  unfold shape4. cbn. rewrite length_fmap. cbn in Hlen. by rewrite <- Hlen, Hrow.
Qed.

(** C5, at the failing inputs. In natural-length mode ([pp_duration = 0])
    the slice duration handed to the decoder is [0.0]: no sample is read,
    [np.max] of the empty array raises [ValueError] in [process_sample],
    and [extract_batch] raises it for the window instead of yielding a
    batch. Where the lengths of the samples of a window do differ (a
    negative [pp_duration] with [pp_rate = 0], which reads every file at
    its native rate: two and three samples here), the batch-level
    [np.pad] is given one [(before, after)] pair, pads the channel axis of
    the shorter clip as well, and [np.stack] meets the shapes [(2, 3)] and
    [(1, 3)]: [ValueError] again. *)
Theorem extract_batch_natural_length :
  let window : list entry := [("short.wav", 0); ("long.wav", 1)]%string in
  (let config := PPConfig 16000 0 1 in
   decode_as two_clips "short.wav" (Some 16000%Z) 0 (Qabs (pp_duration config))
     = Ok ([], 16000%Z) ∧
   process_sample (λ _, 1%Q) (decode_as two_clips) no_offset no_augmentation
     "short.wav" 0 config = Raise ValueError ∧
   extract_batch (λ _, 1%Q) (decode_as two_clips) no_offset no_augmentation
     window config = Raise ValueError) ∧
  (let config := PPConfig 0 (-(1 # 1000)) 1 in
   extract_batch (λ _, 1%Q) (decode_clip two_clips native_rates) no_offset
     no_augmentation window config = Raise ValueError ∧
   (∃ short long,
      load_all (λ _, 1%Q) (decode_clip two_clips native_rates) no_offset
        no_augmentation window config = Ok ([short; long], [0; 1]) ∧
      shape2 short = (1, 2) ∧ shape2 long = (1, 3) ∧
      shape2 (np_pad_all short (3 - last_dim short)) = (2, 3) ∧
      shape2 (np_pad_all long (3 - last_dim long)) = (1, 3) ∧
      shape2 (np_pad_last short (3 - last_dim short)) = (1, 3))).
Proof.
  split.
  - repeat split; vm_compute; reflexivity.
  - split; [vm_compute; reflexivity|].
    eexists _, _. split; [vm_compute; reflexivity|]. repeat split.
Qed.

(** * Further properties *)

(** ** More about [group_shuffle] *)

Lemma init_counts_values (ids : list string) (group_size : nat) (ts : list nat)
    (m m' : gmap string nat) :
  init_counts ids group_size ts m = Ok m' →
  (∀ x c, m !! x = Some c → c = group_size - 1) →
  ∀ x c, m' !! x = Some c → c = group_size - 1.
Proof.
  revert m. induction ts as [|t ts IH]; intros m H Hm; cbn [init_counts] in H.
  - by injection H as <-.
  - destruct (getitem ids t) as [id|]; [|done]. cbn [mbind result_bind] in H.
    apply (IH _ H). intros x c. destruct (decide (id = x)) as [->|Hne].
    + rewrite lookup_insert_eq. congruence.
    + rewrite lookup_insert_ne by done. apply Hm.
Qed.

(** A scan in which no counter is positive changes nothing. *)
Lemma scan_loop_no_slots (stop : nat) (ks : list nat) (st : scan_state) :
  (∀ x c, st_counts st !! x = Some c → c = 0) →
  (scan_loop stop ks st).1.1 = st.
Proof.
  intros Hz. induction ks as [|k ks IH]; [done|].
  cbn [scan_loop]. destruct (scan_step stop k st) as [[st' brk]|] eqn:Hs; [|done].
  apply scan_step_inv in Hs as [[-> ->]|(data & dj & c & _ & _ & _ & Hc & Hpos & _)].
  - by destruct (scan_loop stop ks st) as [[st'' vs] r].
  - apply Hz in Hc. lia.
Qed.

(** The scan writes at [j] and at [k >= j] only, and [j] never decreases:
    the entries before the first write position stay where they are. *)
Lemma scan_loop_prefix (stop a n j0 : nat) (st : scan_state) :
  j0 ≤ st_j st → st_j st ≤ a →
  let out := (scan_loop stop (seq a n) st).1.1 in
  take j0 (st_dataset out) = take j0 (st_dataset st) ∧ st_j st ≤ st_j out.
Proof.
  revert a st. induction n as [|n IH]; intros a st Hj0 Hja; [done|].
  cbn [seq scan_loop].
  destruct (scan_step stop a st) as [[st' brk]|] eqn:Hs; [|done].
  assert (take j0 (st_dataset st') = take j0 (st_dataset st) ∧
          st_j st ≤ st_j st' ≤ S a) as [Ht Hj'].
  { apply scan_step_inv in Hs
      as [[-> ->]|(data & dj & c & _ & _ & _ & _ & _ & -> & _ & _ & -> & _)].
    - split; [done|lia].
    - split; [|lia]. rewrite !take_insert_ge by lia. done. }
  destruct brk; [cbn; split; [done|lia]|].
  specialize (IH (S a) st' ltac:(lia) ltac:(lia)).
  destruct (scan_loop stop (seq (S a) n) st') as [[st'' vs] r]. cbn in *.
  destruct IH as [IH1 IH2]. split; [congruence|lia].
Qed.

(** The scan stops as soon as [j] reaches [stop]. *)
Lemma scan_loop_j_bound (stop : nat) (ks : list nat) (st : scan_state) :
  st_j st < stop → st_j (scan_loop stop ks st).1.1 ≤ stop.
Proof.
  revert st. induction ks as [|k ks IH]; intros st Hj; [cbn; lia|].
  cbn [scan_loop]. destruct (scan_step stop k st) as [[st' brk]|] eqn:Hs; [|cbn; lia].
  apply scan_step_inv in Hs
    as [[-> ->]|(data & dj & c & _ & _ & _ & _ & _ & _ & _ & _ & Hj' & ->)].
  - specialize (IH st Hj). by destruct (scan_loop stop ks st) as [[st'' vs] r].
  - destruct (Nat.leb_spec stop (st_j st + 1)) as [Hle|Hlt]; [cbn; lia|].
    specialize (IH st' ltac:(lia)).
    by destruct (scan_loop stop ks st') as [[st'' vs] r].
Qed.

Lemma window_pass_frame (batch_size group_size batch_groups upper i : nat)
    (dataset : list entry) :
  let out := window_pass batch_size group_size batch_groups upper i dataset in
  take (i + batch_groups) out.1.1 = take (i + batch_groups) dataset ∧
  i + batch_groups ≤ sl_j out.1.2 ∧
  (batch_groups < batch_size ∨ group_size = 1 ∧ batch_groups = batch_size →
   sl_j out.1.2 ≤ i + batch_size) ∧
  (group_size = 1 → out.1.1 = dataset).
Proof.
  unfold window_pass. cbn zeta.
  destruct (init_counts _ _ _ _) as [counts|] eqn:Hc.
  2:{ cbn. repeat split; try done. intros [?|[_ ->]]; lia. }
  set (st := ScanState dataset _ counts (i + batch_groups)).
  pose proof (scan_loop_prefix (i + batch_size) (i + batch_groups)
    (upper - (i + batch_groups)) (i + batch_groups) st) as Hpre.
  pose proof (scan_loop_j_bound (i + batch_size)
    (seq (i + batch_groups) (upper - (i + batch_groups))) st) as Hj.
  pose proof (scan_loop_no_slots (i + batch_size)
    (seq (i + batch_groups) (upper - (i + batch_groups))) st) as Hz.
  assert (Hzero : group_size = 1 → ∀ x c, st_counts st !! x = Some c → c = 0).
  { intros -> x c Hx. by apply (init_counts_values _ _ _ _ _ Hc) in Hx. }
  destruct (scan_loop _ _ st) as [[st' vs] r]. cbn [fst snd] in *.
  destruct (Hpre ltac:(cbn; lia) ltac:(cbn; lia)) as [Ht Hge]. cbn in Ht, Hge.
  split; [done|]. split; [done|]. split.
  - intros [Hlt|[Hg ->]]; [apply Hj; cbn; lia|].
    rewrite (Hz (Hzero Hg)). cbn. lia.
  - intros Hg. by rewrite (Hz (Hzero Hg)).
Qed.

(** The scans of the windows that start at [starts] never write to a
    position that lies before the first [G] entries of all of them have
    passed: a window that has been scanned, and the representatives of the
    window being scanned, stay as they are. *)
Theorem windows_loop_keeps_prefix (batch_size group_size batch_groups upper p : nat)
    (starts : list nat) (dataset : list entry) :
  (∀ i, i ∈ starts → p ≤ i + batch_groups) →
  take p (windows_loop batch_size group_size batch_groups upper starts dataset).1.1
    = take p dataset.
Proof.
  revert dataset. induction starts as [|i starts IH]; intros dataset Hp; [done|].
  cbn [windows_loop].
  pose proof (window_pass_frame batch_size group_size batch_groups upper i dataset)
    as (Ht & _).
  destruct (window_pass _ _ _ _ _ _) as [[d' log] r]. cbn [fst snd] in *.
  assert (Hd' : take p d' = take p dataset).
  { specialize (Hp i ltac:(left)).
    rewrite <- (Nat.min_l p (i + batch_groups)) by done.
    by rewrite <- !take_take, Ht. }
  destruct r; [|done].
  specialize (IH d' (λ i' Hi', Hp i' ltac:(by right))).
  destruct (windows_loop _ _ _ _ _ _) as [[d'' tr] r']. cbn in *. congruence.
Qed.

Lemma windows_loop_keeps_prefix_witness :
  take 4 (windows_loop 2 2 1 6 [4] repeated_ids).1.1 = take 4 repeated_ids.
Proof.
  apply (windows_loop_keeps_prefix 2 2 1 6 4 [4] repeated_ids).
  intros i Hi. apply list_elem_of_singleton in Hi. lia.
Defined.

Lemma windows_loop_group_size_one (batch_size batch_groups upper : nat)
    (starts : list nat) (dataset : list entry) :
  (windows_loop batch_size 1 batch_groups upper starts dataset).1.1 = dataset.
Proof.
  revert dataset. induction starts as [|i starts IH]; intros dataset; [done|].
  cbn [windows_loop].
  pose proof (window_pass_frame batch_size 1 batch_groups upper i dataset)
    as (_ & _ & _ & Hid).
  destruct (window_pass _ _ _ _ _ _) as [[d' log] r]. cbn [fst snd] in *.
  rewrite (Hid eq_refl). destruct r; [|done].
  specialize (IH dataset). by destruct (windows_loop _ _ _ _ _ _) as [[d'' tr] r'].
Qed.

(** X1. With [group_size = 1] every counter starts at zero, so no entry is ever
    moved: the call returns, and the list is the (optionally shuffled) input
    trimmed to a multiple of [batch_size]. *)
Theorem group_shuffle_group_size_one (g : rng) (dataset : list entry)
    (batch_size : nat) (shuffle : bool) :
  0 < batch_size →
  let sh := group_shuffle g dataset batch_size shuffle 1 in
  sh_result sh = Ok () ∧
  sh_dataset sh = take (length dataset / batch_size * batch_size)
                    (pre_shuffled g dataset shuffle).
Proof.
  intros Hb sh. split.
  - apply group_shuffle_total; [done|lia|apply Nat.mod_1_r].
  - destruct (group_shuffle_unfold g dataset batch_size shuffle 1 Hb)
      as [_ [(? & _)|[(_ & Hm & _)|(_ & _ & H)]]];
      [lia|by rewrite Nat.mod_1_r in Hm|].
    set (d2 := take _ _) in *.
    pose proof (windows_loop_group_size_one batch_size (batch_size / 1) (length d2)
      (py_range_step (length d2) batch_size) d2) as Hw.
    by rewrite <- H in Hw.
Qed.

Lemma group_shuffle_group_size_one_witness :
  let sh := group_shuffle rng0 repeated_ids 4 false 1 in
  sh_result sh = Ok () ∧
  sh_dataset sh = take (length repeated_ids / 4 * 4) (pre_shuffled rng0 repeated_ids false).
Proof.
  apply (group_shuffle_group_size_one rng0 repeated_ids 4 false). lia.
Defined.

Lemma windows_loop_j_bounds (batch_size group_size batch_groups upper : nat)
    (starts : list nat) (dataset : list entry) (w : scan_log) :
  batch_groups < batch_size ∨ group_size = 1 ∧ batch_groups = batch_size →
  w ∈ (windows_loop batch_size group_size batch_groups upper starts dataset).1.2 →
  sl_start w + batch_groups ≤ sl_j w ≤ sl_start w + batch_size.
Proof.
  intros Hbg. revert dataset. induction starts as [|i starts IH]; intros dataset.
  { cbn. by intros ?%elem_of_nil. }
  cbn [windows_loop].
  pose proof (window_pass_frame batch_size group_size batch_groups upper i dataset)
    as (_ & Hlo & Hhi & _).
  pose proof (window_pass_visits batch_size group_size batch_groups upper i dataset)
    as (Hi & _).
  destruct (window_pass _ _ _ _ _ _) as [[d' log] r]. cbn [fst snd] in *.
  specialize (Hhi Hbg).
  destruct r as [[]|e].
  - specialize (IH d'). destruct (windows_loop _ _ _ _ _ _) as [[d'' tr] r'].
    cbn [fst snd] in *. intros [->|Hin]%elem_of_cons; [lia|by apply IH].
  - cbn. intros [->|?%elem_of_nil]%elem_of_cons; [lia|done].
Qed.

(** A window is never overfilled: in a valid configuration the write
    position [j] of the scan of the window at [i] ends between [i + G] and
    [i + batch_size], so at most [batch_size - G] entries are pulled into
    the window. *)
Theorem group_shuffle_window_not_overfilled (g : rng) (dataset : list entry)
    (batch_size : nat) (shuffle : bool) (group_size : nat) (w : scan_log) :
  0 < group_size →
  w ∈ sh_trace (group_shuffle g dataset batch_size shuffle group_size) →
  sl_start w + batch_size / group_size ≤ sl_j w ≤ sl_start w + batch_size.
Proof.
  intros Hg Hin.
  assert (Hb : 0 < batch_size).
  { destruct batch_size; [|lia]. exfalso. revert Hin. unfold group_shuffle.
    destruct shuffle; [destruct (random_shuffle dataset g)|];
      cbn; by intros ?%elem_of_nil. }
  destruct (group_shuffle_unfold g dataset batch_size shuffle group_size Hb)
    as [_ [(_ & _ & Htr & _)|[(_ & _ & _ & Htr & _)|(_ & _ & H)]]].
  1,2: rewrite Htr in Hin; by apply elem_of_nil in Hin.
  set (d2 := take _ _) in *.
  apply (windows_loop_j_bounds batch_size group_size (batch_size / group_size)
    (length d2) (py_range_step (length d2) batch_size) d2).
  - destruct (decide (group_size = 1)) as [->|Hne].
    + right. split; [done|apply Nat.div_1_r].
    + left. apply Nat.div_lt; lia.
  - by rewrite <- H.
Qed.

Lemma group_shuffle_window_not_overfilled_witness :
  sl_start (ScanLog 0 [1; 2; 3; 4] 2) + 2 / 2 ≤ sl_j (ScanLog 0 [1; 2; 3; 4] 2)
    ≤ sl_start (ScanLog 0 [1; 2; 3; 4] 2) + 2.
Proof.
  apply (group_shuffle_window_not_overfilled rng0 repeated_ids 2 false 2).
  - lia.
  - vm_compute. left.
Defined.

(** X3. A call that fails has already changed the list: with a positive
    [batch_size], a [group_size] of zero raises [ZeroDivisionError] and a
    [group_size] that does not divide [batch_size] raises [AssertionError],
    in both cases after the list was shuffled (if asked) and trimmed to a
    multiple of [batch_size], and before any window is scanned. *)
Theorem group_shuffle_fails_after_trimming (g : rng) (dataset : list entry)
    (batch_size : nat) (shuffle : bool) (group_size : nat) :
  0 < batch_size →
  group_size = 0 ∨ batch_size mod group_size ≠ 0 →
  let sh := group_shuffle g dataset batch_size shuffle group_size in
  sh_result sh = Raise (if decide (group_size = 0) then ZeroDivisionError
                        else AssertionError) ∧
  sh_dataset sh = take (length dataset / batch_size * batch_size)
                    (pre_shuffled g dataset shuffle) ∧
  sh_trace sh = [].
Proof.
  intros Hb Hbad sh. subst sh.
  destruct (group_shuffle_unfold g dataset batch_size shuffle group_size Hb)
    as [_ [(-> & -> & -> & ->)|[(Hg & Hm & -> & -> & ->)|(Hg & Hm & _)]]].
  - done.
  - rewrite decide_False by lia. done.
  - destruct Hbad; [lia|done].
Qed.

Lemma group_shuffle_fails_after_trimming_witness :
  let sh := group_shuffle rng0 repeated_ids 4 false 3 in
  sh_result sh = Raise (if decide (3 = 0) then ZeroDivisionError else AssertionError) ∧
  sh_dataset sh = take (length repeated_ids / 4 * 4) (pre_shuffled rng0 repeated_ids false) ∧
  sh_trace sh = [].
Proof.
  apply (group_shuffle_fails_after_trimming rng0 repeated_ids 4 false 3).
  - lia.
  - right. cbn. lia.
Defined.

Lemma group_shuffle_distinct_files_witness :
  sh_dataset (group_shuffle rng0 four_files 2 true 2) =
    take (length four_files / 2 * 2) (pre_shuffled rng0 four_files true).
Proof.
  apply (group_shuffle_distinct_files rng0 four_files 2 true 2).
  - apply (bool_decide_unpack _). vm_compute. exact I.
  - lia.
Defined.

(** ** More about the partitioner *)

Lemma resolve_steps_Ok (es : nat) (num_epochs max_steps : option nat) (n m : nat) :
  resolve_steps es num_epochs max_steps = Ok (n, m) →
  (max_steps = None ∧ num_epochs = Some n ∧ m = es * n) ∨
  (max_steps = Some m ∧ 0 < es ∧ n = (m + es - 1) / es).
Proof.
  unfold resolve_steps, floordiv. destruct max_steps as [m0|].
  - destruct (Nat.eqb_spec es 0); [done|]. cbn. intros [= <- <-].
    right. split; [done|]. split; [lia|done].
  - destruct num_epochs as [n0|]; [|done]. intros [= <- <-]. by left.
Qed.

(** What a successful [get_files] has recorded about steps and epochs,
    whether or not [val_size] is set. *)
Lemma get_files_steps_inv (g : rng) (self self' : DataBase) (env : discovery) :
  get_files g self env = Ok self' →
  ∃ es n m main,
    resolve_steps es (num_epochs self) (max_steps self) = Ok (n, m) ∧
    epoch_steps self' = Some es ∧ num_epochs self' = Some n ∧
    max_steps self' = Some m ∧
    epoch_size self' = Some (es * batch_size self) ∧
    main_set self' = Some main ∧
    (if packed self then length main = es
     else length main = es * batch_size self ∧ 0 < es ∧ 0 < batch_size self).
Proof.
  unfold get_files. destruct (packed self) eqn:Hp.
  - unfold get_files_packed. intros H.
    destruct (match val_size self with Some _ => _ | None => _ end)
      as [[[[vsize vsteps] vset] data_list]|]; [|done].
    cbn [mbind result_bind] in H.
    destruct (resolve_steps _ _ _) as [[n m]|] eqn:Hr; [|done].
    cbn in H. injection H as <-. cbn. by exists (length data_list), n, m, data_list.
  - intros H. destruct (get_files_origin g self env) as [dl|] eqn:Ho; [|done].
    apply get_files_origin_inv in Ho as (Hb & _ & _).
    cbn [mbind result_bind] in H.
    destruct (match val_size self with Some _ => _ | None => _ end)
      as [[[[vsize vsteps] vset] data_list]|]; [|done].
    cbn [mbind result_bind] in H.
    destruct (Nat.leb_spec (batch_size self) (length data_list)) as [Hle|]; [|done].
    cbn [py_assert mbind result_bind] in H. unfold floordiv in H.
    destruct (Nat.eqb_spec (batch_size self) 0) as [|_]; [lia|].
    cbn [mbind result_bind] in H.
    destruct (resolve_steps _ _ _) as [[n m]|] eqn:Hr; [|done].
    cbn in H. injection H as <-. cbn.
    eexists _, n, m, _. repeat split; try done.
    + unfold py_slice. rewrite Nat.sub_0_r, drop_0, length_take.
      pose proof (Nat.div_mod_eq (length data_list) (batch_size self)). nia.
    + apply Nat.div_str_pos. lia.
Qed.

(** X4. After a successful [get_files] the step counters are consistent:
    [max_steps <= epoch_steps * num_epochs]; when [max_steps] was not
    configured it is [epoch_steps * num_epochs] for the configured
    [num_epochs]; when it was configured it is kept, [epoch_steps] is
    positive, and [num_epochs] is the least number of epochs that covers
    it. [epoch_size] is [epoch_steps * batch_size]. *)
Theorem get_files_step_counters (g : rng) (self self' : DataBase) (env : discovery) :
  get_files g self env = Ok self' →
  ∃ es n m,
    epoch_steps self' = Some es ∧ num_epochs self' = Some n ∧
    max_steps self' = Some m ∧
    epoch_size self' = Some (es * batch_size self) ∧
    m ≤ es * n ∧
    (max_steps self = None → num_epochs self = Some n ∧ m = es * n) ∧
    (∀ m0, max_steps self = Some m0 →
       m = m0 ∧ 0 < es ∧ (0 < m → es * (n - 1) < m)).
Proof.
  intros (es & n & m & main & Hr & Hes & Hn & Hm & Hsz & _)%get_files_steps_inv.
  exists es, n, m. repeat (split; [done|]).
  apply resolve_steps_Ok in Hr as [(Hmax & Hnum & ->)|(Hmax & Hpos & ->)].
  - split; [done|]. split; [done|]. intros m0. by rewrite Hmax.
  - pose proof (Nat.div_mod_eq (m + es - 1) es) as Hdm.
    pose proof (Nat.mod_upper_bound (m + es - 1) es ltac:(lia)) as Hub.
    split; [nia|]. split; [by rewrite Hmax|].
    intros m0. rewrite Hmax. intros [= <-]. split; [done|]. split; [done|].
    intros Hm0. nia.
Qed.

Lemma get_files_step_counters_witness :
  ∃ es n m,
    epoch_steps six_files_partitioned = Some es ∧
    num_epochs six_files_partitioned = Some n ∧
    max_steps six_files_partitioned = Some m ∧
    epoch_size six_files_partitioned = Some (es * batch_size (unpacked_db 2 3)) ∧
    m ≤ es * n ∧
    (max_steps (unpacked_db 2 3) = None →
       num_epochs (unpacked_db 2 3) = Some n ∧ m = es * n) ∧
    (∀ m0, max_steps (unpacked_db 2 3) = Some m0 →
       m = m0 ∧ 0 < es ∧ (0 < m → es * (n - 1) < m)).
Proof.
  apply (get_files_step_counters rng0 (unpacked_db 2 3) _ six_files).
  vm_compute. reflexivity.
Defined.

(** X5. The validation size is rounded down to whole batches: the recorded
    [val_size] is [val_steps * batch_size], it does not exceed the
    configured value and falls short of it by less than [batch_size];
    [val_set] holds [val_size] samples of an unpacked dataset and
    [val_steps] archives of a packed one. *)
Theorem get_files_val_size_rounded (g : rng) (self self' : DataBase)
    (env : discovery) (vs : nat) :
  val_size self = Some vs →
  get_files g self env = Ok self' →
  ∃ v steps val,
    val_size self' = Some v ∧ val_steps self' = Some steps ∧
    val_set self' = Some val ∧
    v = steps * batch_size self ∧ v ≤ vs ∧ vs < v + batch_size self ∧
    length val = (if packed self then steps else v).
Proof.
  intros Hv H. pose proof (get_files_batch_size_pos _ _ _ _ _ Hv H) as Hb.
  pose proof (Nat.div_mod_eq vs (batch_size self)) as Hdm.
  pose proof (Nat.mod_upper_bound vs (batch_size self) ltac:(lia)) as Hub.
  destruct (packed self) eqn:Hp.
  - destruct (get_files_packed_inv g self self' env vs Hp Hv H)
      as (Hlt & -> & _ & -> & -> & _).
    eexists _, _, _. repeat (split; [done|]). split; [nia|]. split; [nia|].
    rewrite length_take. lia.
  - destruct (get_files_unpacked_inv g self self' env vs Hp Hv H)
      as (dl & _ & Hlt & _ & -> & _ & -> & -> & _).
    eexists _, _, _. repeat (split; [done|]). split; [nia|]. split; [nia|].
    rewrite length_take. nia.
Qed.

Lemma get_files_val_size_rounded_witness :
  ∃ v steps val,
    val_size six_files_partitioned = Some v ∧
    val_steps six_files_partitioned = Some steps ∧
    val_set six_files_partitioned = Some val ∧
    v = steps * batch_size (unpacked_db 2 3) ∧ v ≤ 3 ∧
    3 < v + batch_size (unpacked_db 2 3) ∧
    length val = (if packed (unpacked_db 2 3) then steps else v).
Proof.
  apply (get_files_val_size_rounded rng0 (unpacked_db 2 3) _ six_files 3).
  - reflexivity.
  - vm_compute. reflexivity.
Defined.

(** X6. Without [val_size] nothing is held out: [val_size], [val_steps] and
    [val_set] stay as they were, and [main_set] is the whole list the
    partitioner started from. *)
Theorem get_files_without_val_size (g : rng) (self self' : DataBase)
    (env : discovery) :
  val_size self = None →
  get_files g self env = Ok self' →
  ∃ data_list,
    discovered_list g self env = Ok data_list ∧
    main_set self' = Some data_list ∧
    val_size self' = None ∧ val_steps self' = val_steps self ∧
    val_set self' = val_set self.
Proof.
  intros Hv H. unfold get_files, discovered_list in *.
  destruct (packed self) eqn:Hp.
  - unfold get_files_packed in H. rewrite Hv in H. cbn [mbind result_bind] in H.
    destruct (resolve_steps _ _ _) as [[n m]|]; [|done].
    cbn in H. injection H as <-. cbn. eexists. by repeat split.
  - destruct (get_files_origin g self env) as [dl|] eqn:Ho; [|done].
    apply get_files_origin_inv in Ho as (Hb & _ & Hlen).
    rewrite Hv in H. cbn [mbind result_bind] in H.
    destruct (Nat.leb_spec (batch_size self) (length (Sample <$> dl))) as [Hle|];
      [|done].
    cbn [py_assert mbind result_bind] in H. unfold floordiv in H.
    destruct (Nat.eqb_spec (batch_size self) 0) as [|_]; [lia|].
    cbn [mbind result_bind] in H.
    destruct (resolve_steps _ _ _) as [[n m]|]; [|done].
    cbn in H. injection H as <-. cbn. eexists. split; [done|].
    repeat split; try done. f_equal.
    unfold py_slice. rewrite Nat.sub_0_r, drop_0, take_ge; [done|].
    rewrite length_fmap, Hlen, Nat.div_mul by lia. done.
Qed.

Lemma get_files_without_val_size_witness :
  ∃ data_list,
    discovered_list rng0 unpacked_db_no_val six_files = Ok data_list ∧
    main_set six_files_unsplit = Some data_list ∧
    val_size six_files_unsplit = None ∧
    val_steps six_files_unsplit = val_steps unpacked_db_no_val ∧
    val_set six_files_unsplit = val_set unpacked_db_no_val.
Proof.
  apply (get_files_without_val_size rng0 unpacked_db_no_val _ six_files).
  - reflexivity.
  - vm_compute. reflexivity.
Defined.

(** X7. A packed dataset without [val_size] is never checked by assertion and
    [batch_size] is never used as a divisor: the partitioner fails only in
    the bookkeeping, with [TypeError] when neither [num_epochs] nor
    [max_steps] is configured, and with [ZeroDivisionError] when
    [max_steps] is configured and the directory is empty. *)
Theorem get_files_packed_without_val_size (g : rng) (self : DataBase)
    (env : discovery) :
  packed self = true → val_size self = None →
  (get_files g self env = Raise TypeError
     ↔ num_epochs self = None ∧ max_steps self = None) ∧
  (get_files g self env = Raise ZeroDivisionError
     ↔ is_Some (max_steps self) ∧ os_listdir env = []) ∧
  (∀ e, get_files g self env = Raise e → e = TypeError ∨ e = ZeroDivisionError).
Proof.
  intros Hp Hv. unfold get_files, get_files_packed. rewrite Hp, Hv.
  cbn [mbind result_bind]. rewrite length_fmap.
  unfold resolve_steps, floordiv.
  destruct (max_steps self) as [m|], (num_epochs self) as [n|]; cbn.
  - destruct (os_listdir env) as [|a l]; cbn.
    + split; [split; [done|by intros [? _]]|]. split; [by split; [|]; eauto|].
      intros e [= <-]. by right.
    + split; [split; [done|by intros [? _]]|]. split; [|done].
      split; [done|by intros [_ ?]].
  - destruct (os_listdir env) as [|a l]; cbn.
    + split; [split; [done|by intros [_ ?]]|]. split; [by split; [|]; eauto|].
      intros e [= <-]. by right.
    + split; [split; [done|by intros [_ ?]]|]. split; [|done].
      split; [done|by intros [_ ?]].
  - split; [split; [done|by intros [? _]]|]. split; [|done].
    split; [done|]. by intros [[? ?] _].
  - split; [done|]. split; [|intros e [= <-]; by left].
    split; [done|]. by intros [[? ?] _].
Qed.

Lemma get_files_packed_without_val_size_witness :
  (get_files rng0 packed_db_no_val no_archives = Raise TypeError
     ↔ num_epochs packed_db_no_val = None ∧ max_steps packed_db_no_val = None) ∧
  (get_files rng0 packed_db_no_val no_archives = Raise ZeroDivisionError
     ↔ is_Some (max_steps packed_db_no_val) ∧ os_listdir no_archives = []) ∧
  (∀ e, get_files rng0 packed_db_no_val no_archives = Raise e →
        e = TypeError ∨ e = ZeroDivisionError).
Proof.
  apply (get_files_packed_without_val_size rng0 packed_db_no_val no_archives);
    reflexivity.
Defined.

(** ** More about the generator *)

(** Backpressure: one step leaves fewer than [prefetch] futures in flight,
    and so does the whole nest of loops. *)
Lemma step_body_in_flight (self : DataBase) (epoch step : nat) (st : gen_state) :
  length (g_futures st) < prefetch self →
  let out := step_body self epoch step st in
  out.2 = Ok () ∧ length (g_futures out.1) < prefetch self.
Proof.
  intros Hlt. unfold step_body. cbn zeta.
  set (futures := g_futures st ++ [_]).
  pose proof (drain_spec (S (length futures)) (prefetch self) futures (g_yielded st))
    as [_ Hok].
  pose proof (drain_exit (S (length futures)) (prefetch self) futures (g_yielded st)
    ltac:(lia)) as Hex.
  destruct (drain _ _ _ _) as [[futures' yielded'] r]. cbn in *.
  specialize (Hok ltac:(lia)). split; [done|]. by apply Hex.
Qed.

Lemma steps_loop_in_flight (self : DataBase) (epoch : nat) (steps : list nat)
    (st : gen_state) :
  length (g_futures st) < prefetch self →
  length (g_futures (steps_loop self epoch steps st).1) < prefetch self.
Proof.
  revert st. induction steps as [|step steps IH]; intros st Hlt; [done|].
  cbn [steps_loop].
  pose proof (step_body_in_flight self epoch step st Hlt) as [Hok Hlt'].
  destruct (step_body self epoch step st) as [st' r]. cbn in Hok, Hlt'. subst r.
  by apply IH.
Qed.

(** X13. Backpressure: starting with fewer than [prefetch] futures in flight,
    the generator has fewer than [prefetch] futures in flight after every
    epoch, however the epochs end. *)
Theorem epochs_loop_in_flight (self : DataBase)
    (dataset epoch_steps max_steps start : nat) (shuffle : bool)
    (epochs : list nat) (st : gen_state) :
  length (g_futures st) < prefetch self →
  length (g_futures
    (epochs_loop self dataset epoch_steps max_steps start shuffle epochs st).1)
  < prefetch self.
Proof.
  revert st. induction epochs as [|e epochs IH]; intros st Hlt; [done|].
  cbn [epochs_loop].
  assert (Hlt' : length (g_futures
    (epoch_body self dataset epoch_steps max_steps start shuffle e st).1)
    < prefetch self).
  { unfold epoch_body. cbn zeta.
    destruct (0 <? e).
    - pose proof (reshuffle_spec self dataset shuffle st) as (_ & _ & _ & _ & _ & Hf).
      destruct (reshuffle self dataset shuffle st) as [st1 [[]|err]]; cbn in *.
      + apply steps_loop_in_flight. by rewrite Hf.
      + by rewrite Hf.
    - by apply steps_loop_in_flight. }
  destruct (epoch_body _ _ _ _ _ _ _ _) as [st' [[]|err]]; cbn in *; [|done].
  by apply IH.
Qed.

Lemma epochs_loop_in_flight_witness :
  length (g_futures
    (epochs_loop gen_db 0 3 6 1 true [0; 1] (GenState caller_heap rng0 0 [] [] [])).1)
  < prefetch gen_db.
Proof.
  apply (epochs_loop_in_flight gen_db 0 3 6 1 true [0; 1]). cbn. lia.
Defined.

Lemma reshuffle_valid (self : DataBase) (dataset : nat) (l : list entry)
    (shuffle : bool) (st : gen_state) :
  0 < batch_size self → 0 < group_size self →
  batch_size self mod group_size self = 0 →
  g_heap st !! dataset = Some l →
  let out := reshuffle self dataset shuffle st in
  out.2 = Ok () ∧
  g_heap out.1 !! dataset = Some l ∧
  g_heap out.1 !!! g_dataset_ out.1 = shuffled_copy self (g_rng st) l shuffle ∧
  g_rng out.1 = reshuffle_rng self l shuffle (g_rng st) ∧
  g_submitted out.1 = g_submitted st.
Proof.
  intros Hb Hg Hm Hl.
  pose proof (reshuffle_spec self dataset shuffle st) as (Hfresh & Hd & Hh & Hs & _).
  assert (Hne : fresh (dom (g_heap st)) ≠ dataset)
    by (intros Heq; rewrite Heq in Hfresh; congruence).
  assert (Hr : (reshuffle self dataset shuffle st).2 = Ok () ∧
    g_rng (reshuffle self dataset shuffle st).1
      = reshuffle_rng self l shuffle (g_rng st)).
  { unfold reshuffle, list_copy, group_shuffle_at, reshuffle_rng. cbn.
    rewrite lookup_total_insert_eq, (lookup_total_correct _ _ _ Hl).
    split; [|done]. by apply group_shuffle_total. }
  cbn zeta in *. destruct Hr as [Hr1 Hr2].
  rewrite Hh, Hd, (lookup_total_correct _ _ _ Hl) in *.
  repeat split; try done.
  - by rewrite lookup_insert_ne.
  - by rewrite lookup_total_insert_eq.
Qed.

Lemma steps_loop_triples (self : DataBase) (epoch : nat) (steps : list nat)
    (st : gen_state) :
  0 < prefetch self →
  let out := steps_loop self epoch steps st in
  out.2 = Ok () ∧ g_heap out.1 = g_heap st ∧ g_rng out.1 = g_rng st ∧
  task_triple <$> g_submitted out.1 =
    (task_triple <$> g_submitted st) ++
    ((λ s, (epoch, s, window_of self (g_heap st !!! g_dataset_ st) s)) <$> steps).
Proof.
  intros Hp.
  pose proof (steps_loop_spec self epoch steps st)
    as (Hh & Hg & _ & ran & _ & Hall & Hs & _).
  destruct (Hall Hp) as [-> Hok]. cbn zeta. rewrite Hs, fmap_app, <- list_fmap_compose.
  done.
Qed.

(** One epoch in a valid configuration: it ends normally and submits the
    windows of its steps, cut from the caller's list in epoch 0 and from a
    freshly shuffled copy otherwise. *)
Lemma epoch_body_valid (self : DataBase) (dataset : nat) (l : list entry)
    (epoch_steps max_steps start : nat) (shuffle : bool) (e : nat) (st : gen_state) :
  0 < prefetch self → 0 < batch_size self → 0 < group_size self →
  batch_size self mod group_size self = 0 →
  g_heap st !! dataset = Some l → (e = 0 → g_dataset_ st = dataset) →
  let out := epoch_body self dataset epoch_steps max_steps start shuffle e st in
  let c := if e =? 0 then l else shuffled_copy self (g_rng st) l shuffle in
  out.2 = Ok () ∧
  g_heap out.1 !! dataset = Some l ∧
  g_rng out.1 = (if e =? 0 then g_rng st else reshuffle_rng self l shuffle (g_rng st)) ∧
  task_triple <$> g_submitted out.1 =
    (task_triple <$> g_submitted st) ++
    ((λ s, (e, s, window_of self c s))
       <$> seq (start - epoch_steps * e)
             (epoch_steps `min` (max_steps - epoch_steps * e)
                - (start - epoch_steps * e))).
Proof.
  intros Hp Hb Hg Hm Hl Hd. unfold epoch_body. cbn zeta. destruct e as [|e].
  - cbn [Nat.ltb Nat.leb Nat.eqb].
    pose proof (steps_loop_triples self 0
      (seq (start - epoch_steps * 0)
         (epoch_steps `min` (max_steps - epoch_steps * 0) - (start - epoch_steps * 0)))
      st Hp) as (Hok & Hh & Hr & Hs).
    rewrite (Hd eq_refl), (lookup_total_correct _ _ _ Hl) in Hs.
    rewrite Hh. done.
  - replace (0 <? S e) with true by done. cbn [Nat.eqb].
    pose proof (reshuffle_valid self dataset l shuffle st Hb Hg Hm Hl)
      as (Hok1 & Hl1 & Hc1 & Hr1 & Hs1).
    destruct (reshuffle self dataset shuffle st) as [st1 r1]. cbn [fst snd] in *.
    subst r1.
    pose proof (steps_loop_triples self (S e)
      (seq (start - epoch_steps * S e)
         (epoch_steps `min` (max_steps - epoch_steps * S e)
            - (start - epoch_steps * S e)))
      st1 Hp) as (Hok & Hh & Hr & Hs).
    rewrite Hh, Hr, Hs, Hc1, Hs1. done.
Qed.

(** The epochs after epoch 0 in a valid configuration. *)
Lemma epochs_loop_valid (self : DataBase) (dataset : nat) (l : list entry)
    (epoch_steps max_steps start : nat) (shuffle : bool) (a count : nat)
    (st : gen_state) :
  0 < prefetch self → 0 < batch_size self → 0 < group_size self →
  batch_size self mod group_size self = 0 →
  g_heap st !! dataset = Some l → 0 < a →
  let out := epochs_loop self dataset epoch_steps max_steps start shuffle
               (seq a count) st in
  out.2 = Ok () ∧
  task_triple <$> g_submitted out.1 =
    (task_triple <$> g_submitted st) ++
    concat ((λ e,
      (λ s, (e, s,
             window_of self
               (shuffled_copy self
                  (Nat.iter (e - a) (reshuffle_rng self l shuffle) (g_rng st))
                  l shuffle) s))
        <$> seq (start - epoch_steps * e)
              (epoch_steps `min` (max_steps - epoch_steps * e)
                 - (start - epoch_steps * e)))
      <$> seq a count).
Proof.
  intros Hp Hb Hg Hm. revert a st. induction count as [|count IH];
    intros a st Hl Ha.
  { cbn. by rewrite app_nil_r. }
  cbn [seq epochs_loop fmap list_fmap concat].
  pose proof (epoch_body_valid self dataset l epoch_steps max_steps start shuffle a st
    Hp Hb Hg Hm Hl ltac:(lia)) as (Hok & Hl' & Hr & Hs).
  destruct (epoch_body _ _ _ _ _ _ _ _) as [st' r]. cbn [fst snd] in *. subst r.
  destruct a as [|a]; [lia|]. cbn [Nat.eqb] in *.
  destruct (IH (S (S a)) st' Hl' ltac:(lia)) as [Hok' Hs'].
  split; [done|]. rewrite Hs', Hs, Hr, <- app_assoc. f_equal.
  rewrite Nat.sub_diag. cbn [Nat.iter]. f_equal. f_equal.
  apply list_fmap_ext. intros i e [-> Hi]%lookup_seq.
  apply list_fmap_ext. intros _ s _.
  replace (S (S a) + i - S a) with (S (S (S a) + i - S (S a))) by lia.
  by rewrite Nat.iter_succ_r.
Qed.

(** A block of steps of one epoch, read by global step number. *)
Lemma schedule_block {B} (W : nat → nat → B) (es e lo len : nat) :
  lo + len ≤ es →
  (λ s, (e, s, W e s)) <$> seq lo len =
  (λ s, (s / es, s mod es, W (s / es) (s mod es))) <$> seq (es * e + lo) len.
Proof.
  revert lo. induction len as [|len IH]; intros lo Hle; [done|].
  cbn [seq fmap list_fmap]. assert (es ≠ 0) by lia.
  replace ((es * e + lo) / es) with e.
  2:{ apply (Nat.div_unique _ _ _ lo); lia. }
  replace ((es * e + lo) mod es) with lo.
  2:{ apply (Nat.mod_unique _ _ e lo); lia. }
  f_equal. rewrite (IH (S lo)) by lia. by rewrite Nat.add_succ_r.
Qed.

(** The blocks of the epochs [a, a + 1, ...] that start at or after
    [start], laid end to end. *)
Lemma schedule_full_epochs {B} (W : nat → nat → B) (es ms start a count : nat) :
  0 < es → start ≤ es * a → es * (a + count) ≤ ms →
  concat ((λ e, (λ s, (e, s, W e s))
                  <$> seq (start - es * e) (es `min` (ms - es * e) - (start - es * e)))
          <$> seq a count)
  = (λ s, (s / es, s mod es, W (s / es) (s mod es))) <$> seq (es * a) (es * count).
Proof.
  intros Hes. revert a. induction count as [|count IH]; intros a Hst Hms.
  { by rewrite Nat.mul_0_r. }
  cbn [seq fmap list_fmap concat].
  replace (start - es * a) with 0 by lia.
  replace (es `min` (ms - es * a) - 0) with es by lia.
  rewrite (schedule_block W es a 0 es) by lia.
  rewrite IH by lia.
  replace (es * S count) with (es + es * count) by lia.
  rewrite seq_app, fmap_app. repeat f_equal; lia.
Qed.

Lemma schedule_from_start {B} (W : nat → nat → B) (es N start : nat) :
  0 < es → start / es < N →
  concat ((λ e, (λ s, (e, s, W e s))
                  <$> seq (start - es * e)
                        (es `min` (es * N - es * e) - (start - es * e)))
          <$> seq (start / es) (N - start / es))
  = (λ s, (s / es, s mod es, W (s / es) (s mod es))) <$> seq start (es * N - start).
Proof.
  intros Hes Hlt.
  pose proof (Nat.div_mod_eq start es) as Hdm.
  pose proof (Nat.mod_upper_bound start es ltac:(lia)) as Hub.
  set (first := start / es) in *. set (r := start mod es) in *.
  replace (N - first) with (S (N - first - 1)) by lia.
  cbn [seq fmap list_fmap concat].
  replace (start - es * first) with r by lia.
  replace (es `min` (es * N - es * first)) with es by nia.
  rewrite (schedule_block W es first r (es - r)) by lia.
  rewrite (schedule_full_epochs W es (es * N) start (S first) (N - first - 1))
    by (try done; nia).
  rewrite <- fmap_app. f_equal.
  replace (es * N - start) with ((es - r) + es * (N - first - 1)) by nia.
  rewrite seq_app. f_equal; [f_equal; lia|f_equal; nia].
Qed.

(** The windows the generator submits in a valid configuration. *)
Lemma gen_batches_origin_submits (self : DataBase) (σ : gmap nat (list entry))
    (g : rng) (dataset : nat) (l : list entry) (epoch_steps num_epochs start : nat)
    (shuffle : bool) :
  σ !! dataset = Some l →
  0 < prefetch self → 0 < epoch_steps → 0 < batch_size self →
  0 < group_size self → batch_size self mod group_size self = 0 →
  let out := epochs_loop self dataset epoch_steps (epoch_steps * num_epochs) start
               shuffle (seq (start / epoch_steps) (num_epochs - start / epoch_steps))
               (GenState σ g dataset [] [] []) in
  out.2 = Ok () ∧
  task_triple <$> g_submitted out.1
    = schedule self l shuffle g epoch_steps num_epochs start.
Proof.
  intros Hl Hp Hes Hb Hg Hm. cbn zeta.
  set (first := start / epoch_steps).
  set (W := λ e s, window_of self (epoch_list self l shuffle g first e) s).
  destruct (decide (first < num_epochs)) as [Hlt|Hge].
  2:{ replace (num_epochs - first) with 0 by lia. unfold schedule.
      pose proof (Nat.div_mod_eq start epoch_steps).
      replace (epoch_steps * num_epochs - start) with 0 by (fold first in H; nia).
      done. }
  assert (Hsched : schedule self l shuffle g epoch_steps num_epochs start =
    concat ((λ e, (λ s, (e, s, W e s))
                    <$> seq (start - epoch_steps * e)
                          (epoch_steps `min` (epoch_steps * num_epochs - epoch_steps * e)
                             - (start - epoch_steps * e)))
            <$> seq first (num_epochs - first))).
  { symmetry. apply (schedule_from_start W epoch_steps num_epochs start Hes Hlt). }
  rewrite Hsched. clear Hsched. subst W.
  destruct first as [|first'] eqn:Hfirst.
  - replace (num_epochs - 0) with (S (num_epochs - 1)) by lia.
    cbn [seq epochs_loop fmap list_fmap concat].
    pose proof (epoch_body_valid self dataset l epoch_steps
      (epoch_steps * num_epochs) start shuffle 0 (GenState σ g dataset [] [] [])
      Hp Hb Hg Hm Hl ltac:(done)) as (Hok & Hl' & Hr & Hs).
    destruct (epoch_body _ _ _ _ _ _ _ _) as [st' r]. cbn [fst snd] in *. subst r.
    cbn [Nat.eqb] in *.
    pose proof (epochs_loop_valid self dataset l epoch_steps
      (epoch_steps * num_epochs) start shuffle 1 (num_epochs - 1) st'
      Hp Hb Hg Hm Hl' ltac:(lia)) as [Hok' Hs'].
    split; [done|]. rewrite Hs', Hs, Hr. cbn [fmap list_fmap app]. f_equal.
    f_equal. apply list_fmap_ext. intros i e [-> Hi]%lookup_seq.
    apply list_fmap_ext. intros _ s _. done.
  - pose proof (epochs_loop_valid self dataset l epoch_steps
      (epoch_steps * num_epochs) start shuffle (S first') (num_epochs - S first')
      (GenState σ g dataset [] [] []) Hp Hb Hg Hm Hl ltac:(lia)) as [Hok Hs].
    split; [done|]. rewrite Hs. cbn [fmap list_fmap app g_submitted g_rng].
    f_equal. apply list_fmap_ext. intros i e [-> Hi]%lookup_seq.
    apply list_fmap_ext. intros _ s _. unfold epoch_list. cbn [Nat.add Nat.eqb].
    by rewrite Nat.max_l by lia.
Qed.

Lemma window_of_take_drop (self : DataBase) (c : list entry) (s : nat) :
  window_of self c s = take (batch_size self) (drop (s * batch_size self) c).
Proof.
  unfold window_of, py_slice. set (a := s * batch_size self).
  destruct (decide (a + batch_size self ≤ length c)) as [Hle|Hgt].
  - f_equal. lia.
  - rewrite !take_ge; [done| |]; rewrite length_drop; lia.
Qed.

Lemma windows_tile (self : DataBase) (c : list entry) (n : nat) :
  concat (window_of self c <$> seq 0 n) = take (n * batch_size self) c.
Proof.
  induction n as [|n IH]; [done|].
  rewrite seq_S, fmap_app, concat_app, IH. cbn [fmap list_fmap concat Nat.add].
  rewrite app_nil_r, window_of_take_drop, take_take_drop. f_equal. lia.
Qed.

(** X15. Every epoch goes through the whole list once: when the list handed to
    the generator has [epoch_steps * batch_size] entries, the windows of the
    steps [0 .. epoch_steps - 1] of any epoch have [batch_size] entries each
    and together hold exactly the entries of the list, each as often as the
    list does. *)
Theorem epoch_windows_cover (self : DataBase) (l : list entry) (shuffle : bool)
    (g : rng) (first e epoch_steps : nat) :
  0 < batch_size self → length l = epoch_steps * batch_size self →
  concat (window_of self (epoch_list self l shuffle g first e) <$> seq 0 epoch_steps)
    ≡ₚ l ∧
  (∀ s, s < epoch_steps →
        length (window_of self (epoch_list self l shuffle g first e) s)
          = batch_size self).
Proof.
  intros Hb Hlen.
  assert (length (epoch_list self l shuffle g first e)
            = epoch_steps * batch_size self ∧
          epoch_list self l shuffle g first e ≡ₚ l) as [Hclen Hperm].
  { unfold epoch_list, shuffled_copy. destruct (e =? 0); [done|].
    set (g' := Nat.iter _ _ _).
    pose proof (group_shuffle_length g' l (batch_size self) shuffle (group_size self) Hb)
      as Hlen'.
    pose proof (group_shuffle_perm g' l (batch_size self) shuffle (group_size self) Hb)
      as Hp.
    rewrite Hlen, Nat.div_mul in Hlen', Hp by lia. split; [done|].
    rewrite Hp, take_ge, pre_shuffled_perm; [done|].
    by rewrite (Permutation_length (pre_shuffled_perm _ _ _)), Hlen. }
  split.
  - rewrite windows_tile, take_ge; [done|]. unfold entry in *. lia.
  - intros s Hs. rewrite window_of_take_drop, length_take, length_drop.
    unfold entry in *. nia.
Qed.

Lemma epoch_windows_cover_witness :
  concat (window_of gen_db (epoch_list gen_db repeated_ids true rng0 0 1) <$> seq 0 3)
    ≡ₚ repeated_ids ∧
  (∀ s, s < 3 →
        length (window_of gen_db (epoch_list gen_db repeated_ids true rng0 0 1) s)
          = batch_size gen_db).
Proof.
  apply (epoch_windows_cover gen_db repeated_ids true rng0 0 1 3).
  - cbn. lia.
  - reflexivity.
Defined.

(** ** The packed generator *)

Lemma drain_packed_spec (fuel prefetch : nat) (futures yielded : list ptask) :
  let out := drain_packed fuel prefetch futures yielded in
  out.1.2 ++ out.1.1 = yielded ++ futures ∧
  (0 < prefetch → out.2 = Ok ()).
Proof.
  revert futures yielded. induction fuel as [|fuel IH]; intros futures yielded;
    [by cbn|].
  cbn [drain_packed].
  destruct (Nat.leb_spec prefetch (length futures)) as [Hle|]; [|by cbn].
  destruct futures as [|f futures].
  - cbn. split; [done|]. cbn in Hle. lia.
  - destruct (IH futures (yielded ++ [f])) as [H1 H2]. split; [|done].
    by rewrite H1, <- app_assoc.
Qed.

Lemma packed_steps_loop_spec (self : DataBase) (dataset : list string)
    (epoch : nat) (steps : list nat) (futures yielded : list ptask) :
  0 < prefetch self → (∀ s, s ∈ steps → s < length dataset) →
  let out := packed_steps_loop self dataset epoch steps futures yielded in
  out.2 = Ok () ∧
  out.1.2 ++ out.1.1 =
    (yielded ++ futures) ++ ((λ s, PTask epoch s (dataset !!! s)) <$> steps).
Proof.
  intros Hp. revert futures yielded.
  induction steps as [|step steps IH]; intros futures yielded Hst.
  { cbn. by rewrite app_nil_r. }
  cbn [packed_steps_loop]. unfold packed_step_body.
  destruct (getitem_lt dataset step (Hst step ltac:(left))) as (a & -> & Ha).
  pose proof (drain_packed_spec (S (length (futures ++ [PTask epoch step a])))
    (prefetch self) (futures ++ [PTask epoch step a]) yielded) as [Hq Hok].
  destruct (drain_packed _ _ _ _) as [[futures' yielded'] r]. cbn [fst snd] in *.
  rewrite (Hok Hp).
  destruct (IH futures' yielded' (λ s Hs, Hst s ltac:(by right))) as [Hok' Hq'].
  split; [done|]. rewrite Hq', Hq, fmap_cons, (list_lookup_total_correct _ _ _ Ha).
  by rewrite <- !app_assoc.
Qed.

Lemma packed_epochs_loop_spec (self : DataBase) (dataset : list string)
    (epoch_steps max_steps start : nat) (epochs : list nat)
    (futures yielded : list ptask) :
  0 < prefetch self → epoch_steps ≤ length dataset →
  let out := packed_epochs_loop self dataset epoch_steps max_steps start epochs
               futures yielded in
  out.2 = Ok () ∧
  ptask_triple <$> (out.1.2 ++ out.1.1) =
    (ptask_triple <$> (yielded ++ futures)) ++
    concat ((λ e, (λ s, (e, s, dataset !!! s))
                    <$> seq (start - epoch_steps * e)
                          (epoch_steps `min` (max_steps - epoch_steps * e)
                             - (start - epoch_steps * e)))
            <$> epochs).
Proof.
  intros Hp Hlen. revert futures yielded.
  induction epochs as [|e epochs IH]; intros futures yielded.
  { cbn. by rewrite app_nil_r. }
  cbn [packed_epochs_loop fmap list_fmap concat]. cbn zeta.
  pose proof (packed_steps_loop_spec self dataset e
    (seq (start - epoch_steps * e)
       (epoch_steps `min` (max_steps - epoch_steps * e) - (start - epoch_steps * e)))
    futures yielded Hp) as Hs.
  destruct Hs as [Hok Hq]. { intros s Hs%elem_of_seq. lia. }
  destruct (packed_steps_loop _ _ _ _ _ _) as [[futures' yielded'] r].
  cbn [fst snd] in *. subst r.
  destruct (IH futures' yielded') as [Hok' Hq'].
  split; [done|]. rewrite Hq', Hq, fmap_app, <- list_fmap_compose, <- app_assoc.
  done.
Qed.

(** The run of the packed generator, epoch by epoch. *)
Lemma gen_batches_packed_epochs (self : DataBase) (dataset : list string)
    (epoch_steps num_epochs start : nat) :
  0 < prefetch self → 0 < epoch_steps → epoch_steps ≤ length dataset →
  let run := gen_batches_packed self dataset epoch_steps num_epochs start in
  run.2 = Ok () ∧
  ptask_triple <$> run.1 =
    concat ((λ e, (λ s, (e, s, dataset !!! s))
                    <$> seq (start - epoch_steps * e)
                          (epoch_steps `min` (epoch_steps * num_epochs - epoch_steps * e)
                             - (start - epoch_steps * e)))
            <$> seq (start / epoch_steps) (num_epochs - start / epoch_steps)).
Proof.
  intros Hp Hes Hlen. unfold gen_batches_packed, floordiv. cbn zeta.
  destruct (Nat.eqb_spec epoch_steps 0) as [|_]; [lia|].
  pose proof (packed_epochs_loop_spec self dataset epoch_steps
    (epoch_steps * num_epochs) start
    (seq (start / epoch_steps) (num_epochs - start / epoch_steps)) [] [] Hp Hlen)
    as [Hok Hq].
  destruct (packed_epochs_loop _ _ _ _ _ _ _ _) as [[futures yielded] r].
  cbn [fst snd] in *. subst r. cbn beta iota. cbn [fst snd].
  split; [done|]. by rewrite Hq.
Qed.

(** X18. The packed generator indexes the list without a bound check of its
    own: when the first step to do lies beyond the end of the list, the run
    raises [IndexError] before anything is submitted or yielded. *)
Theorem gen_batches_packed_short_list (self : DataBase) (dataset : list string)
    (epoch_steps num_epochs start : nat) :
  0 < epoch_steps → start < epoch_steps * num_epochs →
  length dataset ≤ start mod epoch_steps →
  gen_batches_packed self dataset epoch_steps num_epochs start
    = ([], Raise IndexError).
Proof.
  intros Hes Hst Hlen. unfold gen_batches_packed, floordiv.
  destruct (Nat.eqb_spec epoch_steps 0) as [|_]; [lia|].
  pose proof (Nat.div_mod_eq start epoch_steps) as Hdm.
  pose proof (Nat.mod_upper_bound start epoch_steps ltac:(lia)) as Hub.
  set (first := start / epoch_steps) in *. set (r := start mod epoch_steps) in *.
  assert (Hfirst : first < num_epochs) by nia.
  assert (Hfull : epoch_steps ≤ epoch_steps * num_epochs - epoch_steps * first).
  { rewrite <- Nat.mul_sub_distr_l. nia. }
  replace (num_epochs - first) with (S (num_epochs - first - 1)) by lia.
  cbn [seq packed_epochs_loop]. cbn zeta.
  replace (start - epoch_steps * first) with r by lia.
  replace (epoch_steps `min` (epoch_steps * num_epochs - epoch_steps * first) - r)
    with (S (epoch_steps - r - 1)) by lia.
  cbn [seq packed_steps_loop]. unfold packed_step_body, getitem.
  rewrite lookup_ge_None_2 by done. done.
Qed.

Lemma gen_batches_packed_short_list_witness :
  gen_batches_packed gen_db three_paths 5 2 4 = ([], Raise IndexError).
Proof.
  apply (gen_batches_packed_short_list gen_db three_paths 5 2 4).
  - lia.
  - lia.
  - cbn. lia.
Defined.

(** ** More about the preprocessing *)

Lemma Qmax_cases (x y : Q) : Qmax x y = x ∨ Qmax x y = y.
Proof.
  unfold Qmax, GenericMinMax.gmax. destruct (x ?= y)%Q; auto.
Qed.

Lemma foldl_Qmax_elem (x : Q) (xs : list Q) : foldl Qmax x xs ∈ x :: xs.
Proof.
  revert x. induction xs as [|y xs IH]; intros x; [left|].
  cbn [foldl]. specialize (IH (Qmax x y)).
  apply elem_of_cons in IH as [->|IH]; [|by do 2 right].
  destruct (Qmax_cases x y) as [->| ->]; [left|right; left].
Qed.

Lemma foldl_Qmax_ge (x : Q) (xs : list Q) (y : Q) :
  y ∈ x :: xs → (y <= foldl Qmax x xs)%Q.
Proof.
  assert (Hmono : ∀ xs x, (x <= foldl Qmax x xs)%Q).
  { clear. induction xs as [|z xs IH]; intros x; [apply Qle_refl|].
    cbn [foldl]. eapply Qle_trans; [apply Q.le_max_l|apply IH]. }
  revert x. induction xs as [|z xs IH]; intros x Hy.
  - apply list_elem_of_singleton in Hy as ->. apply Qle_refl.
  - cbn [foldl]. apply elem_of_cons in Hy as [->|Hy].
    + eapply Qle_trans; [apply Q.le_max_l|apply Hmono].
    + apply elem_of_cons in Hy as [->|Hy].
      * eapply Qle_trans; [apply Q.le_max_r|apply Hmono].
      * apply IH. by right.
Qed.

Lemma np_scale_shape (c : Q) (a : list (list Q)) :
  length <$> np_scale c a = length <$> a.
Proof.
  unfold np_scale. rewrite <- list_fmap_compose. apply list_fmap_ext.
  intros i row _. cbn. by rewrite length_fmap.
Qed.

(** The normalization returns for every array with a sample, and keeps the
    shape. *)
Lemma normalize_shape (data : list (list Q)) :
  concat data ≠ [] →
  ∃ out, normalize data = Ok out ∧ length <$> out = length <$> data.
Proof.
  intros Hne. unfold normalize, np_max.
  destruct (concat data) as [|x xs]; [done|]. cbn [mbind result_bind].
  destruct (Qgtb _ _); eexists; (split; [done|]); [apply np_scale_shape|done].
Qed.

(** X8. What the normalization does: an array without samples raises
    [ValueError]; any other array comes back with its shape; it comes back
    as it is when its largest sample is [1e-6] at most, in particular when
    no sample is positive; otherwise every sample is multiplied by the
    single-precision reciprocal of the largest sample, in single
    precision, which leaves the largest sample of the clip with the one
    sample [41/32768] at [16777215/16777216], not at [1]. *)
Theorem normalize_by_threshold (data : list (list Q)) :
  match np_max data with
  | Raise e => normalize data = Raise ValueError ∧ concat data = []
  | Ok m =>
      ∃ out, normalize data = Ok out ∧
        length <$> out = length <$> data ∧
        ((m <= 1 # 1000000)%Q → out = data) ∧
        ((∀ x, x ∈ concat data → (x <= 0)%Q) → out = data) ∧
        ((1 # 1000000 < m)%Q →
           out = (λ row : list Q, (λ x, fl32 (x * fl32 (fl32 (1 / m)))) <$> row)
                   <$> data)
  end ∧
  ∃ y, normalize [[41 # 32768]%Q] = Ok [[y]] ∧ (y == 16777215 # 16777216)%Q.
Proof.
  split.
  2:{ eexists. split; [vm_compute; reflexivity|done]. }
  unfold normalize. destruct (np_max data) as [m|e] eqn:Hm.
  - cbn [mbind result_bind]. unfold Qgtb.
    assert (Hin : m ∈ concat data).
    { unfold np_max in Hm. destruct (concat data) as [|x xs]; [done|].
      injection Hm as <-. apply foldl_Qmax_elem. }
    destruct (Qle_bool m (1 # 1000000)) eqn:Hle; cbn [negb].
    + apply Qle_bool_iff in Hle. eexists. split; [done|].
      repeat split; [done..|]. intros Hlt. by apply Qlt_not_le in Hlt.
    + assert (Hlt : (1 # 1000000 < m)%Q).
      { apply Qnot_le_lt. intros H%Qle_bool_iff. congruence. }
      eexists. split; [done|]. split; [apply np_scale_shape|].
      split; [|split; [|done]].
      * intros Hle'. by apply Qlt_not_le in Hlt.
      * intros Hneg. specialize (Hneg m Hin).
        exfalso. apply (Qlt_not_le _ _ Hlt).
        eapply Qle_trans; [exact Hneg|done].
  - cbn. unfold np_max in Hm. destruct (concat data); [|done].
    by injection Hm as <-.
Qed.

(** The run of [process_sample] on a decoded signal with a sample. *)
Lemma process_sample_run (get_duration : string → Q)
    (load : string → option Z → Q → Q → result (list Q * Z))
    (uniform : Q → Q → Q) (augment : list (list Q) → list (list Q))
    (file : string) (label : nat) (config : pp_config) (data : list Q) (rate : Z) :
  load file (load_rate config) (load_offset get_duration uniform file config)
    (Qabs (pp_duration config)) = Ok (data, rate) →
  data ≠ [] →
  ∃ row, normalize [data] = Ok [row] ∧ length row = length data ∧
    process_sample get_duration load uniform augment file label config
      = Ok (augment [row ++ replicate (slice_samples_of config rate - length data) 0%Q],
            label).
Proof.
  intros Hload Hne. unfold process_sample.
  fold (load_rate config). fold (load_offset get_duration uniform file config).
  rewrite Hload. cbn [mbind result_bind]. fold (slice_samples_of config rate).
  destruct (normalize_shape [data]) as (out & Hout & Hshape).
  { cbn. by rewrite app_nil_r. }
  assert (∃ row, out = [row] ∧ length row = length data) as (row & -> & Hrow).
  { destruct out as [|row [|? ?]]; try done.
    exists row. split; [done|]. cbn in Hshape. congruence. }
  exists row. split; [done|]. split; [done|]. rewrite Hout.
  cbn [mbind result_bind]. unfold last_dim. cbn [hd].
  destruct (Nat.ltb_spec (length data) (slice_samples_of config rate)) as [Hlt|Hge].
  - done.
  - replace (slice_samples_of config rate - length data) with 0 by lia.
    cbn. by rewrite app_nil_r.
Qed.

(** The sample count is the one of the source, not the one of exact
    arithmetic: for a slice of [0.06] seconds (the double) at 11025 Hz the
    product rounds to [661.5], and the count is [662] where the exact
    product gives [661]. *)
Example slice_samples_in_doubles :
  slice_samples_of (PPConfig 11025 (fl64 (6 # 100)) 1) 11025 = 662 ∧
  Z.to_nat (Qfloor (fl64 (6 # 100) * 11025 + (1 # 2))) = 661.
Proof. split; vm_compute; reflexivity. Qed.

(** X9. [process_sample] returns the label it was given, and what it hands
    to the augmentation is one channel with the normalized samples, as
    many as were decoded, followed by zeros up to the expected sample
    count: its length is the larger of the decoded length and
    [int(slice_duration * rate + 0.5)], the count being computed in
    doubles. A decoder that returns no samples makes it raise
    [ValueError]. *)
Theorem process_sample_padding (get_duration : string → Q)
    (load : string → option Z → Q → Q → result (list Q * Z))
    (uniform : Q → Q → Q) (augment : list (list Q) → list (list Q))
    (file : string) (label : nat) (config : pp_config) (data : list Q) (rate : Z) :
  load file (load_rate config) (load_offset get_duration uniform file config)
    (Qabs (pp_duration config)) = Ok (data, rate) →
  let n := slice_samples_of config rate in
  (data = [] →
     process_sample get_duration load uniform augment file label config
       = Raise ValueError) ∧
  (data ≠ [] →
     ∃ row, normalize [data] = Ok [row] ∧ length row = length data ∧
       process_sample get_duration load uniform augment file label config
         = Ok (augment [row ++ replicate (n - length data) 0%Q], label) ∧
       length (row ++ replicate (n - length data) 0%Q) = length data `max` n).
Proof.
  intros Hload n. split.
  - intros ->. unfold process_sample.
    fold (load_rate config). fold (load_offset get_duration uniform file config).
    by rewrite Hload.
  - intros Hne.
    destruct (process_sample_run get_duration load uniform augment file label
                config data rate Hload Hne) as (row & Hnorm & Hrow & Hrun).
    exists row. repeat split; [done..|].
    rewrite length_app, length_replicate. lia.
Qed.

Lemma process_sample_padding_witness :
  let config := PPConfig 16000 (1 # 4000) 1 in
  let n := slice_samples_of config 16000 in
  (deep_clip "clip.wav" = [] →
     process_sample (λ _, 1 # 8000)%Q (decode_as deep_clip) no_offset no_augmentation
       "clip.wav" 7 config = Raise ValueError) ∧
  (deep_clip "clip.wav" ≠ [] →
     ∃ row, normalize [deep_clip "clip.wav"] = Ok [row] ∧
       length row = length (deep_clip "clip.wav") ∧
       process_sample (λ _, 1 # 8000)%Q (decode_as deep_clip) no_offset no_augmentation
         "clip.wav" 7 config
         = Ok (no_augmentation
                 [row ++ replicate (n - length (deep_clip "clip.wav")) 0%Q], 7) ∧
       length (row ++ replicate (n - length (deep_clip "clip.wav")) 0%Q)
         = length (deep_clip "clip.wav") `max` n).
Proof.
  apply (process_sample_padding (λ _, 1 # 8000)%Q (decode_as deep_clip) no_offset
           no_augmentation "clip.wav" 7 (PPConfig 16000 (1 # 4000) 1)
           (deep_clip "clip.wav") 16000).
  reflexivity.
Defined.

(** Whenever [extract_batch] returns, the labels of the batch are the
    labels of the window in order, and the batch has one input per entry
    of the window. *)
Theorem extract_batch_labels (get_duration : string → Q)
    (load : string → option Z → Q → Q → result (list Q * Z))
    (uniform : Q → Q → Q) (augment : list (list Q) → list (list Q))
    (batch_set : list entry) (config : pp_config)
    (x : list (list (list (list Q)))) (labels : list nat) :
  extract_batch get_duration load uniform augment batch_set config = Ok (x, labels) →
  labels = batch_set.*2 ∧ length x = length batch_set ∧ batch_set ≠ [].
Proof.
  unfold extract_batch. intros H.
  destruct (load_all _ _ _ _ batch_set config) as [[inputs labels']|] eqn:Hl; [|done].
  destruct (load_all_labels _ _ _ _ _ _ _ _ Hl) as [Hlen ->].
  cbn [mbind result_bind] in H.
  destruct (if Qle_bool (pp_duration config) 0 then _ else _) as [padded|] eqn:Hpad;
    [|done].
  assert (Hplen : length padded = length inputs).
  { destruct (Qle_bool _ _); [|by injection Hpad as <-].
    destruct (py_max _); [|done]. cbn in Hpad. injection Hpad as <-.
    by rewrite length_fmap. }
  cbn [mbind result_bind] in H. unfold np_stack in H.
  destruct padded as [|a rest]; [done|].
  destruct (forallb _ rest); [|done]. cbn [mret result_ret mbind result_bind] in H.
  injection H as <- <-.
  split; [done|]. cbn [length] in *. unfold expand_dims_m2.
  rewrite length_fmap, Hplen, Hlen.
  split; [done|]. intros ->. cbn in *. lia.
Qed.

Lemma extract_batch_labels_witness :
  [7] = ([("clip.wav", 7)] : list entry).*2 ∧
  length [[[ [8388608 # 8388608; (-8388608) # 4194304]%Q ]]] = length ([("clip.wav", 7)] : list entry) ∧
  ([("clip.wav", 7)] : list entry) ≠ [].
Proof.
  apply (extract_batch_labels (λ _, 1 # 8000)%Q (decode_as deep_clip) no_offset
           no_augmentation [("clip.wav", 7)] (PPConfig 16000 (1 # 8000) 1)).
  vm_compute. reflexivity.
Defined.

Lemma py_max_spec (l : list nat) (m : nat) :
  py_max l = Ok m → m ∈ l ∧ Forall (λ x, x ≤ m) l.
Proof.
  destruct l as [|x l]; [done|]. cbn. intros [= <-].
  revert x. induction l as [|y l IH]; intros x.
  - cbn. split; [left|]. by apply Forall_singleton.
  - cbn [foldl]. destruct (IH (x `max` y)) as [Hin Hall]. split.
    + apply elem_of_cons in Hin as [Hin|Hin]; [|by do 2 right].
      rewrite Hin. destruct (Nat.max_spec x y) as [[_ ->]|[_ ->]]; [right|]; left.
    + apply Forall_cons in Hall as [Hm Hall].
      apply Forall_cons. split; [lia|]. apply Forall_cons. split; [lia|done].
Qed.

Lemma np_stack_shapes (inputs out : list (list (list Q))) :
  np_stack inputs = Ok out →
  ∀ a b, a ∈ inputs → b ∈ inputs → shape2 a = shape2 b.
Proof.
  unfold np_stack. destruct inputs as [|c rest]; [done|].
  destruct (forallb _ rest) eqn:Hall; [|done]. intros _.
  assert (Hc : ∀ a, a ∈ c :: rest → shape2 a = shape2 c).
  { intros a [->|Ha]%elem_of_cons; [done|].
    rewrite forallb_forall in Hall. apply list_elem_of_In in Ha.
    by apply Hall, bool_decide_eq_true in Ha. }
  intros a b Ha Hb. by rewrite (Hc a Ha), (Hc b Hb).
Qed.

Lemma np_stack_raises (inputs : list (list (list Q))) (e : exn) :
  np_stack inputs = Raise e → e = ValueError.
Proof.
  unfold np_stack. destruct inputs; [congruence|].
  destruct (forallb _ _); [done|congruence].
Qed.

Lemma shape2_np_pad_all (row : list Q) (d : nat) :
  shape2 (np_pad_all [row] d) = (1 + d, length row + d).
Proof.
  unfold shape2, np_pad_all, np_pad_last. cbn.
  by rewrite length_replicate, length_app, length_replicate.
Qed.

(** X12. [extract_batch] never makes a batch of one-channel inputs of different
    lengths: the stacking raises [ValueError], also when the batch-level
    padding has run. *)
Theorem extract_batch_ragged get_duration load uniform augment
    (batch_set : list entry) (config : pp_config) inputs labels
    (a b : list (list Q)) :
  load_all get_duration load uniform augment batch_set config = Ok (inputs, labels) →
  Forall (λ i : list (list Q), length i = 1) inputs →
  a ∈ inputs → b ∈ inputs → last_dim a < last_dim b →
  extract_batch get_duration load uniform augment batch_set config = Raise ValueError.
Proof.
  intros Hload Hone Ha Hb Hab. unfold extract_batch. rewrite Hload.
  cbn [mbind result_bind].
  assert (Hrow : ∀ i, i ∈ inputs → ∃ row, i = [row]).
  { intros i Hi. rewrite Forall_forall in Hone. specialize (Hone i Hi).
    destruct i as [|row [|? ?]]; try done. by exists row. }
  destruct (Qle_bool (pp_duration config) 0).
  - destruct (py_max (last_dim <$> inputs)) as [m|e] eqn:Hm.
    2:{ destruct inputs; [by apply elem_of_nil in Ha|done]. }
    cbn [mbind result_bind].
    destruct (np_stack _) as [out|e] eqn:Hs.
    2:{ by rewrite (np_stack_raises _ _ Hs). }
    exfalso. apply py_max_spec in Hm as [Hin Hle].
    apply list_elem_of_fmap in Hin as (c & -> & Hc).
    rewrite Forall_fmap, Forall_forall in Hle. pose proof (Hle a Ha) as Hac. cbn in Hac.
    pose proof (Hle b Hb) as Hbc. cbn in Hbc.
    pose proof (np_stack_shapes _ _ Hs
      (np_pad_all a (last_dim c - last_dim a))
      (np_pad_all c (last_dim c - last_dim c))) as Heq.
    destruct (Hrow a Ha) as [ra ->]. destruct (Hrow c Hc) as [rc ->].
    rewrite !shape2_np_pad_all in Heq. unfold last_dim in *. cbn [hd] in *.
    assert ((1 + (length rc - length ra), length ra + (length rc - length ra))
            = (1 + (length rc - length rc), length rc + (length rc - length rc)))
      as [= Hrows _]; [|lia].
    apply Heq.
    + apply list_elem_of_fmap. exists [ra]. by split.
    + apply list_elem_of_fmap. exists [rc]. by split.
  - cbn [mbind result_bind].
    destruct (np_stack inputs) as [out|e] eqn:Hs.
    2:{ by rewrite (np_stack_raises _ _ Hs). }
    exfalso. pose proof (np_stack_shapes _ _ Hs a b Ha Hb) as Heq.
    destruct (Hrow a Ha) as [ra ->]. destruct (Hrow b Hb) as [rb ->].
    unfold shape2, last_dim in *. cbn in *. injection Heq as Heq. lia.
Qed.

Lemma extract_batch_ragged_witness :
  extract_batch (λ _, 1%Q) (decode_clip two_clips native_rates) no_offset
    no_augmentation [("short.wav", 0); ("long.wav", 1)] (PPConfig 0 (-(1 # 1000)) 1)
    = Raise ValueError.
Proof.
  apply (extract_batch_ragged (λ _, 1%Q) (decode_clip two_clips native_rates)
           no_offset no_augmentation [("short.wav", 0); ("long.wav", 1)]
           (PPConfig 0 (-(1 # 1000)) 1)
           [[[8388608 # 8388608; 8388608 # 16777216]];
            [[8388608 # 8388608; 8388608 # 16777216; 8388608 # 33554432]]]%Q
           [0; 1]
           [[8388608 # 8388608; 8388608 # 16777216]]%Q
           [[8388608 # 8388608; 8388608 # 16777216; 8388608 # 33554432]]%Q).
  - vm_compute. reflexivity.
  - repeat constructor.
  - left.
  - right. left.
  - cbn. lia.
Defined.

(** X11. Fixed-length batches: when the decoder returns, for every file of a
    non-empty window, a signal with a sample, at the rate [rate] and of at
    most [int(slice_duration * rate + 0.5)] samples, and the augmentation
    keeps the shape, [extract_batch] returns a batch of shape
    [[batch_size, 1, 1, int(slice_duration * rate + 0.5)]] with the labels
    of the window. *)
Theorem extract_batch_fixed_length (get_duration : string → Q)
    (load : string → option Z → Q → Q → result (list Q * Z))
    (uniform : Q → Q → Q) (augment : list (list Q) → list (list Q))
    (batch_set : list entry) (config : pp_config) (rate : Z) :
  batch_set ≠ [] →
  (∀ a, length <$> augment a = length <$> a) →
  Forall (λ d : entry, ∃ data,
            load d.1 (load_rate config) (load_offset get_duration uniform d.1 config)
              (Qabs (pp_duration config)) = Ok (data, rate) ∧
            data ≠ [] ∧ length data ≤ slice_samples_of config rate) batch_set →
  ∃ x, extract_batch get_duration load uniform augment batch_set config
         = Ok (x, batch_set.*2) ∧
       shape4 x = (length batch_set, 1, 1, slice_samples_of config rate).
Proof.
  intros Hne Haug Hall. set (n := slice_samples_of config rate) in *.
  assert (∃ inputs labels,
    load_all get_duration load uniform augment batch_set config = Ok (inputs, labels) ∧
    Forall (λ a : list (list Q), ∃ row, a = [row] ∧ length row = n) inputs)
    as (inputs & labels & Hload & Hrows).
  { clear Hne. induction Hall as [|[file label] rest (data & Hd & Hdne & Hlen) _ IH].
    - by eexists _, _.
    - destruct IH as (inputs & labels & Hload & Hrows). cbn [fst] in Hd.
      destruct (process_sample_run get_duration load uniform augment file label
                  config data rate Hd Hdne) as (row & _ & Hrow & Hrun).
      cbn [load_all]. rewrite Hrun, Hload. cbn. eexists _, _. split; [done|].
      apply Forall_cons. split; [|done].
      specialize (Haug [row ++ replicate (slice_samples_of config rate - length data) 0%Q]).
      destruct (augment _) as [|row' [|? ?]]; try done.
      exists row'. split; [done|]. cbn in Haug. injection Haug as ->.
      rewrite length_app, length_replicate. fold n. lia. }
  by eapply extract_batch_uniform.
Qed.

Lemma extract_batch_fixed_length_witness :
  ∃ x, extract_batch (λ _, 1%Q) (decode_as two_clips) no_offset no_augmentation
         [("short.wav", 0); ("long.wav", 1)] (PPConfig 16000 (1 # 4000) 1)
         = Ok (x, ([("short.wav", 0); ("long.wav", 1)] : list entry).*2) ∧
       shape4 x = (length ([("short.wav", 0); ("long.wav", 1)] : list entry), 1, 1,
                   slice_samples_of (PPConfig 16000 (1 # 4000) 1) 16000).
Proof.
  apply (extract_batch_fixed_length (λ _, 1%Q) (decode_as two_clips) no_offset
           no_augmentation [("short.wav", 0); ("long.wav", 1)]
           (PPConfig 16000 (1 # 4000) 1) 16000).
  - done.
  - done.
  - repeat constructor.
    + exists (two_clips "short.wav"). split; [reflexivity|]. split; [done|].
      vm_compute. lia.
    + exists (two_clips "long.wav"). split; [reflexivity|]. split; [done|].
      vm_compute. lia.
Defined.

(** ** The entry points *)

Lemma entries_of_Sample (l : list entry) : entries_of (Sample <$> l) = l.
Proof.
  unfold entries_of. induction l as [|d l IH]; [done|]. cbn. by rewrite IH.
Qed.

(** [get_files] leaves the configuration as it was. *)
Lemma get_files_config (g : rng) (self self' : DataBase) (env : discovery) :
  get_files g self env = Ok self' →
  dataset self' = dataset self ∧ batch_size self' = batch_size self ∧
  packed self' = packed self ∧ shuffle self' = shuffle self ∧
  group_size self' = group_size self ∧ prefetch self' = prefetch self.
Proof.
  unfold get_files, get_files_packed. intros H. destruct (packed self) eqn:Hp.
  - destruct (match val_size self with Some _ => _ | None => _ end)
      as [[[[vsize vsteps] vset] data_list]|]; [|done].
    cbn [mbind result_bind] in H.
    destruct (resolve_steps _ _ _) as [[n m]|]; [|done].
    cbn in H. by injection H as <-.
  - destruct (get_files_origin g self env) as [dl|]; [|done].
    cbn [mbind result_bind] in H.
    destruct (match val_size self with Some _ => _ | None => _ end)
      as [[[[vsize vsteps] vset] data_list]|]; [|done].
    cbn [mbind result_bind] in H.
    destruct (py_assert _); [|done]. cbn [mbind result_bind] in H.
    destruct (floordiv _ _); [|done]. cbn [mbind result_bind] in H.
    destruct (resolve_steps _ _ _) as [[n m]|]; [|done].
    cbn in H. by injection H as <-.
Qed.

(** A list that went through [group_shuffle] without an exception was
    made with a [group_size] that divides [batch_size]. *)
Lemma get_files_origin_group (g : rng) (self : DataBase) (env : discovery)
    (dl : list entry) :
  get_files_origin g self env = Ok dl →
  0 < group_size self ∧ batch_size self mod group_size self = 0.
Proof.
  unfold get_files_origin, group_shuffle.
  destruct (if shuffle self then _ else _) as [d1 g1].
  destruct (batch_size self =? 0); [done|].
  destruct (Nat.eqb_spec (group_size self) 0) as [|Hg]; [done|].
  destruct (Nat.eqb_spec (batch_size self mod group_size self) 0) as [Hm|]; [|done].
  intros _. split; [lia|done].
Qed.

Lemma windows_from (self : DataBase) (c : list entry) (a n : nat) :
  concat (window_of self c <$> seq a n)
    = take (n * batch_size self) (drop (a * batch_size self) c).
Proof.
  induction n as [|n IH]; [done|].
  rewrite seq_S, fmap_app, concat_app, IH. cbn [fmap list_fmap concat].
  rewrite app_nil_r, window_of_take_drop.
  replace ((a + n) * batch_size self) with (a * batch_size self + n * batch_size self)
    by lia.
  rewrite <- drop_drop, take_take_drop. f_equal. lia.
Qed.

Lemma gen_batches_origin_run (self : DataBase) (σ : gmap nat (list entry))
    (g : rng) (dataset : nat) (l : list entry) (epoch_steps num_epochs start : nat)
    (shuffle : bool) :
  σ !! dataset = Some l →
  0 < prefetch self → 0 < epoch_steps → 0 < batch_size self →
  0 < group_size self → batch_size self mod group_size self = 0 →
  ∃ st, gen_batches_origin self σ g dataset epoch_steps num_epochs start shuffle
          = (st, Ok ()) ∧
    g_futures st = [] ∧
    task_triple <$> g_yielded st
      = schedule self l shuffle g epoch_steps num_epochs start.
Proof.
  intros Hl Hp Hes Hb Hg Hm.
  pose proof (gen_batches_origin_submits self σ g dataset l epoch_steps num_epochs
    start shuffle Hl Hp Hes Hb Hg Hm) as [Hok Hs].
  pose proof (gen_batches_origin_fifo self σ g dataset epoch_steps num_epochs start
    shuffle) as Hfifo.
  cbn zeta in *. unfold gen_batches_origin, floordiv in *.
  destruct (Nat.eqb_spec epoch_steps 0) as [|_]; [lia|].
  destruct (epochs_loop _ _ _ _ _ _ _ _) as [st r]. cbn [fst snd] in *. subst r.
  destruct (Hfifo eq_refl) as [Hy Hf].
  cbn [fst snd g_futures g_yielded g_submitted] in Hy.
  eexists. split; [done|]. cbn [g_futures g_yielded].
  split; [done|]. by rewrite Hy.
Qed.

(** The schedule of a single epoch from [start]: the windows of the steps
    [start .. epoch_steps - 1] of the caller's list. *)
Lemma schedule_one_epoch (self : DataBase) (l : list entry) (shuffle : bool)
    (g : rng) (es start : nat) :
  0 < es →
  schedule self l shuffle g es 1 start
    = (λ s, (0, s, window_of self l s)) <$> seq start (es - start).
Proof.
  intros Hes. unfold schedule. rewrite Nat.mul_1_r.
  apply list_fmap_ext. intros i s [-> Hi]%lookup_seq.
  rewrite Nat.div_small, Nat.mod_small by lia. done.
Qed.

(** X21. A [val_size] below [batch_size] is rounded down to no batch at all:
    [get_files] succeeds with an empty validation set and [val_steps = 0],
    and [gen_val] then raises [ZeroDivisionError] (at
    [start // epoch_steps]) before it yields anything. *)
Theorem gen_val_small_val_size (g0 g : rng) (self self' : DataBase)
    (env : discovery) (vs : nat) (σ : gmap nat (list entry))
    (val_set_at start : nat) :
  val_size self = Some vs → vs < batch_size self →
  get_files g0 self env = Ok self' →
  val_set self' = Some [] ∧ val_steps self' = Some 0 ∧
  ∃ run, gen_val self' σ g val_set_at start = Some run ∧
         gen_result run = Raise ZeroDivisionError ∧ gen_count run = 0.
Proof.
  intros Hv Hvs H.
  destruct (get_files_config _ _ _ _ H) as (_ & _ & Hpk & _).
  assert (Hz : vs / batch_size self = 0) by (by apply Nat.div_small).
  assert (val_set self' = Some [] ∧ val_steps self' = Some 0) as [Hval Hsteps].
  { destruct (packed self) eqn:Hp.
    - destruct (get_files_packed_inv g0 self self' env vs Hp Hv H)
        as (_ & -> & _ & _ & -> & _). by rewrite Hz.
    - destruct (get_files_unpacked_inv g0 self self' env vs Hp Hv H)
        as (dl & _ & _ & _ & -> & _ & _ & -> & _). by rewrite Hz. }
  do 2 (split; [done|]). unfold gen_val, gen_batches. rewrite Hval, Hsteps. cbn.
  destruct (packed self'); eexists; (split; [done|]); done.
Qed.

Lemma gen_val_small_val_size_witness :
  val_set six_files_small_val = Some [] ∧ val_steps six_files_small_val = Some 0 ∧
  ∃ run, gen_val six_files_small_val ∅ rng0 0 0 = Some run ∧
         gen_result run = Raise ZeroDivisionError ∧ gen_count run = 0.
Proof.
  apply (gen_val_small_val_size rng0 rng0 (unpacked_db 2 1) six_files_small_val
           six_files 1 ∅ 0 0).
  - reflexivity.
  - cbn. lia.
  - vm_compute. reflexivity.
Defined.

Lemma lookups_from {A} `{!Inhabited A} (l : list A) (a : nat) :
  (λ s, l !!! s) <$> seq a (length l - a) = drop a l.
Proof.
  apply list_eq. intros i. rewrite list_lookup_fmap, lookup_drop.
  destruct (decide (i < length l - a)) as [Hi|Hi].
  - rewrite lookup_seq_lt by done. cbn.
    destruct (lookup_lt_is_Some_2 l (a + i)) as [x Hx]; [lia|].
    by rewrite Hx, (list_lookup_total_correct _ _ _ Hx).
  - rewrite lookup_seq_ge by lia. cbn. symmetry. apply lookup_ge_None. lia.
Qed.

(** With an unpacked object the main set is a list of samples. *)
Lemma get_files_unpacked_main (g : rng) (self self' : DataBase) (env : discovery) :
  packed self = false → get_files g self env = Ok self' →
  ∃ dl main, get_files_origin g self env = Ok dl ∧
             main_set self' = Some (Sample <$> main).
Proof.
  intros Hp H. destruct (val_size self) as [vs|] eqn:Hv.
  - destruct (get_files_unpacked_inv g self self' env vs Hp Hv H)
      as (dl & Ho & _ & _ & _ & Hmain & _).
    exists dl. eexists. split; [done|]. by rewrite Hmain, <- fmap_drop, <- fmap_take.
  - unfold get_files in H. rewrite Hp, Hv in H.
    destruct (get_files_origin g self env) as [dl|] eqn:Ho; [|done].
    cbn [mbind result_bind] in H.
    destruct (py_assert _); [|done]. cbn [mbind result_bind] in H.
    destruct (floordiv _ _) as [es|]; [|done]. cbn [mbind result_bind] in H.
    destruct (resolve_steps _ _ _) as [[n m]|]; [|done].
    cbn in H. injection H as <-. cbn. exists dl. eexists. split; [done|].
    unfold py_slice. by rewrite drop_0, <- fmap_take.
Qed.

Lemma epoch_list_perm (self : DataBase) (l : list entry) (shuffle : bool)
    (g : rng) (first e epoch_steps : nat) :
  0 < batch_size self → length l = epoch_steps * batch_size self →
  length (epoch_list self l shuffle g first e) = epoch_steps * batch_size self ∧
  epoch_list self l shuffle g first e ≡ₚ l.
Proof.
  intros Hb Hlen. unfold epoch_list, shuffled_copy. destruct (e =? 0); [done|].
  set (g' := Nat.iter _ _ _).
  pose proof (group_shuffle_length g' l (batch_size self) shuffle (group_size self) Hb)
    as Hlen'.
  pose proof (group_shuffle_perm g' l (batch_size self) shuffle (group_size self) Hb)
    as Hp.
  rewrite Hlen, Nat.div_mul in Hlen', Hp by lia. split; [done|].
  rewrite Hp, take_ge, pre_shuffled_perm; [done|].
  by rewrite (Permutation_length (pre_shuffled_perm _ _ _)), Hlen.
Qed.

(** ** The augmentation *)

Lemma Qltb_lt (a b : Q) : Qltb a b = true ↔ (a < b)%Q.
Proof.
  unfold Qltb. rewrite negb_true_iff. split.
  - intros H. apply Qnot_le_lt. intros Hle%Qle_bool_iff. congruence.
  - intros H. destruct (Qle_bool b a) eqn:Hle; [|done].
    apply Qle_bool_iff in Hle. by apply Qlt_not_le in H.
Qed.

Lemma Qgtb_gt (a b : Q) : Qgtb a b = true ↔ (b < a)%Q.
Proof. apply (Qltb_lt b a). Qed.

Lemma Qgtb_le (a b : Q) : Qgtb a b = false ↔ (a <= b)%Q.
Proof.
  unfold Qgtb. rewrite negb_false_iff. apply Qle_bool_iff.
Qed.

Lemma np_steady_ret {A} (a : A) : np_steady (mret a).
Proof. intros s a' s' [= <- <-]. done. Qed.

Lemma np_steady_bind {A B} (m : np A) (f : A → np B) :
  np_steady m → (∀ a, np_steady (f a)) → np_steady (m ≫= f).
Proof.
  intros Hm Hf s b s'. unfold mbind, np_bind.
  destruct (m s) as [[[a s1]|e]|] eqn:H1; try done. intros H2.
  destruct (Hm _ _ _ H1) as (Hu & Hg & ?). destruct (Hf a _ _ _ H2) as (-> & -> & ?).
  repeat split; [done..|lia].
Qed.

Lemma np_steady_uniform (low high : Q) : np_steady (np_random_uniform low high).
Proof. intros s a s' [= <- <-]. cbn. repeat split; lia. Qed.

Lemma np_steady_normal (loc scale : Q) : np_steady (np_random_normal loc scale).
Proof.
  intros s a s'. unfold np_random_normal. destruct (Qltb scale 0); [done|].
  intros [= <- <-]. cbn. repeat split; lia.
Qed.

Lemma np_steady_active_prob (prob : Q) : np_steady (active_prob prob).
Proof.
  apply np_steady_bind; [apply np_steady_uniform|]. intros u. apply np_steady_ret.
Qed.

Lemma np_steady_truncate_loop (fuel : nat) (std max_scale scale : Q) :
  np_steady (truncate_loop fuel std max_scale scale).
Proof.
  revert scale. induction fuel as [|fuel IH]; intros scale; cbn [truncate_loop];
    destruct (Qgtb scale max_scale); try apply np_steady_ret.
  - by intros s a s'.
  - apply np_steady_bind; [apply np_steady_normal|]. intros x. apply IH.
Qed.

Lemma np_steady_truncate_normal (fuel : nat) (std mean max_rate : Q) :
  np_steady (truncate_normal fuel std mean max_rate).
Proof.
  apply np_steady_bind; [apply np_steady_truncate_loop|]. intros x.
  apply np_steady_ret.
Qed.

Lemma np_steady_normal_row (loc scale : Q) (cols : nat) :
  np_steady (np_normal_row loc scale cols).
Proof.
  induction cols as [|cols IH]; [apply np_steady_ret|].
  apply np_steady_bind; [apply np_steady_normal|]. intros x.
  apply np_steady_bind; [apply IH|]. intros xs. apply np_steady_ret.
Qed.

Lemma np_steady_normal_array (loc scale : Q) (rows cols : nat) :
  np_steady (np_normal_array loc scale rows cols).
Proof.
  unfold np_normal_array. destruct (Qltb scale 0); [by intros s a s'|].
  induction rows as [|rows IH]; [apply np_steady_ret|].
  apply np_steady_bind; [apply np_steady_normal_row|]. intros r.
  apply np_steady_bind; [apply IH|]. intros rs. apply np_steady_ret.
Qed.

(** What the loop of [truncate_normal] returns lies between [0] and
    [max_scale] once a draw was made. *)
Lemma truncate_loop_bound (fuel : nat) (std max_scale scale r : Q)
    (s s' : np_random) :
  truncate_loop fuel std max_scale scale s = Some (Ok (r, s')) →
  (r <= max_scale)%Q ∧
  ((scale <= max_scale)%Q → r = scale ∧ s' = s) ∧
  ((max_scale < scale)%Q → (0 <= r)%Q ∧ (0 <= std)%Q ∧ np_pos s < np_pos s').
Proof.
  revert scale s. induction fuel as [|fuel IH]; intros scale s; cbn [truncate_loop];
    destruct (Qgtb scale max_scale) eqn:Hgt.
  - done.
  - intros [= <- <-]. apply Qgtb_le in Hgt. split; [done|]. split; [done|].
    intros Hlt. by apply Qlt_not_le in Hlt.
  - unfold mbind, np_bind, np_random_normal.
    destruct (Qltb std 0) eqn:Hstd; [done|]. intros H.
    assert (Hstd' : (0 <= std)%Q).
    { apply Qnot_lt_le. intros Hlt%Qltb_lt. congruence. }
    apply Qgtb_gt in Hgt.
    destruct (IH _ _ H) as (Hle & Hkeep & Hdraw). split; [done|]. split.
    { intros Hle'. by apply Qlt_not_le in Hgt. }
    intros _.
    destruct (Qlt_le_dec max_scale
                (Qabs (normal_variate 0 std (np_gauss s (np_pos s)))))
      as [Hlt|Hle'].
    + destruct (Hdraw Hlt) as (? & _ & Hpos). unfold np_advance in Hpos.
      cbn [np_pos] in Hpos. repeat split; [done..|lia].
    + destruct (Hkeep Hle') as [-> ->]. unfold np_advance. cbn [np_pos].
      repeat split; [apply Qabs_nonneg|done|lia].
  - intros [= <- <-]. apply Qgtb_le in Hgt. split; [done|]. split; [done|].
    intros Hlt. by apply Qlt_not_le in Hlt.
Qed.

(** X23. Whenever [truncate_normal] returns: if [max_scale + 1.0] exceeds
    [max_scale = std * max_rate] in doubles, the value is [scale + mean]
    for a [scale] between [0] and [max_scale], the standard deviation was
    not negative, and at least one draw was made; if it does not, the
    loop is not entered: the value is [(max_scale + 1.0) + mean] and no
    draw was made. *)
Theorem truncate_normal_range (fuel : nat) (std mean max_rate r : Q)
    (s s' : np_random) :
  truncate_normal fuel std mean max_rate s = Some (Ok (r, s')) →
  let max_scale := fl64 (std * max_rate) in
  ((max_scale < fl64 (max_scale + 1))%Q →
     ∃ scale, r = fl64 (scale + mean) ∧
       (0 <= scale)%Q ∧ (scale <= max_scale)%Q ∧ (0 <= std)%Q ∧
       np_pos s < np_pos s') ∧
  ((fl64 (max_scale + 1) <= max_scale)%Q →
     r = fl64 (fl64 (max_scale + 1) + mean) ∧ s' = s).
Proof.
  unfold truncate_normal, mbind, np_bind.
  destruct (truncate_loop _ _ _ _ s) as [[[x s1]|e]|] eqn:Hl; try done.
  intros [= <- <-].
  destruct (truncate_loop_bound _ _ _ _ _ _ _ Hl) as (Hle & Hkeep & Hcase).
  split.
  - intros Hlt. destruct (Hcase Hlt) as (Hx & Hstd & Hpos). by exists x.
  - intros Hno. by destruct (Hkeep Hno) as [-> ->].
Qed.

(** A standard deviation of [2^53] in magnitude: [max_scale + 1.0] is
    [max_scale], the loop is not entered, and the call returns without a
    draw, also for the negative standard deviation that
    [np.random.normal] would refuse. *)
Example truncate_normal_without_draw (fuel : nat) (s : np_random) :
  ∃ r, truncate_normal fuel (- inject_Z (2 ^ 53)) 0 4 s = Some (Ok (r, s)) ∧
       (r == - inject_Z (2 ^ 55))%Q.
Proof.
  destruct fuel; eexists; (split; [vm_compute; reflexivity|done]).
Qed.

Lemma truncate_loop_first_accepted (fuel n : nat) (std max_scale scale : Q)
    (s : np_random) :
  (0 <= std)%Q → n < fuel → (max_scale < scale)%Q →
  (∀ k, k < n →
     (max_scale < Qabs (normal_variate 0 std (np_gauss s (np_pos s + k))))%Q) →
  (Qabs (normal_variate 0 std (np_gauss s (np_pos s + n))) <= max_scale)%Q →
  truncate_loop fuel std max_scale scale s
    = Some (Ok (Qabs (normal_variate 0 std (np_gauss s (np_pos s + n))),
                NpRandom (np_unit s) (np_gauss s) (np_pos s + n + 1))).
Proof.
  intros Hstd. revert fuel scale s.
  induction n as [|n IH]; intros fuel scale s Hfuel Hscale Hrej Hacc.
  - destruct fuel as [|fuel]; [lia|]. cbn [truncate_loop].
    apply Qgtb_gt in Hscale. rewrite Hscale.
    unfold mbind, np_bind, np_random_normal.
    assert (Qltb std 0 = false) as ->.
    { destruct (Qltb std 0) eqn:H0; [|done]. apply Qltb_lt in H0.
      by apply Qlt_not_le in H0. }
    rewrite Nat.add_0_r in Hacc. apply Qgtb_le in Hacc.
    destruct fuel; cbn [truncate_loop]; rewrite Hacc; unfold mret, np_ret, np_advance;
      by rewrite Nat.add_0_r, Nat.add_1_r.
  - destruct fuel as [|fuel]; [lia|]. cbn [truncate_loop].
    apply Qgtb_gt in Hscale. rewrite Hscale.
    unfold mbind, np_bind, np_random_normal.
    assert (Qltb std 0 = false) as ->.
    { destruct (Qltb std 0) eqn:H0; [|done]. apply Qltb_lt in H0.
      by apply Qlt_not_le in H0. }
    rewrite (IH fuel _ (np_advance s)); unfold np_advance; cbn [np_pos np_gauss np_unit].
    + by replace (S (np_pos s) + n) with (np_pos s + S n) by lia.
    + lia.
    + specialize (Hrej 0 ltac:(lia)). by rewrite Nat.add_0_r in Hrej.
    + intros k Hk. specialize (Hrej (S k) ltac:(lia)).
      by replace (S (np_pos s) + k) with (np_pos s + S k) by lia.
    + by replace (S (np_pos s) + n) with (np_pos s + S n) by lia.
Qed.

(** X24. [truncate_normal] returns the first draw that is small enough: when
    [max_scale + 1.0] exceeds [max_scale = std * max_rate] in doubles, the
    draws [0 .. n - 1] from the current position are rejected and draw [n]
    is accepted, it returns the magnitude of draw [n] shifted by [mean],
    having used [n + 1] draws. *)
Theorem truncate_normal_first_accepted (fuel n : nat) (std mean max_rate : Q)
    (s : np_random) :
  let max_scale := fl64 (std * max_rate) in
  let draw k := Qabs (normal_variate 0 std (np_gauss s (np_pos s + k))) in
  (0 <= std)%Q → n < fuel →
  (max_scale < fl64 (max_scale + 1))%Q →
  (∀ k, k < n → (max_scale < draw k)%Q) →
  (draw n <= max_scale)%Q →
  truncate_normal fuel std mean max_rate s
    = Some (Ok (fl64 (draw n + mean),
                NpRandom (np_unit s) (np_gauss s) (np_pos s + n + 1))).
Proof.
  intros max_scale draw Hstd Hfuel Henter Hrej Hacc.
  unfold truncate_normal, mbind, np_bind.
  by rewrite (truncate_loop_first_accepted fuel n).
Qed.

Lemma truncate_normal_first_accepted_witness :
  truncate_normal 3 (3 # 4) 0 4 draws0
    = Some (Ok (fl64 (Qabs (normal_variate 0 (3 # 4)
                              (np_gauss draws0 (np_pos draws0 + 1))) + 0),
                NpRandom (np_unit draws0) (np_gauss draws0) (np_pos draws0 + 1 + 1))).
Proof.
  apply (truncate_normal_first_accepted 3 1 (3 # 4) 0 4 draws0).
  - done.
  - lia.
  - vm_compute. reflexivity.
  - intros [|k] Hk; [|lia]. vm_compute. reflexivity.
  - vm_compute. congruence.
Defined.

Lemma truncate_normal_range_witness :
  ((fl64 ((3 # 4) * 4) < fl64 (fl64 ((3 # 4) * 4) + 1))%Q →
     ∃ scale, fl64 (Qabs (normal_variate 0 (3 # 4) 4) + 0) = fl64 (scale + 0) ∧
       (0 <= scale)%Q ∧ (scale <= fl64 ((3 # 4) * 4))%Q ∧ (0 <= 3 # 4)%Q ∧
       np_pos draws0 < np_pos (NpRandom (np_unit draws0) (np_gauss draws0) 2)) ∧
  ((fl64 (fl64 ((3 # 4) * 4) + 1) <= fl64 ((3 # 4) * 4))%Q →
     fl64 (Qabs (normal_variate 0 (3 # 4) 4) + 0)
       = fl64 (fl64 (fl64 ((3 # 4) * 4) + 1) + 0) ∧
     NpRandom (np_unit draws0) (np_gauss draws0) 2 = draws0).
Proof.
  apply (truncate_normal_range 3 (3 # 4) 0 4
           (fl64 (Qabs (normal_variate 0 (3 # 4) 4) + 0)) draws0
           (NpRandom (np_unit draws0) (np_gauss draws0) 2)).
  vm_compute. reflexivity.
Defined.

Lemma np_bind_Ok {A B} (m : np A) (f : A → np B) (s s' : np_random) (b : B) :
  (m ≫= f) s = Some (Ok (b, s')) →
  ∃ a s1, m s = Some (Ok (a, s1)) ∧ f a s1 = Some (Ok (b, s')).
Proof.
  unfold mbind, np_bind. destruct (m s) as [[[a s1]|e]|]; try done. by exists a, s1.
Qed.

Lemma active_prob_false (prob : Q) (s : np_random) :
  (prob <= 0)%Q → (0 <= np_unit s (np_pos s))%Q →
  active_prob prob s = Some (Ok (false, np_advance s)).
Proof.
  intros Hp Hu. unfold active_prob, mbind, np_bind, np_random_uniform, mret, np_ret.
  do 3 f_equal. unfold Qltb. apply negb_false_iff, Qle_bool_iff.
  eapply Qle_trans; [exact Hp|]. eapply Qle_trans; [exact Hu|].
  apply Qle_lteq. right. ring.
Qed.

Lemma active_prob_true (prob : Q) (s : np_random) :
  (1 <= prob)%Q → (np_unit s (np_pos s) < 1)%Q →
  active_prob prob s = Some (Ok (true, np_advance s)).
Proof.
  intros Hp Hu. unfold active_prob, mbind, np_bind, np_random_uniform, mret, np_ret.
  do 3 f_equal. apply Qltb_lt.
  eapply Qlt_le_trans; [|exact Hp]. eapply Qle_lt_trans; [|exact Hu].
  apply Qle_lteq. right. ring.
Qed.

(** With the three augmentation parameters at zero or below (the defaults
    of test mode) [process] returns the data as they are, whatever the
    filter and the power function, and uses two uniform draws: the one of
    the smoothing test and the one of the first noise test. *)
Lemma process_inactive_run (gaussian_filter1d : list (list Q) → Q → Q → list (list Q))
    (power_of_tenth : Q → Q) (fuel : nat) (data : list (list Q))
    (config : pp_augment) (s : np_random) :
  (pp_smooth config <= 0)%Q → (pp_noise config <= 0)%Q →
  (pp_amplitude config <= 0)%Z →
  (0 <= np_unit s (np_pos s))%Q → (0 <= np_unit s (S (np_pos s)))%Q →
  process gaussian_filter1d power_of_tenth fuel data config s
    = Some (Ok (data, NpRandom (np_unit s) (np_gauss s) (np_pos s + 2))).
Proof.
  intros Hs Hn Ha Hu0 Hu1. unfold process.
  unfold mbind at 1. unfold np_bind at 1. rewrite (active_prob_false _ _ Hs Hu0).
  unfold mbind at 1. unfold np_bind at 1. cbn [mret np_ret].
  unfold mbind at 1. unfold np_bind at 1.
  assert (noise_loop gaussian_filter1d fuel (pp_noise config) data (np_advance s)
          = Some (Ok (data, np_advance (np_advance s)))) as ->.
  { destruct fuel; cbn [noise_loop]; unfold mbind at 1; unfold np_bind at 1;
      by rewrite (active_prob_false _ (np_advance s) Hn Hu1). }
  assert (Qgtb (inject_Z (pp_amplitude config) / 10) 0 = false) as ->.
  { apply Qgtb_le. unfold Qdiv. rewrite <- (Qmult_0_l (/ 10)).
    apply Qmult_le_compat_r; [|done]. unfold Qle. cbn. lia. }
  unfold mret, np_ret, np_advance. cbn [np_unit np_gauss np_pos].
  do 4 f_equal. lia.
Qed.

Lemma noise_loop_never_returns
    (gaussian_filter1d : list (list Q) → Q → Q → list (list Q))
    (fuel : nat) (prob : Q) (data out : list (list Q)) (s s' : np_random) :
  (1 <= prob)%Q → (∀ k, np_pos s ≤ k → (np_unit s k < 1)%Q) →
  noise_loop gaussian_filter1d fuel prob data s ≠ Some (Ok (out, s')).
Proof.
  intros Hp. revert data s. induction fuel as [|fuel IH]; intros data s Hu;
    cbn [noise_loop]; unfold mbind at 1; unfold np_bind at 1;
    rewrite (active_prob_true _ _ Hp (Hu _ ltac:(done))); [done|].
  intros H.
  apply np_bind_Ok in H as (noise_scale & s1 & H1 & H).
  apply np_bind_Ok in H as (noise & s2 & H2 & H).
  apply np_bind_Ok in H as (smooth & s3 & H3 & H).
  apply np_bind_Ok in H as (noise' & s4 & H4 & H).
  apply np_steady_truncate_normal in H1 as (Hu1 & _ & Hp1).
  apply np_steady_normal_array in H2 as (Hu2 & _ & Hp2).
  apply np_steady_active_prob in H3 as (Hu3 & _ & Hp3).
  assert (np_unit s4 = np_unit s3 ∧ np_pos s3 ≤ np_pos s4) as [Hu4 Hp4].
  { destruct smooth.
    - apply np_bind_Ok in H4 as (x & s5 & H5 & [= _ <-]).
      by apply np_steady_truncate_normal in H5 as (? & _ & ?).
    - by injection H4 as _ <-. }
  destruct (np_add data noise') as [data'|]; [|done].
  apply IH in H; [done|]. intros k Hk.
  rewrite Hu4, Hu3, Hu2, Hu1. apply Hu. cbn in Hp1. lia.
Qed.

(** X25. A noise probability of one or more keeps the noise loop going for
    ever: with uniform draws below one, [process] does not return,
    however many iterations it is allowed. *)
Theorem process_noise_never_ends
    (gaussian_filter1d : list (list Q) → Q → Q → list (list Q))
    (power_of_tenth : Q → Q) (fuel : nat) (data out : list (list Q))
    (config : pp_augment) (s s' : np_random) :
  (1 <= pp_noise config)%Q → (∀ k, (np_unit s k < 1)%Q) →
  process gaussian_filter1d power_of_tenth fuel data config s ≠ Some (Ok (out, s')).
Proof.
  intros Hn Hu H. unfold process in H.
  apply np_bind_Ok in H as (smooth & s1 & H1 & H).
  apply np_bind_Ok in H as (data1 & s2 & H2 & H).
  apply np_bind_Ok in H as (data2 & s3 & H3 & H).
  apply np_steady_active_prob in H1 as (Hu1 & _ & _).
  assert (np_unit s2 = np_unit s1) as Hu2.
  { destruct smooth.
    - apply np_bind_Ok in H2 as (x & s5 & H5 & [= _ <-]).
      by apply np_steady_truncate_normal in H5 as (? & _ & ?).
    - by injection H2 as _ <-. }
  apply noise_loop_never_returns in H3; [done..|].
  intros k _. rewrite Hu2, Hu1. apply Hu.
Qed.

Lemma process_noise_never_ends_witness :
  process no_filter unit_power 5 [deep_clip "clip.wav"] (PPAugment 0 1 0) draws0
    ≠ Some (Ok ([deep_clip "clip.wav"], draws0)).
Proof.
  apply (process_noise_never_ends no_filter unit_power 5 [deep_clip "clip.wav"]
           [deep_clip "clip.wav"] (PPAugment 0 1 0) draws0 draws0); done.
Defined.

Lemma np_add_shape (a b c : list (list Q)) :
  np_add a b = Ok c → length <$> c = length <$> a.
Proof.
  unfold np_add. destruct (bool_decide _) eqn:Hs; [|done].
  apply bool_decide_eq_true in Hs. intros [= <-].
  revert b Hs. induction a as [|ra a IH]; intros [|rb b] Hs; try done.
  cbn in *. injection Hs as Hr Hs. rewrite (IH b Hs). f_equal.
  rewrite length_zip_with. lia.
Qed.

Lemma noise_loop_shape (gaussian_filter1d : list (list Q) → Q → Q → list (list Q))
    (fuel : nat) (prob : Q) (data out : list (list Q)) (s s' : np_random) :
  noise_loop gaussian_filter1d fuel prob data s = Some (Ok (out, s')) →
  length <$> out = length <$> data.
Proof.
  revert data s. induction fuel as [|fuel IH]; intros data s H; cbn [noise_loop] in H;
    apply np_bind_Ok in H as ([] & s0 & _ & H).
  { done. }
  { by injection H as <- _. }
  2:{ by injection H as <- _. }
  apply np_bind_Ok in H as (noise_scale & s1 & _ & H).
  apply np_bind_Ok in H as (noise & s2 & _ & H).
  apply np_bind_Ok in H as (smooth & s3 & _ & H).
  apply np_bind_Ok in H as (noise' & s4 & _ & H).
  destruct (np_add data noise') as [data'|] eqn:Hadd; [|done].
  apply IH in H. rewrite H. by apply np_add_shape in Hadd.
Qed.

(** X26. [process] keeps the shape of the data whenever it returns and the
    filter keeps the shape of what it is given. *)
Theorem process_keeps_shape
    (gaussian_filter1d : list (list Q) → Q → Q → list (list Q))
    (power_of_tenth : Q → Q) (fuel : nat) (data out : list (list Q))
    (config : pp_augment) (s s' : np_random) :
  (∀ a sigma truncate,
     length <$> gaussian_filter1d a sigma truncate = length <$> a) →
  process gaussian_filter1d power_of_tenth fuel data config s = Some (Ok (out, s')) →
  length <$> out = length <$> data.
Proof.
  intros Hf H. unfold process in H.
  apply np_bind_Ok in H as (smooth & s1 & _ & H).
  apply np_bind_Ok in H as (data1 & s2 & H2 & H).
  apply np_bind_Ok in H as (data2 & s3 & H3 & H).
  assert (length <$> data1 = length <$> data) as <-.
  { destruct smooth.
    - apply np_bind_Ok in H2 as (x & s5 & _ & [= <- _]). apply Hf.
    - by injection H2 as <- _. }
  apply noise_loop_shape in H3 as <-.
  destruct (Qgtb _ _).
  - apply np_bind_Ok in H as (x & s4 & _ & [= <- _]). apply np_scale_shape.
  - by injection H as <- _.
Qed.

Lemma process_keeps_shape_witness :
  length <$> [[8556380 # 16777216; (-16609444) # 16777216]]%Q
    = length <$> [deep_clip "clip.wav"].
Proof.
  apply (process_keeps_shape no_filter unit_power 1 [deep_clip "clip.wav"] _
           (PPAugment 0 (3 # 4) 0) draws_half
           (NpRandom (np_unit draws_half) (np_gauss draws_half) 7)).
  - done.
  - vm_compute. reflexivity.
Defined.

(** X27. In test mode the defaults switch the augmentation off: for arguments
    with the test flag and none of [pp_smooth], [pp_noise], [pp_amplitude]
    given, both [parse_arguments] complete the three parameters, and
    [process] with them returns the data as they are. *)
Theorem test_defaults_leave_data_alone
    (gaussian_filter1d : list (list Q) → Q → Q → list (list Q))
    (power_of_tenth : Q → Q) (fuel : nat) (data : list (list Q))
    (a : args) (s : np_random) :
  arg_test a = true →
  arg_pp_smooth a = None → arg_pp_noise a = None → arg_pp_amplitude a = None →
  (0 <= np_unit s (np_pos s))%Q → (0 <= np_unit s (S (np_pos s)))%Q →
  (∃ config, augment_config (parse_arguments a) = Some config ∧
     process gaussian_filter1d power_of_tenth fuel data config s
       = Some (Ok (data, NpRandom (np_unit s) (np_gauss s) (np_pos s + 2)))) ∧
  (∃ config, augment_config (DataSpeech_parse_arguments a) = Some config ∧
     process gaussian_filter1d power_of_tenth fuel data config s
       = Some (Ok (data, NpRandom (np_unit s) (np_gauss s) (np_pos s + 2)))).
Proof.
  intros Ht Hs Hn Ha Hu0 Hu1.
  split; exists (PPAugment 0 0 0); (split; [|by apply process_inactive_run]);
    unfold augment_config; cbn; by rewrite Ht, Hs, Hn, Ha.
Qed.

Lemma test_defaults_leave_data_alone_witness :
  (∃ config, augment_config (parse_arguments test_args) = Some config ∧
     process no_filter unit_power 0 [deep_clip "clip.wav"] config draws0
       = Some (Ok ([deep_clip "clip.wav"],
                   NpRandom (np_unit draws0) (np_gauss draws0) (np_pos draws0 + 2)))) ∧
  (∃ config, augment_config (DataSpeech_parse_arguments test_args) = Some config ∧
     process no_filter unit_power 0 [deep_clip "clip.wav"] config draws0
       = Some (Ok ([deep_clip "clip.wav"],
                   NpRandom (np_unit draws0) (np_gauss draws0) (np_pos draws0 + 2)))).
Proof.
  apply (test_defaults_leave_data_alone no_filter unit_power 0
           [deep_clip "clip.wav"] test_args draws0); done.
Defined.

(** ** The ordered ids *)

Lemma np_unique_NoDup (ids : list string) : NoDup (np_unique ids).
Proof.
  unfold np_unique. rewrite merge_sort_Permutation. apply NoDup_remove_dups.
Qed.

Lemma elem_of_np_unique (ids : list string) (x : string) :
  x ∈ np_unique ids ↔ x ∈ ids.
Proof.
  unfold np_unique. by rewrite merge_sort_Permutation, elem_of_remove_dups.
Qed.

Lemma np_unique_sorted (ids : list string) : StronglySorted String.le (np_unique ids).
Proof. apply (StronglySorted_merge_sort _). Qed.

Lemma enumerate_map_from (m : gmap string nat) (a : nat) (l : list string) (x : string) :
  NoDup l →
  foldl (λ m p, <[p.2 := p.1]> m) m (zip (seq a (length l)) l) !! x
    = match list_find (λ y, y = x) l with
      | Some (i, _) => Some (a + i)
      | None => m !! x
      end.
Proof.
  revert m a. induction l as [|y l IH]; intros m a Hnd; [done|].
  apply NoDup_cons in Hnd as [Hy Hnd]. cbn [length seq zip zip_with foldl list_find].
  rewrite IH by done. cbn [fst snd]. destruct (decide (y = x)) as [->|Hne].
  - cbn. destruct (list_find (λ y, y = x) l) as [[i z]|] eqn:Hf.
    + apply list_find_Some in Hf as (Hz%list_elem_of_lookup_2 & -> & _). done.
    + by rewrite lookup_insert_eq, Nat.add_0_r.
  - destruct (list_find (λ y, y = x) l) as [[i z]|]; cbn.
    + f_equal. lia.
    + by rewrite lookup_insert_ne.
Qed.

(** The dict maps an id to its position among the distinct ids. *)
Lemma enumerate_map_lookup (l : list string) (x : string) (i : nat) :
  NoDup l → (enumerate_map l !! x = Some i ↔ l !! i = Some x).
Proof.
  intros Hnd. unfold enumerate_map. rewrite enumerate_map_from by done.
  rewrite lookup_empty. destruct (list_find (λ y, y = x) l) as [[j z]|] eqn:Hf.
  - apply list_find_Some in Hf as (Hj & -> & _). cbn. split.
    + by intros [= <-].
    + intros Hi. f_equal. by eapply NoDup_lookup.
  - split; [done|]. intros Hi. apply list_find_None in Hf.
    rewrite Forall_forall in Hf. by destruct (Hf x (list_elem_of_lookup_2 _ _ _ Hi)).
Qed.

Lemma map_result_Ok {A B} (f : A → result B) (g : A → B) (l : list A) :
  (∀ x, x ∈ l → f x = Ok (g x)) → map_result f l = Ok (g <$> l).
Proof.
  induction l as [|x l IH]; intros Hf; [done|]. cbn.
  rewrite (Hf x) by left. cbn. rewrite IH; [done|]. intros y Hy. apply Hf. by right.
Qed.

Lemma StronglySorted_lookup_lt {A} (R : relation A) (l : list A) (i j : nat) (x y : A) :
  StronglySorted R l → i < j → l !! i = Some x → l !! j = Some y → R x y.
Proof.
  intros Hs. revert i j. induction Hs as [|z l Hs IH Hall]; intros i j Hij Hi Hj.
  { done. }
  destruct j as [|j]; [lia|]. cbn in Hj. destruct i as [|i].
  - injection Hi as ->. rewrite Forall_forall in Hall.
    apply Hall. by eapply list_elem_of_lookup_2.
  - cbn in Hi. apply (IH i j); [lia|done..].
Qed.

(** [ordered_ids] returns, for every id, the number the dict holds for it,
    which is the position of the id among the distinct ids. *)
Lemma ordered_ids_rank_of (ids : list string) :
  ordered_ids ids = Ok (rank_of ids <$> ids) ∧
  ∀ x, x ∈ ids → np_unique ids !! rank_of ids x = Some x.
Proof.
  pose proof (np_unique_NoDup ids) as Hnd.
  assert (Hg : ∀ x, x ∈ ids →
    np_unique ids !! rank_of ids x = Some x ∧
    enumerate_map (np_unique ids) !! x = Some (rank_of ids x)).
  { intros x Hx. apply elem_of_np_unique, list_elem_of_lookup in Hx as [r Hr].
    pose proof Hr as Hm. apply enumerate_map_lookup in Hm; [|done].
    unfold rank_of. by rewrite Hm. }
  split.
  - unfold ordered_ids. apply map_result_Ok. intros x Hx.
    unfold dict_getitem. by destruct (Hg x Hx) as [_ ->].
  - intros x Hx. by destruct (Hg x Hx).
Qed.

(** Every position among the distinct ids is the number of some id. *)
Lemma rank_of_dense (ids : list string) (n : nat) :
  n < length (remove_dups ids) → ∃ x, x ∈ ids ∧ rank_of ids x = n.
Proof.
  intros Hn. destruct (ordered_ids_rank_of ids) as [_ Hg].
  assert (Hlen : length (remove_dups ids) = length (np_unique ids)).
  { unfold np_unique. by rewrite merge_sort_Permutation. }
  rewrite Hlen in Hn. destruct (lookup_lt_is_Some_2 _ n Hn) as [x Hx].
  assert (Hin : x ∈ ids) by (by eapply elem_of_np_unique, list_elem_of_lookup_2).
  exists x. split; [done|].
  eapply NoDup_lookup; [apply np_unique_NoDup|by apply Hg|done].
Qed.

Lemma rank_of_lt (ids : list string) (x : string) :
  x ∈ ids → rank_of ids x < length (remove_dups ids).
Proof.
  intros Hx. destruct (ordered_ids_rank_of ids) as [_ Hg].
  assert (Hlen : length (remove_dups ids) = length (np_unique ids)).
  { unfold np_unique. by rewrite merge_sort_Permutation. }
  rewrite Hlen. by eapply lookup_lt_Some, Hg.
Qed.

(** X28. On ids none of which ends with a NUL character [ordered_ids] does
    not raise and replaces every id by its rank among the distinct ids:
    the result is as long as the input; two positions get the same number
    exactly when they hold the same id; the numbers are ordered as the ids
    are; and the numbers that occur are exactly [0 .. k - 1] for [k]
    distinct ids, so that the largest plus one is the number of distinct
    ids. *)
Theorem ordered_ids_ranks (ids : list string) :
  Forall (λ x, ends_with_nul x = false) ids →
  ∃ out, ordered_ids ids = Ok out ∧ length out = length ids ∧
    (∀ i j x y a b,
       ids !! i = Some x → ids !! j = Some y →
       out !! i = Some a → out !! j = Some b →
       (a = b ↔ x = y) ∧ (a ≤ b ↔ String.le x y)) ∧
    (∀ n, n ∈ out ↔ n < length (remove_dups ids)).
Proof.
  intros _. destruct (ordered_ids_rank_of ids) as [Hrun Hg].
  exists (rank_of ids <$> ids). split; [done|].
  split; [by rewrite length_fmap|]. split.
  - intros i j x y a b Hi Hj Ha Hb. rewrite list_lookup_fmap in Ha, Hb.
    rewrite Hi in Ha. rewrite Hj in Hb. cbn in Ha, Hb.
    injection Ha as <-. injection Hb as <-.
    pose proof (Hg x (list_elem_of_lookup_2 _ _ _ Hi)) as Hx.
    pose proof (Hg y (list_elem_of_lookup_2 _ _ _ Hj)) as Hy.
    pose proof (np_unique_sorted ids) as Hs.
    split; [split; [intros Heq; rewrite Heq in Hx; congruence|by intros ->]|].
    split.
    + intros Hle. destruct (decide (rank_of ids x = rank_of ids y)) as [Heq|Hne].
      * rewrite Heq in Hx. assert (x = y) as -> by congruence. done.
      * apply (StronglySorted_lookup_lt _ (np_unique ids) (rank_of ids x)
                 (rank_of ids y)); [done|lia|done..].
    + intros Hle. destruct (decide (rank_of ids x ≤ rank_of ids y)) as [|Hgt]; [done|].
      assert (String.le y x) as Hle'.
      { apply (StronglySorted_lookup_lt _ (np_unique ids) (rank_of ids y)
                 (rank_of ids x)); [done|lia|done..]. }
      assert (x = y) as -> by (by apply (anti_symm String.le)). lia.
  - intros n. rewrite list_elem_of_fmap. split.
    + intros (x & -> & Hx). by apply rank_of_lt.
    + intros Hn. destruct (rank_of_dense ids n Hn) as (x & Hx & <-). by exists x.
Qed.

Lemma ordered_ids_ranks_witness :
  ∃ out, ordered_ids ["bob"; "ann"; "bob"] = Ok out ∧
    length out = length ["bob"; "ann"; "bob"] ∧
    (∀ i j x y a b,
       ["bob"; "ann"; "bob"] !! i = Some x → ["bob"; "ann"; "bob"] !! j = Some y →
       out !! i = Some a → out !! j = Some b →
       (a = b ↔ x = y) ∧ (a ≤ b ↔ String.le x y)) ∧
    (∀ n, n ∈ out ↔ n < length (remove_dups ["bob"; "ann"; "bob"])).
Proof.
  apply (ordered_ids_ranks ["bob"; "ann"; "bob"]).
  repeat constructor.
Defined.

(** X29. The labels of [DataSpeech]: for a file list with one [(person, speech)]
    pair per file, the labelling returns the files in their order, each
    with the rank of its speech id; the number of labels is the number of
    distinct speech ids, every label is below it, and two files get the
    same label exactly when their speech ids are the same, whoever the
    persons are. *)
Theorem DataSpeech_labels_by_speech (files : list string)
    (matches : list (string * string)) :
  files ≠ [] → length matches = length files →
  ∃ labels,
    DataSpeech_data_list files matches
      = Ok (length (remove_dups (matches.*2)), zip files labels) ∧
    length labels = length files ∧
    (∀ l, l ∈ labels → l < length (remove_dups (matches.*2))) ∧
    (∀ i j p q a b,
       matches !! i = Some p → matches !! j = Some q →
       labels !! i = Some a → labels !! j = Some b →
       (a = b ↔ p.2 = q.2)).
Proof.
  intros Hne Hlen. unfold DataSpeech_data_list.
  destruct matches as [|m0 ms] eqn:Hm; [by destruct files|]. rewrite <- Hm in *.
  clear m0 ms Hm.
  destruct (ordered_ids_rank_of (matches.*1)) as [-> _].
  destruct (ordered_ids_rank_of (matches.*2)) as [-> Hg].
  cbn [mbind result_bind].
  set (labels := rank_of (matches.*2) <$> matches.*2).
  assert (Hl : length labels = length matches).
  { subst labels. by rewrite !length_fmap. }
  set (k := length (remove_dups (matches.*2))) in *.
  assert (Hdense : ∀ n, n ∈ labels ↔ n < k).
  { intros n. subst labels. rewrite list_elem_of_fmap. split.
    - intros (x & -> & Hx). by apply rank_of_lt.
    - intros Hn. destruct (rank_of_dense _ n Hn) as (x & Hx & <-). by exists x. }
  assert (Hk : 0 < k).
  { destruct labels as [|l0 ls] eqn:El.
    - destruct files; [done|]. cbn in *. lia.
    - assert (l0 ∈ l0 :: ls) as Hin by left. apply Hdense in Hin. lia. }
  assert (py_max labels = Ok (k - 1)) as ->.
  { destruct (py_max labels) as [m|e] eqn:Hmax.
    - apply py_max_spec in Hmax as [Hin Hall]. apply Hdense in Hin.
      assert (k - 1 ∈ labels) as Hlast by (apply Hdense; lia).
      rewrite Forall_forall in Hall. apply Hall in Hlast. f_equal. lia.
    - destruct labels; [|done]. destruct files; [done|]. cbn in *. lia. }
  cbn [mbind result_bind].
  assert (map_result
            (λ i, f ← getitem files i; l ← getitem labels i; Ok (f, l))
            (seq 0 (length files)) = Ok (zip files labels)) as ->.
  { assert (Hll : length labels = length files) by lia. clear -Hll.
    rewrite (map_result_Ok _ (λ i, (default ""%string (files !! i), default 0 (labels !! i)))).
    - f_equal. apply list_eq. intros i. rewrite list_lookup_fmap.
      rewrite lookup_zip_with.
      destruct (decide (i < length files)) as [Hi|Hi].
      + rewrite lookup_seq_lt by done. cbn.
        destruct (lookup_lt_is_Some_2 files i Hi) as [f ->].
        destruct (lookup_lt_is_Some_2 labels i ltac:(lia)) as [l ->]. done.
      + rewrite lookup_seq_ge by lia. cbn.
        by rewrite (proj2 (lookup_ge_None files i)) by lia.
    - intros i [_ Hi]%elem_of_seq. unfold getitem.
      destruct (lookup_lt_is_Some_2 files i Hi) as [f ->].
      destruct (lookup_lt_is_Some_2 labels i ltac:(lia)) as [l ->]. done. }
  cbn [mbind result_bind]. exists labels.
  replace (k - 1 + 1) with k by lia. split; [done|]. split; [lia|]. split.
  - intros l Hl'. by apply Hdense.
  - intros i j p q a b Hi Hj Ha Hb. subst labels.
    rewrite !list_lookup_fmap in Ha, Hb. rewrite Hi in Ha. rewrite Hj in Hb.
    cbn in Ha, Hb. injection Ha as <-. injection Hb as <-.
    assert (Hp : p.2 ∈ matches.*2).
    { apply list_elem_of_fmap. exists p. split; [done|].
      by eapply list_elem_of_lookup_2. }
    assert (Hq : q.2 ∈ matches.*2).
    { apply list_elem_of_fmap. exists q. split; [done|].
      by eapply list_elem_of_lookup_2. }
    pose proof (Hg _ Hp) as Hp'. pose proof (Hg _ Hq) as Hq'.
    split; [intros Heq; rewrite Heq in Hp'; congruence|by intros ->].
Qed.

Lemma DataSpeech_labels_by_speech_witness :
  ∃ labels,
    DataSpeech_data_list speech_files speech_matches
      = Ok (length (remove_dups (speech_matches.*2)), zip speech_files labels) ∧
    length labels = length speech_files ∧
    (∀ l, l ∈ labels → l < length (remove_dups (speech_matches.*2))) ∧
    (∀ i j p q a b,
       speech_matches !! i = Some p → speech_matches !! j = Some q →
       labels !! i = Some a → labels !! j = Some b →
       (a = b ↔ p.2 = q.2)).
Proof.
  apply (DataSpeech_labels_by_speech speech_files speech_matches).
  - done.
  - reflexivity.
Defined.

(** ** The labels of [DataVoxCeleb] *)

Lemma elem_of_concat_imap {A B} (f : nat → A → list B) (l : list A) (y : B) :
  y ∈ concat (imap f l) ↔ ∃ i x, l !! i = Some x ∧ y ∈ f i x.
Proof.
  revert f. induction l as [|x l IH]; intros f.
  - cbn. split; [by intros ?%elem_of_nil|by intros (i & x & ? & _)].
  - rewrite imap_cons. cbn [concat]. rewrite elem_of_app, IH. split.
    + intros [Hy|(i & x' & Hi & Hy)]; [by exists 0, x|by exists (S i), x'].
    + intros ([|i] & x' & Hi & Hy); [left|right].
      * by injection Hi as ->.
      * by exists i, x'.
Qed.

(** The list built by the walk: [(f, i)] is in it exactly when [f] is one
    of the files of the [i]-th speaker directory. *)
Lemma DataVoxCeleb_data_list_elem (dataset : string) (tree : voxceleb_tree)
    (f : string) (i : nat) :
  (f, i) ∈ (DataVoxCeleb_data_list dataset tree).2 ↔
  ∃ d, dataset_ids dataset tree !! i = Some d ∧ f ∈ vox_files tree d.
Proof.
  unfold DataVoxCeleb_data_list. cbn [snd]. rewrite elem_of_concat_imap. split.
  - intros (j & d & Hj & Hf). apply list_elem_of_fmap in Hf as (f' & [= -> ->] & Hf).
    by exists d.
  - intros (d & Hi & Hf). exists i, d. split; [done|].
    apply list_elem_of_fmap. by exists f.
Qed.

(** X30. Labels stay with their files: whatever [get_files_origin] returns for
    the list of the walk, every entry [(f, i)] of it has a label below
    [num_labels], and [f] is one of the files of the [i]-th speaker
    directory, which is a directory directly under the dataset
    directory. *)
Theorem DataVoxCeleb_labels (g : rng) (self : DataBase) (tree : voxceleb_tree)
    (names : list string) (dl : list entry) (f : string) (i : nat) :
  get_files_origin g self
    (Discovery names (DataVoxCeleb_data_list (dataset self) tree).2) = Ok dl →
  (f, i) ∈ dl →
  i < (DataVoxCeleb_data_list (dataset self) tree).1 ∧
  ∃ name, name ∈ vox_listdir tree ∧
    vox_isdir tree (path_join (dataset self) name) = true ∧
    dataset_ids (dataset self) tree !! i = Some (path_join (dataset self) name) ∧
    f ∈ vox_files tree (path_join (dataset self) name).
Proof.
  intros Ho Hin. apply get_files_origin_inv in Ho as (Hb & -> & _).
  cbn [found] in Hin.
  rewrite (group_shuffle_perm _ _ _ _ _ Hb) in Hin.
  apply subseteq_take in Hin. rewrite pre_shuffled_perm in Hin.
  apply DataVoxCeleb_data_list_elem in Hin as (d & Hi & Hf).
  split; [by apply lookup_lt_Some in Hi|].
  pose proof (list_elem_of_lookup_2 _ _ _ Hi) as Hd.
  apply list_elem_of_filter in Hd as [Hdir Hd].
  apply list_elem_of_fmap in Hd as (name & -> & Hname). by exists name.
Qed.

Lemma DataVoxCeleb_labels_witness :
  1 < (DataVoxCeleb_data_list (dataset voxceleb_db) two_speakers).1 ∧
  ∃ name, name ∈ vox_listdir two_speakers ∧
    vox_isdir two_speakers (path_join (dataset voxceleb_db) name) = true ∧
    dataset_ids (dataset voxceleb_db) two_speakers !! 1
      = Some (path_join (dataset voxceleb_db) name) ∧
    "data/id2/c.wav" ∈ vox_files two_speakers (path_join (dataset voxceleb_db) name).
Proof.
  apply (DataVoxCeleb_labels rng0 voxceleb_db two_speakers []
           [("data/id1/b.wav", 0); ("data/id2/c.wav", 1); ("data/id2/d.wav", 1);
            ("data/id1/a.wav", 0)] "data/id2/c.wav" 1).
  - vm_compute. reflexivity.
  - right. left.
Defined.

(** ** The crop *)

(** X10. [process_sample] reads the file once: at the rate [pp_rate] (the
    native rate when [pp_rate] is not positive), for [|pp_duration|]
    seconds, from an offset that lies in the clip. The offset is [0]
    unless [pp_duration] is positive and the clip is longer than the
    slice; then it is drawn from [[0, duration - slice_duration]], so
    that, for a [random.uniform] that stays in its range, the slice ends
    no later than the clip. Two decoders that agree on this one read give
    the same result. *)
Theorem process_sample_reads_crop (get_duration : string → Q)
    (load load' : string → option Z → Q → Q → result (list Q * Z))
    (uniform : Q → Q → Q) (augment : list (list Q) → list (list Q))
    (file : string) (label : nat) (config : pp_config) :
  (∀ a b, (a <= b)%Q → (a <= uniform a b)%Q ∧ (uniform a b <= b)%Q) →
  let offset := load_offset get_duration uniform file config in
  let slice_duration := Qabs (pp_duration config) in
  (load file (load_rate config) offset slice_duration
     = load' file (load_rate config) offset slice_duration →
   process_sample get_duration load uniform augment file label config
     = process_sample get_duration load' uniform augment file label config) ∧
  (0 <= offset)%Q ∧
  ((pp_duration config <= 0)%Q ∨ (get_duration file <= slice_duration)%Q →
     offset = 0%Q) ∧
  ((0 < pp_duration config)%Q → (slice_duration < get_duration file)%Q →
     (offset + slice_duration <= get_duration file)%Q).
Proof.
  intros Hu offset slice_duration. subst offset slice_duration.
  split; [|split; [|split]].
  - intros Hload. unfold process_sample.
    fold (load_rate config). fold (load_offset get_duration uniform file config).
    by rewrite Hload.
  - unfold load_offset.
    destruct (Qgtb (pp_duration config) 0 && _) eqn:Hc; [|done].
    apply andb_true_iff in Hc as [_ Hlong%Qgtb_gt].
    apply Hu. apply Qlt_le_weak. by apply (Qlt_minus_iff (Qabs (pp_duration config))).
  - unfold load_offset. intros [Hle|Hle].
    + apply Qgtb_le in Hle. by rewrite Hle.
    + apply Qgtb_le in Hle. rewrite Hle. by rewrite andb_false_r.
  - intros Hpos Hlong. unfold load_offset.
    apply Qgtb_gt in Hpos. rewrite Hpos. pose proof Hlong as Hlong'.
    apply Qgtb_gt in Hlong. rewrite Hlong. cbn [andb].
    destruct (Hu 0%Q (get_duration file - Qabs (pp_duration config))%Q) as [_ Hub].
    { apply Qlt_le_weak. by apply (Qlt_minus_iff (Qabs (pp_duration config))). }
    apply (Qplus_le_l _ _ (- Qabs (pp_duration config))).
    eapply Qle_trans; [|exact Hub]. apply Qle_lteq. right. ring.
Qed.

Lemma process_sample_reads_crop_witness :
  let config := PPConfig 16000 1 1 in
  let offset := load_offset (λ _, 4%Q) no_offset "clip.wav" config in
  let slice_duration := Qabs (pp_duration config) in
  (decode_as deep_clip "clip.wav" (load_rate config) offset slice_duration
     = decode_as low_clip "clip.wav" (load_rate config) offset slice_duration →
   process_sample (λ _, 4%Q) (decode_as deep_clip) no_offset no_augmentation
     "clip.wav" 7 config
     = process_sample (λ _, 4%Q) (decode_as low_clip) no_offset no_augmentation
         "clip.wav" 7 config) ∧
  (0 <= offset)%Q ∧
  ((pp_duration config <= 0)%Q ∨ (4 <= slice_duration)%Q → offset = 0%Q) ∧
  ((0 < pp_duration config)%Q → (slice_duration < 4)%Q →
     (offset + slice_duration <= 4)%Q).
Proof.
  apply (process_sample_reads_crop (λ _, 4%Q) (decode_as deep_clip)
           (decode_as low_clip) no_offset no_augmentation "clip.wav" 7
           (PPConfig 16000 1 1)).
  intros a b Hab. unfold no_offset. split; [apply Qle_refl|done].
Defined.

(** ** Futures that raise *)

Lemma drain_await_resolved (await : task → result ()) (fuel prefetch : nat)
    (futures yielded : list task) :
  (∀ t, t ∈ futures → await t = Ok ()) →
  drain_await await fuel prefetch futures yielded
    = drain fuel prefetch futures yielded.
Proof.
  revert futures yielded. induction fuel as [|fuel IH]; intros futures yielded Hr;
    [done|].
  cbn [drain_await drain]. destruct (prefetch <=? length futures); [|done].
  destruct futures as [|f futures]; [done|].
  rewrite (Hr f) by left. apply IH. intros t Ht. apply Hr. by right.
Qed.

Lemma flush_await_resolved {T} (result_of : T → result ()) (futures yielded : list T) :
  (∀ t, t ∈ futures → result_of t = Ok ()) →
  flush_await result_of futures yielded = ([], yielded ++ futures, Ok ()).
Proof.
  revert yielded. induction futures as [|f futures IH]; intros yielded Hr.
  { by rewrite app_nil_r. }
  cbn [flush_await]. rewrite (Hr f) by left.
  rewrite IH, <- app_assoc; [done|]. intros t Ht. apply Hr. by right.
Qed.

(** The loops with futures that may raise run as the loops above do as
    long as the futures that were submitted resolve. *)
Lemma step_body_await_resolved (await : task → result ()) (self : DataBase)
    (epoch step : nat) (st : gen_state) :
  let out := step_body self epoch step st in
  (∀ t, t ∈ g_yielded out.1 ++ g_futures out.1 → await t = Ok ()) →
  step_body_await await self epoch step st = out.
Proof.
  intros out Hr. subst out.
  pose proof (step_body_spec self epoch step st) as (_ & _ & _ & _ & Hq & _).
  cbn zeta in Hq. rewrite Hq in Hr. clear Hq.
  unfold step_body_await, step_body. cbn zeta.
  rewrite drain_await_resolved; [done|].
  intros t Ht. apply Hr. apply elem_of_app in Ht as [Ht|Ht].
  - apply elem_of_app. left. apply elem_of_app. by right.
  - apply elem_of_app. by right.
Qed.

Lemma steps_loop_await_resolved (await : task → result ()) (self : DataBase)
    (epoch : nat) (steps : list nat) (st : gen_state) :
  let out := steps_loop self epoch steps st in
  (∀ t, t ∈ g_yielded out.1 ++ g_futures out.1 → await t = Ok ()) →
  steps_loop_await await self epoch steps st = out.
Proof.
  revert st. induction steps as [|step steps IH]; intros st; [done|].
  cbn [steps_loop steps_loop_await]. cbn zeta.
  pose proof (step_body_await_resolved await self epoch step st) as Hstep.
  cbn zeta in Hstep.
  destruct (step_body self epoch step st) as [st' [[]|e]] eqn:Hb; cbn [fst snd] in *.
  - intros Hr. rewrite Hstep.
    + by apply IH.
    + pose proof (steps_loop_spec self epoch steps st')
        as (_ & _ & _ & ran & _ & _ & _ & Hq).
      cbn zeta in Hq. rewrite Hq in Hr. intros t Ht. apply Hr.
      apply elem_of_app. by left.
  - intros Hr. by rewrite Hstep.
Qed.

Lemma epoch_body_await_resolved (await : task → result ()) (self : DataBase)
    (dataset epoch_steps max_steps start : nat) (shuffle : bool) (epoch : nat)
    (st : gen_state) :
  let out := epoch_body self dataset epoch_steps max_steps start shuffle epoch st in
  (∀ t, t ∈ g_yielded out.1 ++ g_futures out.1 → await t = Ok ()) →
  epoch_body_await await self dataset epoch_steps max_steps start shuffle epoch st
    = out.
Proof.
  unfold epoch_body, epoch_body_await. cbn zeta.
  destruct (if 0 <? epoch then _ else _) as [st1 [[]|e]]; [|done].
  apply steps_loop_await_resolved.
Qed.

Lemma epochs_loop_await_resolved (await : task → result ()) (self : DataBase)
    (dataset epoch_steps max_steps start : nat) (shuffle : bool)
    (epochs : list nat) (st : gen_state) :
  let out := epochs_loop self dataset epoch_steps max_steps start shuffle epochs st in
  (∀ t, t ∈ g_yielded out.1 ++ g_futures out.1 → await t = Ok ()) →
  epochs_loop_await await self dataset epoch_steps max_steps start shuffle epochs st
    = out.
Proof.
  revert st. induction epochs as [|e epochs IH]; intros st; [done|].
  cbn [epochs_loop epochs_loop_await]. cbn zeta.
  pose proof (epoch_body_await_resolved await self dataset epoch_steps max_steps
    start shuffle e st) as Hbody.
  cbn zeta in Hbody.
  destruct (epoch_body self dataset epoch_steps max_steps start shuffle e st)
    as [st' [[]|err]] eqn:Hb; cbn [fst snd] in *.
  - intros Hr. rewrite Hbody.
    + by apply IH.
    + pose proof (epochs_loop_spec self dataset epoch_steps max_steps start shuffle
        epochs st') as (extra & _ & Hq & _).
      cbn zeta in Hq. rewrite Hq in Hr. intros t Ht. apply Hr.
      apply elem_of_app. by left.
  - intros Hr. by rewrite Hbody.
Qed.

(** A run in which every future that is submitted resolves is the run
    described by [gen_batches_origin]. *)
Lemma gen_batches_origin_await_resolved (await : task → result ())
    (self : DataBase) (σ : gmap nat (list entry)) (g : rng)
    (dataset epoch_steps num_epochs start : nat) (shuffle : bool) :
  let run := gen_batches_origin self σ g dataset epoch_steps num_epochs start shuffle in
  (∀ t, t ∈ g_submitted run.1 → await t = Ok ()) →
  gen_batches_origin_await await self σ g dataset epoch_steps num_epochs start shuffle
    = run.
Proof.
  unfold gen_batches_origin, gen_batches_origin_await. cbn zeta.
  destruct (floordiv start epoch_steps) as [first|]; [|done].
  pose proof (epochs_loop_await_resolved await self dataset epoch_steps
    (epoch_steps * num_epochs) start shuffle (seq first (num_epochs - first))
    (GenState σ g dataset [] [] [])) as Hloop.
  pose proof (epochs_loop_spec self dataset epoch_steps (epoch_steps * num_epochs)
    start shuffle (seq first (num_epochs - first)) (GenState σ g dataset [] [] []))
    as (extra & Hs & Hq & _).
  cbn zeta in Hloop, Hs, Hq.
  destruct (epochs_loop _ _ _ _ _ _ _ _) as [st [[]|e]]; cbn [fst snd] in *.
  - cbn [g_submitted g_yielded g_futures app] in *. intros Hr.
    rewrite Hloop by (rewrite Hq, <- Hs; exact Hr).
    rewrite flush_await_resolved; [done|].
    intros t Ht. apply Hr. rewrite Hs, <- Hq. apply elem_of_app. by right.
  - cbn [g_submitted g_yielded g_futures app] in *. intros Hr.
    by rewrite Hloop by (rewrite Hq, <- Hs; exact Hr).
Qed.

Lemma drain_packed_await_resolved (load : ptask → result ()) (fuel prefetch : nat)
    (futures yielded : list ptask) :
  (∀ t, t ∈ futures → load t = Ok ()) →
  drain_await load fuel prefetch futures yielded
    = drain_packed fuel prefetch futures yielded.
Proof.
  revert futures yielded. induction fuel as [|fuel IH]; intros futures yielded Hr;
    [done|].
  cbn [drain_await drain_packed]. destruct (prefetch <=? length futures); [|done].
  destruct futures as [|f futures]; [done|].
  rewrite (Hr f) by left. apply IH. intros t Ht. apply Hr. by right.
Qed.

(** What the loops of the packed generator have yielded or hold in flight
    grows at the end only. *)
Lemma packed_step_body_grows (self : DataBase) (dataset : list string)
    (epoch step : nat) (futures yielded : list ptask) :
  let out := packed_step_body self dataset epoch step futures yielded in
  ∃ extra, out.1.2 ++ out.1.1 = (yielded ++ futures) ++ extra.
Proof.
  unfold packed_step_body. destruct (getitem dataset step) as [a|e].
  - pose proof (drain_packed_spec (S (length (futures ++ [PTask epoch step a])))
      (prefetch self) (futures ++ [PTask epoch step a]) yielded) as [Hq _].
    exists [PTask epoch step a]. cbn zeta in *. by rewrite Hq, app_assoc.
  - exists []. by rewrite app_nil_r.
Qed.

Lemma packed_steps_loop_grows (self : DataBase) (dataset : list string)
    (epoch : nat) (steps : list nat) (futures yielded : list ptask) :
  let out := packed_steps_loop self dataset epoch steps futures yielded in
  ∃ extra, out.1.2 ++ out.1.1 = (yielded ++ futures) ++ extra.
Proof.
  revert futures yielded. induction steps as [|step steps IH]; intros futures yielded.
  { exists []. by rewrite app_nil_r. }
  cbn [packed_steps_loop]. cbn zeta.
  destruct (packed_step_body_grows self dataset epoch step futures yielded)
    as [extra Hq].
  destruct (packed_step_body _ _ _ _ _ _) as [[futures' yielded'] [[]|e]];
    cbn [fst snd] in *.
  - destruct (IH futures' yielded') as [extra' Hq'].
    exists (extra ++ extra'). by rewrite Hq', Hq, app_assoc.
  - by exists extra.
Qed.

Lemma packed_epochs_loop_grows (self : DataBase) (dataset : list string)
    (epoch_steps max_steps start : nat) (epochs : list nat)
    (futures yielded : list ptask) :
  let out := packed_epochs_loop self dataset epoch_steps max_steps start epochs
               futures yielded in
  ∃ extra, out.1.2 ++ out.1.1 = (yielded ++ futures) ++ extra.
Proof.
  revert futures yielded. induction epochs as [|e epochs IH]; intros futures yielded.
  { exists []. by rewrite app_nil_r. }
  cbn [packed_epochs_loop]. cbn zeta.
  destruct (packed_steps_loop_grows self dataset e
    (seq (start - epoch_steps * e)
       (epoch_steps `min` (max_steps - epoch_steps * e) - (start - epoch_steps * e)))
    futures yielded) as [extra Hq].
  destruct (packed_steps_loop _ _ _ _ _ _) as [[futures' yielded'] [[]|err]];
    cbn [fst snd] in *.
  - destruct (IH futures' yielded') as [extra' Hq'].
    exists (extra ++ extra'). by rewrite Hq', Hq, app_assoc.
  - by exists extra.
Qed.

Lemma packed_step_body_await_resolved (load : ptask → result ()) (self : DataBase)
    (dataset : list string) (epoch step : nat) (futures yielded : list ptask) :
  let out := packed_step_body self dataset epoch step futures yielded in
  (∀ t, t ∈ out.1.2 ++ out.1.1 → load t = Ok ()) →
  packed_step_body_await load self dataset epoch step futures yielded = out.
Proof.
  unfold packed_step_body, packed_step_body_await.
  destruct (getitem dataset step) as [a|e]; [|done]. cbn zeta.
  pose proof (drain_packed_spec (S (length (futures ++ [PTask epoch step a])))
    (prefetch self) (futures ++ [PTask epoch step a]) yielded) as [Hq _].
  cbn zeta in Hq. rewrite Hq. intros Hr.
  apply drain_packed_await_resolved. intros t Ht. apply Hr.
  apply elem_of_app. by right.
Qed.

Lemma packed_steps_loop_await_resolved (load : ptask → result ()) (self : DataBase)
    (dataset : list string) (epoch : nat) (steps : list nat)
    (futures yielded : list ptask) :
  let out := packed_steps_loop self dataset epoch steps futures yielded in
  (∀ t, t ∈ out.1.2 ++ out.1.1 → load t = Ok ()) →
  packed_steps_loop_await load self dataset epoch steps futures yielded = out.
Proof.
  revert futures yielded. induction steps as [|step steps IH]; intros futures yielded;
    [done|].
  cbn [packed_steps_loop packed_steps_loop_await]. cbn zeta.
  pose proof (packed_step_body_await_resolved load self dataset epoch step futures
    yielded) as Hstep.
  cbn zeta in Hstep.
  destruct (packed_step_body self dataset epoch step futures yielded)
    as [[futures' yielded'] [[]|e]] eqn:Hb; cbn [fst snd] in *.
  - intros Hr. rewrite Hstep.
    + by apply IH.
    + destruct (packed_steps_loop_grows self dataset epoch steps futures' yielded')
        as [extra Hq].
      cbn zeta in Hq. rewrite Hq in Hr. intros t Ht. apply Hr.
      apply elem_of_app. by left.
  - intros Hr. by rewrite Hstep.
Qed.

Lemma packed_epochs_loop_await_resolved (load : ptask → result ())
    (self : DataBase) (dataset : list string) (epoch_steps max_steps start : nat)
    (epochs : list nat) (futures yielded : list ptask) :
  let out := packed_epochs_loop self dataset epoch_steps max_steps start epochs
               futures yielded in
  (∀ t, t ∈ out.1.2 ++ out.1.1 → load t = Ok ()) →
  packed_epochs_loop_await load self dataset epoch_steps max_steps start epochs
    futures yielded = out.
Proof.
  revert futures yielded. induction epochs as [|e epochs IH]; intros futures yielded;
    [done|].
  cbn [packed_epochs_loop packed_epochs_loop_await]. cbn zeta.
  pose proof (packed_steps_loop_await_resolved load self dataset e
    (seq (start - epoch_steps * e)
       (epoch_steps `min` (max_steps - epoch_steps * e) - (start - epoch_steps * e)))
    futures yielded) as Hsteps.
  cbn zeta in Hsteps.
  destruct (packed_steps_loop self dataset e _ futures yielded)
    as [[futures' yielded'] [[]|err]] eqn:Hb; cbn [fst snd] in *.
  - intros Hr. rewrite Hsteps.
    + by apply IH.
    + destruct (packed_epochs_loop_grows self dataset epoch_steps max_steps start
        epochs futures' yielded') as [extra Hq].
      cbn zeta in Hq. rewrite Hq in Hr. intros t Ht. apply Hr.
      apply elem_of_app. by left.
  - intros Hr. by rewrite Hsteps.
Qed.

(** A run of the packed generator in which every archive that is yielded
    could be loaded is the run described by [gen_batches_packed]. *)
Lemma gen_batches_packed_await_resolved (load : ptask → result ())
    (self : DataBase) (dataset : list string) (epoch_steps num_epochs start : nat) :
  let run := gen_batches_packed self dataset epoch_steps num_epochs start in
  run.2 = Ok () → (∀ t, t ∈ run.1 → load t = Ok ()) →
  gen_batches_packed_await load self dataset epoch_steps num_epochs start = run.
Proof.
  unfold gen_batches_packed, gen_batches_packed_await. cbn zeta.
  destruct (floordiv start epoch_steps) as [first|]; [|done].
  pose proof (packed_epochs_loop_await_resolved load self dataset epoch_steps
    (epoch_steps * num_epochs) start (seq first (num_epochs - first)) [] [])
    as Hloop.
  cbn zeta in Hloop.
  destruct (packed_epochs_loop _ _ _ _ _ _ _ _) as [[futures yielded] [[]|e]];
    cbn [fst snd] in *; [|done].
  intros _ Hr. rewrite Hloop by done.
  rewrite flush_await_resolved; [done|].
  intros t Ht. apply Hr. apply elem_of_app. by right.
Qed.

(** X14. In a valid configuration, and when the batch of every step from
    [start] to [epoch_steps * num_epochs] can be extracted, the generator
    runs to its end and yields, in order, the batches of exactly these
    global steps: step [s] is step [s % epoch_steps] of epoch
    [s // epoch_steps], and its window is cut from the caller's list in
    epoch 0 and from the list of that epoch otherwise. *)
Theorem gen_batches_origin_schedule (await : task → result ()) (self : DataBase)
    (σ : gmap nat (list entry)) (g : rng) (dataset : nat) (l : list entry)
    (epoch_steps num_epochs start : nat) (shuffle : bool) :
  σ !! dataset = Some l →
  0 < prefetch self → 0 < epoch_steps → 0 < batch_size self →
  0 < group_size self → batch_size self mod group_size self = 0 →
  (∀ t, task_triple t ∈ schedule self l shuffle g epoch_steps num_epochs start →
        await t = Ok ()) →
  let run := gen_batches_origin_await await self σ g dataset epoch_steps num_epochs
               start shuffle in
  run.2 = Ok () ∧ g_futures run.1 = [] ∧
  task_triple <$> g_yielded run.1
    = schedule self l shuffle g epoch_steps num_epochs start.
Proof.
  intros Hl Hp Hes Hb Hg Hm Hr run.
  destruct (gen_batches_origin_run self σ g dataset l epoch_steps num_epochs start
              shuffle Hl Hp Hes Hb Hg Hm) as (st & Hrun & Hf & Hy).
  pose proof (gen_batches_origin_fifo self σ g dataset epoch_steps num_epochs start
    shuffle) as Hfifo.
  pose proof (gen_batches_origin_await_resolved await self σ g dataset epoch_steps
    num_epochs start shuffle) as Heq.
  cbn zeta in Hfifo, Heq. rewrite Hrun in Hfifo, Heq. cbn [fst snd] in Hfifo, Heq.
  destruct (Hfifo eq_refl) as [Hsub _].
  subst run. rewrite Heq; [done|].
  intros t Ht. apply Hr. rewrite <- Hy, Hsub. by apply list_elem_of_fmap_2.
Qed.

Lemma gen_batches_origin_schedule_witness :
  let run := gen_batches_origin_await two_epochs_resolve gen_db caller_heap rng0 0
               3 2 1 true in
  run.2 = Ok () ∧ g_futures run.1 = [] ∧
  task_triple <$> g_yielded run.1 = schedule gen_db repeated_ids true rng0 3 2 1.
Proof.
  apply (gen_batches_origin_schedule two_epochs_resolve gen_db caller_heap rng0 0
           repeated_ids 3 2 1 true).
  - reflexivity.
  - cbn. lia.
  - lia.
  - cbn. lia.
  - cbn. lia.
  - reflexivity.
  - intros [e s src w] (k & Hk & [_ Hlt]%elem_of_seq)%list_elem_of_fmap.
    unfold task_triple in Hk. cbn [t_epoch t_step t_batch_set] in Hk.
    injection Hk as -> _ _. unfold two_epochs_resolve. cbn [t_epoch].
    change (Nat.divmod k 2 0 2).1 with (k / 3).
    assert (k / 3 < 2) as ->%Nat.ltb_lt; [|done].
    apply Nat.Div0.div_lt_upper_bound. cbn in Hlt. lia.
Defined.

(** X16. With [prefetch = 0] the generator is unusable: a run that has a step
    to do in epoch 0 asks for the batch of that one step; when the batch
    can be extracted the run yields it and then raises [IndexError],
    popping from the empty list of futures; when it cannot, the run
    raises what [extract_batch] raised and yields nothing. *)
Theorem gen_batches_origin_no_prefetch (await : task → result ()) (self : DataBase)
    (σ : gmap nat (list entry)) (g : rng)
    (dataset epoch_steps num_epochs start : nat) (shuffle : bool) :
  prefetch self = 0 → start < epoch_steps → 0 < num_epochs →
  let first := Task 0 start dataset (window_of self (σ !!! dataset) start) in
  let run := gen_batches_origin_await await self σ g dataset epoch_steps num_epochs
               start shuffle in
  g_heap run.1 = σ ∧
  match await first with
  | Ok _ => run.2 = Raise IndexError ∧ g_yielded run.1 = [first]
  | Raise e => run.2 = Raise e ∧ g_yielded run.1 = []
  end.
Proof.
  intros Hp Hs Hn. unfold gen_batches_origin_await, floordiv. cbn zeta.
  destruct (Nat.eqb_spec epoch_steps 0) as [|_]; [lia|].
  rewrite Nat.div_small, Nat.sub_0_r by done.
  destruct num_epochs as [|n]; [lia|]. cbn [seq epochs_loop_await].
  unfold epoch_body_await. cbn [Nat.ltb Nat.leb]. rewrite Nat.mul_0_r, !Nat.sub_0_r.
  replace (epoch_steps `min` (epoch_steps * S n) - start)
    with (S (epoch_steps `min` (epoch_steps * S n) - start - 1)) by nia.
  cbn [seq steps_loop_await]. unfold step_body_await. cbn -[window_of]. rewrite Hp.
  cbn -[window_of]. fold (window_of self (σ !!! dataset) start).
  by destruct (await _).
Qed.

Lemma gen_batches_origin_no_prefetch_witness :
  let run := gen_batches_origin_await none_resolves gen_db_no_prefetch caller_heap
               rng0 0 3 2 1 true in
  g_heap run.1 = caller_heap ∧
  run.2 = Raise ValueError ∧ g_yielded run.1 = [].
Proof.
  apply (gen_batches_origin_no_prefetch none_resolves gen_db_no_prefetch caller_heap
           rng0 0 3 2 1 true).
  - reflexivity.
  - lia.
  - lia.
Defined.

(** X17. The packed generator with a positive [prefetch] and at least
    [epoch_steps] archives, all archives of the steps from [start] to
    [epoch_steps * num_epochs] being readable, runs to its end and
    yields, in order, the archives of exactly these global steps; step
    [s] loads the archive at index [s % epoch_steps], the same in every
    epoch. *)
Theorem gen_batches_packed_schedule (load : ptask → result ()) (self : DataBase)
    (dataset : list string) (epoch_steps num_epochs start : nat) :
  0 < prefetch self → 0 < epoch_steps → epoch_steps ≤ length dataset →
  (∀ s, start ≤ s < epoch_steps * num_epochs →
        load (PTask (s / epoch_steps) (s mod epoch_steps)
                (dataset !!! (s mod epoch_steps))) = Ok ()) →
  let run := gen_batches_packed_await load self dataset epoch_steps num_epochs start in
  run.2 = Ok () ∧
  ptask_triple <$> run.1 =
    (λ s, (s / epoch_steps, s mod epoch_steps, dataset !!! (s mod epoch_steps)))
    <$> seq start (epoch_steps * num_epochs - start).
Proof.
  intros Hp Hes Hlen Hr run.
  destruct (gen_batches_packed_epochs self dataset epoch_steps num_epochs start
              Hp Hes Hlen) as [Hok Hq].
  assert (Hsched : ptask_triple <$>
      (gen_batches_packed self dataset epoch_steps num_epochs start).1 =
    (λ s, (s / epoch_steps, s mod epoch_steps, dataset !!! (s mod epoch_steps)))
    <$> seq start (epoch_steps * num_epochs - start)).
  { rewrite Hq.
    destruct (decide (start / epoch_steps < num_epochs)) as [Hlt|Hge].
    - apply (schedule_from_start (λ _ s, dataset !!! s) epoch_steps num_epochs start
        Hes Hlt).
    - replace (num_epochs - start / epoch_steps) with 0 by lia.
      pose proof (Nat.div_mod_eq start epoch_steps).
      replace (epoch_steps * num_epochs - start) with 0 by nia. done. }
  subst run. rewrite gen_batches_packed_await_resolved; [done|done|].
  intros [e s a] Ht. apply (list_elem_of_fmap_2 ptask_triple) in Ht.
  rewrite Hsched in Ht.
  apply list_elem_of_fmap in Ht as (k & Hk & Hin%elem_of_seq).
  unfold ptask_triple in Hk. cbn in Hk. injection Hk as -> -> ->.
  apply Hr. lia.
Qed.

Lemma gen_batches_packed_schedule_witness :
  let run := gen_batches_packed_await archives_but_one gen_db three_paths 3 2 1 in
  run.2 = Ok () ∧
  ptask_triple <$> run.1 =
    (λ s, (s / 3, s mod 3, three_paths !!! (s mod 3))) <$> seq 1 (3 * 2 - 1).
Proof.
  apply (gen_batches_packed_schedule archives_but_one gen_db three_paths 3 2 1).
  - cbn. lia.
  - lia.
  - cbn. lia.
  - intros s Hs. assert (Hm : s mod 3 < 3) by (apply Nat.mod_upper_bound; lia).
    destruct (s mod 3) as [|[|[|?]]]; [done..|lia].
Defined.

(** X20. The validation run of an unpacked object: after a successful
    [get_files] with a [val_size] of at least one batch, and when every
    batch can be extracted, [gen_val] runs to its end, yields
    [val_steps - start] batches, all of epoch 0 and of [batch_size]
    entries, and the windows are the validation set from entry
    [start * batch_size] on, in order. *)
Theorem gen_val_delivers_val_set (await : task → result ())
    (load : ptask → result ()) (g0 g : rng) (self self' : DataBase)
    (env : discovery) (vs : nat) (σ : gmap nat (list entry))
    (val_set_at start : nat) :
  packed self = false → val_size self = Some vs → batch_size self ≤ vs →
  0 < prefetch self →
  get_files g0 self env = Ok self' →
  (∀ t, await t = Ok ()) →
  ∃ val st,
    val_set self' = Some (Sample <$> val) ∧
    gen_val_await await load self' σ g val_set_at start = Some (Batches st (Ok ())) ∧
    g_futures st = [] ∧
    length (g_yielded st) = vs / batch_size self - start ∧
    (∀ t, t ∈ g_yielded st →
          t_epoch t = 0 ∧ length (t_batch_set t) = batch_size self) ∧
    concat (t_batch_set <$> g_yielded st) = drop (start * batch_size self) val.
Proof.
  intros Hp Hv Hvs Hpre H Hr.
  destruct (get_files_config _ _ _ _ H) as (_ & Hbs & Hpk & _ & Hgs & Hpf).
  destruct (get_files_unpacked_inv g0 self self' env vs Hp Hv H)
    as (dl & Ho & Hlt & _ & Hval & _ & _ & Hsteps & _).
  destruct (get_files_origin_group _ _ _ _ Ho) as [Hg Hm].
  apply get_files_origin_inv in Ho as (Hb & _ & _).
  rewrite length_fmap in Hlt.
  set (es := vs / batch_size self) in *.
  assert (Hes : 0 < es) by (apply Nat.div_str_pos; lia).
  pose proof (Nat.div_mod_eq vs (batch_size self)) as Hdm. fold es in Hdm.
  set (val := take (es * batch_size self) dl).
  assert (Hlen : length val = es * batch_size self).
  { subst val. rewrite length_take. nia. }
  rewrite <- fmap_take in Hval. fold val in Hval.
  destruct (gen_batches_origin_run self' (<[val_set_at := val]> σ) g val_set_at val
              es 1 start false) as (st & Hrun & Hf & Hy).
  { apply lookup_insert_eq. } { lia. } { done. } { lia. } { lia. }
  { by rewrite Hbs, Hgs. }
  rewrite schedule_one_epoch in Hy by done.
  exists val, st. split; [done|]. split.
  { unfold gen_val_await, gen_batches_await. rewrite Hval, Hsteps, Hpk, Hp. cbn.
    rewrite entries_of_Sample, gen_batches_origin_await_resolved by done.
    by rewrite Hrun. }
  split; [done|].
  split.
  { rewrite <- (length_fmap task_triple), Hy, length_fmap, length_seq. done. }
  split.
  - intros t Ht. apply (list_elem_of_fmap_2 task_triple) in Ht. rewrite Hy in Ht.
    apply list_elem_of_fmap in Ht as (s & Ht & [Hs1 Hs2]%elem_of_seq).
    injection Ht as -> _ ->. split; [done|].
    rewrite window_of_take_drop, length_take, length_drop, Hbs.
    unfold entry in *. nia.
  - assert (Hw : t_batch_set <$> g_yielded st
                 = window_of self' val <$> seq start (es - start)).
    { change t_batch_set with (snd ∘ task_triple).
      by rewrite list_fmap_compose, Hy, <- list_fmap_compose. }
    rewrite Hw, windows_from, Hbs. apply take_ge. rewrite length_drop.
    unfold entry in *. nia.
Qed.

Lemma gen_val_delivers_val_set_witness :
  ∃ val st,
    val_set six_files_partitioned = Some (Sample <$> val) ∧
    gen_val_await all_resolve all_resolve six_files_partitioned ∅ rng0 0 0
      = Some (Batches st (Ok ())) ∧
    g_futures st = [] ∧
    length (g_yielded st) = 3 / batch_size (unpacked_db 2 3) - 0 ∧
    (∀ t, t ∈ g_yielded st →
          t_epoch t = 0 ∧ length (t_batch_set t) = batch_size (unpacked_db 2 3)) ∧
    concat (t_batch_set <$> g_yielded st)
      = drop (0 * batch_size (unpacked_db 2 3)) val.
Proof.
  apply (gen_val_delivers_val_set all_resolve all_resolve rng0 rng0 (unpacked_db 2 3)
           six_files_partitioned six_files 3 ∅ 0 0).
  - reflexivity.
  - reflexivity.
  - cbn. lia.
  - cbn. lia.
  - vm_compute. reflexivity.
  - done.
Defined.

(** X22. The validation run of a packed object: after a successful [get_files]
    with a [val_size] of at least one batch, and when every archive of
    the validation set can be read, [gen_val] runs to its end and loads,
    in order, the first [val_size // batch_size] archives of the
    directory listing from archive [start] on. *)
Theorem gen_val_packed_archives (await : task → result ())
    (load : ptask → result ()) (g0 g : rng) (self self' : DataBase)
    (env : discovery) (vs : nat) (σ : gmap nat (list entry))
    (val_set_at start : nat) :
  packed self = true → val_size self = Some vs → batch_size self ≤ vs →
  0 < prefetch self →
  get_files g0 self env = Ok self' →
  (∀ t, p_archive t ∈ take (vs / batch_size self)
                        (path_join (dataset self) <$> os_listdir env) →
        load t = Ok ()) →
  ∃ yielded,
    gen_val_await await load self' σ g val_set_at start
      = Some (PackedBatches yielded (Ok ())) ∧
    (∀ t, t ∈ yielded → p_epoch t = 0) ∧
    p_archive <$> yielded
      = drop start (take (vs / batch_size self)
                      (path_join (dataset self) <$> os_listdir env)).
Proof.
  intros Hp Hv Hvs Hpre H Hr.
  destruct (get_files_config _ _ _ _ H) as (_ & _ & Hpk & _ & _ & Hpf).
  pose proof (get_files_batch_size_pos _ _ _ _ _ Hv H) as Hb.
  destruct (get_files_packed_inv g0 self self' env vs Hp Hv H)
    as (Hlt & Hval & _ & _ & Hsteps & _).
  rewrite length_fmap in Hlt.
  set (es := vs / batch_size self) in *.
  assert (Hes : 0 < es) by (apply Nat.div_str_pos; lia).
  set (paths := take es (path_join (dataset self) <$> os_listdir env)) in *.
  assert (Hlen : length paths = es).
  { subst paths. rewrite length_take, length_fmap. lia. }
  assert (Hrefs : ref_of <$> take es ((λ i, Archive (path_join (dataset self) i))
                                        <$> os_listdir env) = paths).
  { subst paths. rewrite fmap_take, <- list_fmap_compose. done. }
  pose proof (gen_batches_packed_epochs self' paths es 1 start) as Hrun.
  destruct Hrun as [Hok Hy]; [lia|done|lia|].
  pose proof (gen_batches_packed_await_resolved load self' paths es 1 start) as Heq.
  cbn zeta in Heq.
  unfold gen_val_await, gen_batches_await.
  rewrite Hval, Hsteps, Hpk, Hp. cbn [mbind option_bind].
  rewrite Hrefs. destruct (gen_batches_packed self' paths es 1 start) as [ys r].
  cbn [fst snd] in *. subst r.
  assert (Hy' : ptask_triple <$> ys
                = (λ s, (0, s, paths !!! s)) <$> seq start (es - start)).
  { rewrite Hy. destruct (decide (start < es)) as [Hst|Hst].
    - rewrite Nat.div_small by done. cbn [seq fmap list_fmap concat Nat.sub].
      rewrite app_nil_r, Nat.mul_0_r, !Nat.sub_0_r, Nat.mul_1_r, Nat.min_id. done.
    - assert (1 ≤ start / es) by (apply Nat.div_le_lower_bound; lia).
      replace (1 - start / es) with 0 by lia.
      by replace (es - start) with 0 by lia. }
  assert (Harch : p_archive <$> ys = drop start paths).
  { change p_archive with (snd ∘ ptask_triple).
    rewrite list_fmap_compose, Hy', <- list_fmap_compose.
    rewrite <- Hlen at 1. apply lookups_from. }
  rewrite Heq; [|done|].
  2:{ intros t Ht. apply Hr. apply (list_elem_of_fmap_2 p_archive) in Ht.
      rewrite Harch in Ht. eapply subseteq_drop, Ht. }
  exists ys. split; [done|]. split; [|done].
  intros t Ht. apply (list_elem_of_fmap_2 ptask_triple) in Ht. rewrite Hy' in Ht.
  apply list_elem_of_fmap in Ht as (s & Ht & _). by injection Ht as -> _ _.
Qed.

Lemma gen_val_packed_archives_witness :
  ∃ yielded,
    gen_val_await all_resolve archives_but_one five_archives_partitioned ∅ rng0 0 0
      = Some (PackedBatches yielded (Ok ())) ∧
    (∀ t, t ∈ yielded → p_epoch t = 0) ∧
    p_archive <$> yielded
      = drop 0 (take (8 / batch_size (packed_db 4 8))
                  (path_join (dataset (packed_db 4 8)) <$> os_listdir five_archives)).
Proof.
  apply (gen_val_packed_archives all_resolve archives_but_one rng0 rng0
           (packed_db 4 8) five_archives_partitioned five_archives 8 ∅ 0 0).
  - reflexivity.
  - reflexivity.
  - cbn. lia.
  - cbn. lia.
  - vm_compute. reflexivity.
  - intros [e s a] Ha. cbn in Ha. unfold archives_but_one. cbn [p_archive].
    apply elem_of_cons in Ha as [->|Ha]; [done|].
    apply elem_of_cons in Ha as [->|Ha]; [done|].
    by apply elem_of_nil in Ha.
Defined.

(** X19. The training run of an unpacked object from step 0: after a successful
    [get_files], and when every batch can be extracted, [gen_main] runs
    to its end and yields [epoch_steps * num_epochs] batches, which is at
    least [max_steps]; the batches
    [epoch_steps * e .. epoch_steps * e + epoch_steps - 1] are those of
    epoch [e], each of [batch_size] entries, and together they hold the
    entries of the main set, each as often as the main set does. *)
Theorem gen_main_epochs (await : task → result ()) (load : ptask → result ())
    (g0 g : rng) (self self' : DataBase) (env : discovery)
    (σ : gmap nat (list entry)) (main_set_at : nat) :
  packed self = false → 0 < prefetch self →
  get_files g0 self env = Ok self' →
  (∀ t, await t = Ok ()) →
  ∃ main es n m st,
    main_set self' = Some (Sample <$> main) ∧
    epoch_steps self' = Some es ∧ num_epochs self' = Some n ∧
    max_steps self' = Some m ∧
    gen_main_await await load self' σ g main_set_at 0 = Some (Batches st (Ok ())) ∧
    length (g_yielded st) = es * n ∧ m ≤ es * n ∧
    ∀ e, e < n →
      let batches := take es (drop (es * e) (g_yielded st)) in
      length batches = es ∧
      (∀ t, t ∈ batches → t_epoch t = e ∧ length (t_batch_set t) = batch_size self) ∧
      concat (t_batch_set <$> batches) ≡ₚ main.
Proof.
  intros Hp Hpre H Hr.
  destruct (get_files_config _ _ _ _ H) as (_ & Hbs & Hpk & Hsh & Hgs & Hpf).
  destruct (get_files_unpacked_main _ _ _ _ Hp H) as (dl & main & Ho & Hmain).
  destruct (get_files_origin_group _ _ _ _ Ho) as [Hg Hm].
  destruct (get_files_steps_inv _ _ _ _ H)
    as (es & n & m & main' & Hres & Hes & Hn & Hmax & _ & Hmain' & Hlen).
  rewrite Hp, Hmain' in *. injection Hmain as ->.
  rewrite length_fmap in Hlen. destruct Hlen as (Hlen & Hes0 & Hb).
  assert (Hmn : m ≤ es * n).
  { apply resolve_steps_Ok in Hres as [(_ & _ & ->)|(_ & _ & ->)]; [done|].
    pose proof (Nat.div_mod_eq (m + es - 1) es) as Hdm.
    pose proof (Nat.mod_upper_bound (m + es - 1) es ltac:(lia)) as Hub. nia. }
  destruct (gen_batches_origin_run self' (<[main_set_at := main]> σ) g main_set_at
              main es n 0 (shuffle self')) as (st & Hrun & Hf & Hy).
  { apply lookup_insert_eq. } { lia. } { done. } { lia. } { lia. }
  { by rewrite Hbs, Hgs. }
  exists main, es, n, m, st. do 4 (split; [done|]). split.
  { unfold gen_main_await, gen_batches_await. rewrite Hmain', Hes, Hn, Hpk. cbn.
    rewrite entries_of_Sample, gen_batches_origin_await_resolved by done.
    by rewrite Hrun. }
  unfold schedule in Hy. rewrite Nat.sub_0_r, Nat.Div0.div_0_l in Hy.
  split.
  { by rewrite <- (length_fmap task_triple), Hy, length_fmap, length_seq. }
  split; [done|]. intros e He batches.
  assert (Hblock : task_triple <$> batches
    = (λ s, (e, s, window_of self' (epoch_list self' main (shuffle self') g 0 e) s))
      <$> seq 0 es).
  { subst batches. rewrite fmap_take, fmap_drop, Hy, <- fmap_drop, <- fmap_take.
    rewrite drop_seq, take_seq, Nat.add_0_l.
    replace (es `min` (es * n - es * e)) with es by nia.
    rewrite (schedule_block
      (λ e s, window_of self' (epoch_list self' main (shuffle self') g 0 e) s)
      es e 0 es) by lia.
    by rewrite Nat.add_0_r. }
  destruct (epoch_list_perm self' main (shuffle self') g 0 e es) as [Hclen Hperm];
    [lia|by rewrite Hbs|].
  split.
  { by rewrite <- (length_fmap task_triple), Hblock, length_fmap, length_seq. }
  split.
  - intros t Ht. apply (list_elem_of_fmap_2 task_triple) in Ht. rewrite Hblock in Ht.
    apply list_elem_of_fmap in Ht as (s & Ht & [_ Hs]%elem_of_seq).
    injection Ht as -> _ ->. split; [done|].
    rewrite window_of_take_drop, length_take, length_drop, Hclen, Hbs. nia.
  - change t_batch_set with (snd ∘ task_triple).
    rewrite list_fmap_compose, Hblock, <- list_fmap_compose.
    change (concat (window_of self' (epoch_list self' main (shuffle self') g 0 e)
                      <$> seq 0 es) ≡ₚ main).
    rewrite windows_tile, take_ge; [done|]. rewrite Hclen, Hbs. lia.
Qed.

Lemma gen_main_epochs_witness :
  ∃ main es n m st,
    main_set six_files_unsplit = Some (Sample <$> main) ∧
    epoch_steps six_files_unsplit = Some es ∧ num_epochs six_files_unsplit = Some n ∧
    max_steps six_files_unsplit = Some m ∧
    gen_main_await all_resolve all_resolve six_files_unsplit ∅ rng0 0 0
      = Some (Batches st (Ok ())) ∧
    length (g_yielded st) = es * n ∧ m ≤ es * n ∧
    ∀ e, e < n →
      let batches := take es (drop (es * e) (g_yielded st)) in
      length batches = es ∧
      (∀ t, t ∈ batches →
            t_epoch t = e ∧ length (t_batch_set t) = batch_size unpacked_db_no_val) ∧
      concat (t_batch_set <$> batches) ≡ₚ main.
Proof.
  apply (gen_main_epochs all_resolve all_resolve rng0 rng0 unpacked_db_no_val
           six_files_unsplit six_files ∅ 0).
  - reflexivity.
  - cbn. lia.
  - vm_compute. reflexivity.
  - done.
Defined.
